(** * join-logger: membership reconciliation, cooldown and debounce

    A shallow embedding of the join-notification bot.  The repository holds
    three near-duplicate scripts:

    - [src/unnamed/part_000]: persistence, reconciling poll, cooldown and
      debounce; the live join listener hands the member to the scheduler and
      a flush posts one message per guild;
    - [src/unnamed/part_001]: the same helpers; the live join listener posts
      at once and a flush posts one detailed message per member;
    - [src/index.js]: an earlier poll-only script without these mechanisms.

    The embedding follows part_000/part_001, which share every helper the
    properties below are about; the poll of src/index.js is embedded apart,
    in [Legacy].  The module-level variables of the script
    and the pieces of the runtime they act on (clock, pending timers,
    writes that have not settled, the persistence file) form one [State]
    that every function takes and returns.

    Conventions of the embedding:

    - discord.js collections map an identifier to the object carrying it, so
      a collection is a list of such objects and iterating [[id, x]] yields
      [id = x.id];
    - [Date.now()] reads the [clock] field; a handler activation takes no
      time, time passes between activations ([Elapse]);
    - an [async] function is cut at the awaits that wait for the outside
      world: the roster fetch splits one iteration of the poll loop in two
      activations, a write that has started settles later; awaits on the
      script's own helpers resume at once;
    - what the platform or the file system answers is an input of the
      activation (a roster, a [Dispatcher], the outcome of a write);
    - message text and console output are not represented: a message is
      the members it is about;
    - the persistence file is represented by what [JSON.parse] makes of its
      text; guild identifiers are ordinary property names; a dump lists the
      guilds in the order of the map, the script in the order in which it
      made the sets, which no property below depends on. *)

From stdpp Require Import gmap strings list fin_maps pretty.
From Stdlib Require Import ZArith Lia.

Local Open Scope Z_scope.

(** ** JavaScript values, as far as the persistence file needs them *)

Module JS.

#[local] Set Warnings "-register-all".

Inductive value :=
| Null
| Bool (b : bool)
| Num (n : Z)
| Str (s : string)
| Arr (items : list value)
| Obj (fields : list (string * value)).

(** Truthiness, for [obj || {}]. *)
Definition truthy (v : value) : bool :=
  match v with
  | Null => false
  | Bool b => b
  | Num n => negb (n =? 0)
  | Str s => negb (String.eqb s EmptyString)
  | Arr _ | Obj _ => true
  end.

(** The equality a [Set] uses.  Primitives compare by value; two arrays or
    objects are the same only when they are one reference, which never
    happens between a probe and what [JSON.parse] created. *)
Definition same_value_zero (a b : value) : bool :=
  match a, b with
  | Null, Null => true
  | Bool x, Bool y => Bool.eqb x y
  | Num x, Num y => x =? y
  | Str x, Str y => String.eqb x y
  | _, _ => false
  end.

(** A [Set] is the list of its elements in insertion order. *)
Definition has (x : value) (s : list value) : bool :=
  existsb (same_value_zero x) s.

Definition add (x : value) (s : list value) : list value :=
  if has x s then s else s ++ [x].

Definition Set_from (items : list value) : list value :=
  foldl (λ s x, add x s) [] items.

(** The characters of a string record, one per byte: string records are
    taken to be ASCII, where bytes, UTF-16 units and code points are the
    same thing.  For other text the script iterates code points and indexes
    UTF-16 units, and the file would load with other elements than here. *)
Fixpoint chars (s : string) : list value :=
  match s with
  | EmptyString => []
  | String c rest => Str (String c EmptyString) :: chars rest
  end.

(** [new Set(v)]: [None] is the [TypeError] for a value that cannot be
    iterated; an absent or null argument gives the empty set. *)
Definition new_Set (v : option value) : option (list value) :=
  match v with
  | None | Some Null => Some []
  | Some (Arr items) => Some (Set_from items)
  | Some (Str s) => Some (Set_from (chars s))
  | Some (Bool _) | Some (Num _) | Some (Obj _) => None
  end.

Definition indices (n : nat) : list string :=
  map (λ i : nat, pretty i) (seq 0 n).

Definition Object_keys (v : value) : list string :=
  match v with
  | Obj fields => fields.*1
  | Arr items => indices (length items)
  | Str s => indices (String.length s)
  | Null | Bool _ | Num _ => []
  end.

Fixpoint assoc {A} (key : string) (l : list (string * A)) : option A :=
  match l with
  | [] => None
  | (k, v) :: rest => if String.eqb key k then Some v else assoc key rest
  end.

(** [v[key]] for an own enumerable key; [None] is [undefined]. *)
Definition get (v : value) (key : string) : option value :=
  match v with
  | Obj fields => assoc key fields
  | Arr items => assoc key (zip (indices (length items)) items)
  | Str s => assoc key (zip (indices (String.length s)) (chars s))
  | Null | Bool _ | Num _ => None
  end.

(** [Array.from(set)]. *)
Definition Array_from (s : list value) : value := Arr s.

End JS.

(** ** Configuration ([cfg]) *)

Definition notifyDebounceMs : Z := 5000.
Definition notifyCooldownMs : Z := 10 * 60 * 1000.
Definition saveDelayMs : Z := 800.

(** ** Platform objects *)

Record Guild := {
  guild_id : string;              (* guild.id *)
  memberCount : option Z          (* guild.memberCount *)
}.

Record Member := {
  member_id : string;             (* member.id *)
  joinedTimestamp : option Z;     (* member.joinedTimestamp *)
  guild : option Guild            (* member.guild *)
}.

(** One entry of [client.guilds.cache] with what its member manager answers
    during a tick: [fetched = None] when [guild.members.fetch()] rejects. *)
Record GuildView := {
  view_guild : Guild;
  fetched : option (list Member);
  cached : list Member
}.

(** ** Runtime *)

Inductive Callback := WriteDump | FlushBuffer.

Record Timer := { handle : nat; due : Z; callback : Callback }.

(** The persistence file: absent, unreadable for another reason, or a text
    on which [JSON.parse] throws ([None]) or returns a value. *)
Inductive Disk :=
| Missing
| Unreadable
| Content (parsed : option JS.value).

Record State := {
  knownMembers : gmap string (list JS.value);
  lastNotified : gmap string Z;
  notifyBuffer : list (Guild * Member);
  debounceTimer : option nat;
  saveScheduled : bool;
  readyAt : option Z;             (* client.readyAt *)
  clock : Z;                      (* Date.now() *)
  timers : list Timer;            (* setTimeout calls not yet run *)
  nextHandle : nat;
  writes : list JS.value;         (* fs.writeFile calls not yet settled *)
  disk : Disk
}.

Definition set_knownMembers (k : gmap string (list JS.value)) (st : State) : State :=
  {| knownMembers := k; lastNotified := lastNotified st;
     notifyBuffer := notifyBuffer st; debounceTimer := debounceTimer st;
     saveScheduled := saveScheduled st; readyAt := readyAt st;
     clock := clock st; timers := timers st; nextHandle := nextHandle st;
     writes := writes st; disk := disk st |}.

Definition set_lastNotified (l : gmap string Z) (st : State) : State :=
  {| knownMembers := knownMembers st; lastNotified := l;
     notifyBuffer := notifyBuffer st; debounceTimer := debounceTimer st;
     saveScheduled := saveScheduled st; readyAt := readyAt st;
     clock := clock st; timers := timers st; nextHandle := nextHandle st;
     writes := writes st; disk := disk st |}.

Definition set_notifyBuffer (b : list (Guild * Member)) (st : State) : State :=
  {| knownMembers := knownMembers st; lastNotified := lastNotified st;
     notifyBuffer := b; debounceTimer := debounceTimer st;
     saveScheduled := saveScheduled st; readyAt := readyAt st;
     clock := clock st; timers := timers st; nextHandle := nextHandle st;
     writes := writes st; disk := disk st |}.

Definition set_debounceTimer (d : option nat) (st : State) : State :=
  {| knownMembers := knownMembers st; lastNotified := lastNotified st;
     notifyBuffer := notifyBuffer st; debounceTimer := d;
     saveScheduled := saveScheduled st; readyAt := readyAt st;
     clock := clock st; timers := timers st; nextHandle := nextHandle st;
     writes := writes st; disk := disk st |}.

Definition set_saveScheduled (b : bool) (st : State) : State :=
  {| knownMembers := knownMembers st; lastNotified := lastNotified st;
     notifyBuffer := notifyBuffer st; debounceTimer := debounceTimer st;
     saveScheduled := b; readyAt := readyAt st;
     clock := clock st; timers := timers st; nextHandle := nextHandle st;
     writes := writes st; disk := disk st |}.

Definition set_clock (t : Z) (st : State) : State :=
  {| knownMembers := knownMembers st; lastNotified := lastNotified st;
     notifyBuffer := notifyBuffer st; debounceTimer := debounceTimer st;
     saveScheduled := saveScheduled st; readyAt := readyAt st;
     clock := t; timers := timers st; nextHandle := nextHandle st;
     writes := writes st; disk := disk st |}.

Definition set_timers (ts : list Timer) (n : nat) (st : State) : State :=
  {| knownMembers := knownMembers st; lastNotified := lastNotified st;
     notifyBuffer := notifyBuffer st; debounceTimer := debounceTimer st;
     saveScheduled := saveScheduled st; readyAt := readyAt st;
     clock := clock st; timers := ts; nextHandle := n;
     writes := writes st; disk := disk st |}.

Definition set_writes (w : list JS.value) (st : State) : State :=
  {| knownMembers := knownMembers st; lastNotified := lastNotified st;
     notifyBuffer := notifyBuffer st; debounceTimer := debounceTimer st;
     saveScheduled := saveScheduled st; readyAt := readyAt st;
     clock := clock st; timers := timers st; nextHandle := nextHandle st;
     writes := w; disk := disk st |}.

Definition set_disk (d : Disk) (st : State) : State :=
  {| knownMembers := knownMembers st; lastNotified := lastNotified st;
     notifyBuffer := notifyBuffer st; debounceTimer := debounceTimer st;
     saveScheduled := saveScheduled st; readyAt := readyAt st;
     clock := clock st; timers := timers st; nextHandle := nextHandle st;
     writes := writes st; disk := d |}.

(** [setTimeout(cb, delay)]: a fresh handle, due [delay] after now. *)
Definition setTimeout (cb : Callback) (delay : Z) (st : State) : nat * State :=
  let h := nextHandle st in
  (h, set_timers (timers st ++ [{| handle := h; due := clock st + delay; callback := cb |}])
                 (S h) st).

(** [clearTimeout(h)]: nothing happens when [h] already ran. *)
Definition clearTimeout (h : nat) (st : State) : State :=
  set_timers (List.filter (λ t, negb (Nat.eqb (handle t) h)) (timers st))
             (nextHandle st) st.

Definition set_readyAt (r : option Z) (st : State) : State :=
  {| knownMembers := knownMembers st; lastNotified := lastNotified st;
     notifyBuffer := notifyBuffer st; debounceTimer := debounceTimer st;
     saveScheduled := saveScheduled st; readyAt := r;
     clock := clock st; timers := timers st; nextHandle := nextHandle st;
     writes := writes st; disk := disk st |}.

(** A process that has just started on a given disk. *)
Definition boot (now : Z) (d : Disk) : State :=
  {| knownMembers := ∅; lastNotified := ∅; notifyBuffer := [];
     debounceTimer := None; saveScheduled := false; readyAt := None;
     clock := now; timers := []; nextHandle := O; writes := []; disk := d |}.

(** ** Membership store *)

(** [loadPersistence]: the loop over [Object.keys(obj || {})].  A record
    that cannot be iterated makes [new Set] throw; the [catch] returns
    [false] and the guilds assigned before it stay assigned. *)
Fixpoint load_keys (obj : JS.value) (keys : list string) (st : State) : bool * State :=
  match keys with
  | [] => (true, st)
  | guildId :: rest =>
      match JS.new_Set (JS.get obj guildId) with
      | None => (false, st)
      | Some s => load_keys obj rest (set_knownMembers (<[guildId := s]> (knownMembers st)) st)
      end
  end.

Definition loadPersistence (st : State) : bool * State :=
  match disk st with
  | Missing => (false, st)                 (* readFile rejects, ENOENT *)
  | Unreadable => (false, st)              (* readFile rejects otherwise *)
  | Content None => (false, st)            (* JSON.parse throws *)
  | Content (Some obj) =>
      let obj := if JS.truthy obj then obj else JS.Obj [] in
      load_keys obj (JS.Object_keys obj) st
  end.

(** [savePersistence]: one timer per window, guarded by [saveScheduled]. *)
Definition savePersistence (st : State) : State :=
  if saveScheduled st then st
  else snd (setTimeout WriteDump saveDelayMs (set_saveScheduled true st)).

(** The object the timer callback builds from [knownMembers].  Its keys come
    in the order in which the map enumerates them, not in the order in
    which the script created them; a dump is an object of arrays, which
    loads the same in any order. *)
Definition dump (k : gmap string (list JS.value)) : JS.value :=
  JS.Obj (map (λ gs : string * list JS.value, (gs.1, JS.Array_from gs.2)) (map_to_list k)).

(** The timer callback up to [await fs.writeFile(...)]. *)
Definition startWrite (st : State) : State :=
  set_writes (writes st ++ [dump (knownMembers st)]) st.

(** The rest of the callback, once the oldest write has settled: the file
    holds the dump when it succeeded, and [finally] lowers the flag. *)
Definition finishWrite (ok : bool) (st : State) : option State :=
  match writes st with
  | [] => None
  | d :: rest =>
      let st := set_writes rest st in
      let st := if ok then set_disk (Content (Some d)) st else st in
      Some (set_saveScheduled false st)
  end.

(** ** Reconciler and scheduler *)

Definition known (st : State) (guildId : string) : list JS.value :=
  default [] (knownMembers st !! guildId).

(** [if (!knownMembers[gid]) knownMembers[gid] = new Set()]. *)
Definition ensureGuild (guildId : string) (st : State) : State :=
  match knownMembers st !! guildId with
  | Some _ => st
  | None => set_knownMembers (<[guildId := []]> (knownMembers st)) st
  end.

Definition diffNewMembers (guildId : string) (fetchedMembers : list Member) (st : State)
  : list Member :=
  let seen := known st guildId in
  List.filter (λ m, negb (JS.has (JS.Str (member_id m)) seen)) fetchedMembers.

(** What leaves the core: a roster fetch, a member handed to
    [scheduleNotify] by the poll or by the listener, a message the channel
    accepted. *)
Inductive Message :=
| Batch (guildId : string) (members : list Member)   (* part_000, one per guild *)
| Detailed (m : Member).                             (* part_001, formatJoinLog *)

Inductive Effect :=
| RosterFetch (g : Guild)
| Forward (m : Member) (g : Guild)
| Send (msg : Message).

Definition accepts (member : Member) (st : State) : bool :=
  let last := default 0 (lastNotified st !! member_id member) in
  negb (clock st - last <? notifyCooldownMs).

(** [scheduleNotify] past the cooldown check: reserve the cooldown, queue
    the pair, replace the debounce timer. *)
Definition enqueue (member : Member) (g : Guild) (st : State) : State :=
  let st := set_lastNotified (<[member_id member := clock st]> (lastNotified st)) st in
  let st := set_notifyBuffer (notifyBuffer st ++ [(g, member)]) st in
  let st := match debounceTimer st with
            | Some h => clearTimeout h st
            | None => st
            end in
  let (h, st) := setTimeout FlushBuffer notifyDebounceMs st in
  set_debounceTimer (Some h) st.

Definition scheduleNotify (member : Member) (g : Guild) (st : State) : State :=
  let last := default 0 (lastNotified st !! member_id member) in
  if clock st - last <? notifyCooldownMs then st
  else enqueue member g st.

(** The [Map] built by the first loop of [flushNotifyBuffer]: guilds in
    order of first appearance, members in order of arrival. *)
Fixpoint push (g : string) (m : Member) (groups : list (string * list Member))
  : list (string * list Member) :=
  match groups with
  | [] => [(g, [m])]
  | (g', ms) :: rest =>
      if String.eqb g g' then (g', ms ++ [m]) :: rest
      else (g', ms) :: push g m rest
  end.

Definition byGuild (buffer : list (Guild * Member)) : list (string * list Member) :=
  foldl (λ groups item, push (guild_id item.1) item.2 groups) [] buffer.

(** What the platform answers to a dispatch. *)
Inductive ChannelAnswer := FetchThrows | NoChannel | Channel.

Record Dispatcher := {
  fetchChannel : string -> ChannelAnswer;   (* asked while serving this guild *)
  sendOk : Message -> bool                  (* false: channel.send rejects *)
}.

(** part_000: one message per guild. *)
Definition sendBatches (d : Dispatcher) (groups : list (string * list Member)) : list Effect :=
  flat_map (λ gm : string * list Member,
    match fetchChannel d gm.1 with
    | Channel => if sendOk d (Batch gm.1 gm.2) then [Send (Batch gm.1 gm.2)] else []
    | FetchThrows | NoChannel => []
    end) groups.

(** part_001: one message per member, each send caught on its own. *)
Definition sendDetailed (d : Dispatcher) (groups : list (string * list Member)) : list Effect :=
  flat_map (λ gm : string * list Member,
    match fetchChannel d gm.1 with
    | Channel => flat_map (λ m, if sendOk d (Detailed m) then [Send (Detailed m)] else []) gm.2
    | FetchThrows | NoChannel => []
    end) groups.

Inductive Variant := Batched (* part_000 *) | Instant (* part_001 *).

Definition flushNotifyBuffer (v : Variant) (d : Dispatcher) (st : State) : State * list Effect :=
  match notifyBuffer st with
  | [] => (st, [])
  | _ :: _ =>
      let groups := byGuild (notifyBuffer st) in
      (set_notifyBuffer [] st,
       match v with
       | Batched => sendBatches d groups
       | Instant => sendDetailed d groups
       end)
  end.

(** [!m.joinedTimestamp]: the script's test for a member without a join
    timestamp, true of [null] and of [0]. *)
Definition noTimestamp (m : Member) : bool :=
  match joinedTimestamp m with
  | None => true
  | Some t => t =? 0
  end.

(** The recency filter of [pollWorker]:
    [!m.joinedTimestamp || m.joinedTimestamp >= startupTs - 5000]. *)
Definition realNew (startupTs : Z) (m : Member) : bool :=
  match joinedTimestamp m with
  | None => true
  | Some t => (t =? 0) || (startupTs - 5000 <=? t)
  end.

(** [client.readyAt ? client.readyAt.getTime() : Date.now()]. *)
Definition startupTs (st : State) : Z := default (clock st) (readyAt st).

Definition markKnown (seen : list JS.value) (members : list Member) : list JS.value :=
  foldl (λ s m, JS.add (JS.Str (member_id m)) s) seen members.

Definition scheduleAll (g : Guild) (members : list Member) (st : State) : State :=
  foldl (λ st m, scheduleNotify m g st) st members.

(** One iteration of the loop of [pollWorker], up to the roster fetch:
    [false] is the [continue] of the member-count short cut. *)
Definition pollBeforeFetch (g : Guild) (st : State) : State * bool :=
  let st := ensureGuild (guild_id g) st in
  let currentKnownSize := Z.of_nat (length (known st (guild_id g))) in
  let remoteCount := default 0 (memberCount g) in
  (st, negb (remoteCount <=? currentKnownSize)).

(** The same iteration from the roster on.  Without a set for the guild
    the first [add] throws and the guild's [catch] ends the iteration. *)
Definition pollAfterFetch (g : Guild) (roster : list Member) (st : State)
  : State * list Effect :=
  let guildId := guild_id g in
  let newMembers := diffNewMembers guildId roster st in
  match newMembers with
  | [] => (st, [])
  | _ :: _ =>
      let fresh := List.filter (realNew (startupTs st)) newMembers in
      match knownMembers st !! guildId with
      | None => (st, [])
      | Some seen =>
          let st := set_knownMembers
                      (<[guildId := markKnown seen newMembers]> (knownMembers st)) st in
          let st := savePersistence st in
          (scheduleAll g fresh st, map (λ m, Forward m g) fresh)
      end
  end.

Definition pollGuild (v : GuildView) (st : State) : State * list Effect :=
  let g := view_guild v in
  let (st, go) := pollBeforeFetch g st in
  if go then
    let (st, effs) := pollAfterFetch g (default (cached v) (fetched v)) st in
    (st, RosterFetch g :: effs)
  else (st, []).

Definition pollWorker (guilds : list GuildView) (st : State) : State * list Effect :=
  foldl (λ acc v, let (st, effs) := pollGuild v acc.1 in (st, acc.2 ++ effs))
        (st, []) guilds.

(** ** Live join listener *)

(** [member.joinedTimestamp && client.readyAt &&
     member.joinedTimestamp < client.readyAt.getTime() - 2000]. *)
Definition replayed (member : Member) (st : State) : bool :=
  match joinedTimestamp member, readyAt st with
  | Some t, Some r => negb (t =? 0) && (t <? r - 2000)
  | _, _ => false
  end.

Definition sendInstant (d : Dispatcher) (guildId : string) (member : Member) : list Effect :=
  match fetchChannel d guildId with
  | Channel => if sendOk d (Detailed member) then [Send (Detailed member)] else []
  | FetchThrows | NoChannel => []
  end.

Definition guildMemberAdd (v : Variant) (d : Dispatcher) (member : option Member) (st : State)
  : State * list Effect :=
  match member with
  | None => (st, [])
  | Some member =>
      match guild member with
      | None => (st, [])
      | Some g =>
          let gid := guild_id g in
          let st := ensureGuild gid st in
          if JS.has (JS.Str (member_id member)) (known st gid) then (st, [])
          else if replayed member st then (st, [])
          else
            let st := set_knownMembers
                        (<[gid := JS.add (JS.Str (member_id member)) (known st gid)]>
                           (knownMembers st)) st in
            let st := savePersistence st in
            match v with
            | Batched => (scheduleNotify member g st, [Forward member g])
            | Instant => (st, sendInstant d gid member)
            end
      end
  end.

(** ** Startup: the [ready] handler up to the registration of the listener *)

Definition baseline (guilds : list GuildView) (st : State) : State :=
  foldl (λ st v,
    let gid := guild_id (view_guild v) in
    let st := ensureGuild gid st in
    set_knownMembers (<[gid := markKnown (known st gid) (cached v)]> (knownMembers st)) st)
    st guilds.

Definition onReady (guilds : list GuildView) (st : State) : bool * State :=
  let (hadPersistence, st) := loadPersistence st in
  let st := baseline guilds st in
  (hadPersistence, savePersistence st).

(** ** Activations of the event loop *)

Inductive Event :=
| Elapse (dt : Z)                                  (* time passes *)
| MemberAdd (member : option Member) (d : Dispatcher)    (* guildMemberAdd *)
| PollBegin (g : Guild)                            (* loop body up to the fetch *)
| PollResume (g : Guild) (roster : list Member)    (* loop body from the roster on,
                                                      whenever the fetch answers *)
| SaveRequest                                      (* savePersistence() at shutdown *)
| TimerFires (h : nat) (d : Dispatcher)            (* a due timer runs *)
| WriteSettles (ok : bool).                        (* fs.writeFile settles *)

Definition findTimer (h : nat) (st : State) : option Timer :=
  List.find (λ t, Nat.eqb (handle t) h) (timers st).

Definition runTimer (v : Variant) (d : Dispatcher) (t : Timer) (st : State)
  : State * list Effect :=
  let st := clearTimeout (handle t) st in
  match callback t with
  | WriteDump => (startWrite st, [])
  | FlushBuffer => flushNotifyBuffer v d st
  end.

(** [None]: the activation cannot happen in this state (time running
    backwards, a timer that is not pending or not yet due, no write to
    settle). *)
Definition step (v : Variant) (ev : Event) (st : State) : option (State * list Effect) :=
  match ev with
  | Elapse dt => if 0 <=? dt then Some (set_clock (clock st + dt) st, []) else None
  | MemberAdd member d => Some (guildMemberAdd v d member st)
  | PollBegin g =>
      let (st, go) := pollBeforeFetch g st in
      Some (st, if go then [RosterFetch g] else [])
  | PollResume g roster => Some (pollAfterFetch g roster st)
  | SaveRequest => Some (savePersistence st, [])
  | TimerFires h d =>
      match findTimer h st with
      | Some t => if due t <=? clock st then Some (runTimer v d t st) else None
      | None => None
      end
  | WriteSettles ok =>
      match finishWrite ok st with
      | Some st => Some (st, [])
      | None => None
      end
  end.

Fixpoint run (v : Variant) (evs : list Event) (st : State) : option (State * list Effect) :=
  match evs with
  | [] => Some (st, [])
  | ev :: rest =>
      match step v ev st with
      | None => None
      | Some (st1, e1) =>
          match run v rest st1 with
          | None => None
          | Some (st2, e2) => Some (st2, e1 ++ e2)
          end
      end
  end.

(** The activations that make up one iteration of the poll loop when
    nothing else comes in between. *)
Definition iteration (v : GuildView) (st : State) : list Event :=
  PollBegin (view_guild v)
    :: if (pollBeforeFetch (view_guild v) st).2
       then [PollResume (view_guild v) (default (cached v) (fetched v))]
       else [].

(** The state in which the [ready] handler leaves a process that started
    at [now] on disk [d] and became ready at [r]: from here on the listener
    and the poll timer are installed. *)
Definition started (now : Z) (d : Disk) (r : Z) (guilds : list GuildView) : State :=
  (onReady guilds (set_readyAt (Some r) (boot now d))).2.

(** ** Pending timers by kind *)

Definition is_flush (t : Timer) : bool :=
  match callback t with FlushBuffer => true | WriteDump => false end.

Definition is_write (t : Timer) : bool :=
  match callback t with WriteDump => true | FlushBuffer => false end.

Definition pendingFlush (st : State) : list Timer := List.filter is_flush (timers st).
Definition pendingWrite (st : State) : list Timer := List.filter is_write (timers st).

(** ** Scheduler calls spread over time *)

Record Call := { after : Z; who : Member; at_guild : Guild }.

(** [after c] milliseconds later, [scheduleNotify(who c, at_guild c)]. *)
Definition arrive (c : Call) (st : State) : State :=
  scheduleNotify (who c) (at_guild c) (set_clock (clock st + after c) st).

Definition arrivals (calls : list Call) (st : State) : State :=
  foldl (λ st c, arrive c st) st calls.

Fixpoint all_accepted (calls : list Call) (st : State) : bool :=
  match calls with
  | [] => true
  | c :: rest =>
      accepts (who c) (set_clock (clock st + after c) st) && all_accepted rest (arrive c st)
  end.

(** Every call comes no later than the moment the debounce timer that is
    pending when it comes would run. *)
Fixpoint on_time (calls : list Call) (st : State) : Prop :=
  match calls with
  | [] => True
  | c :: rest =>
      (∀ t, t ∈ pendingFlush st → clock st + after c ≤ due t)
      ∧ on_time rest (arrive c st)
  end.

Definition queued (calls : list Call) : list (Guild * Member) :=
  map (λ c, (at_guild c, who c)) calls.

Definition total_wait (calls : list Call) : Z :=
  foldr (λ c acc, after c + acc) 0 calls.

(** ** Invariants of the timers *)

Record Inv (st : State) : Prop := {
  inv_nodup : NoDup (handle <$> timers st);
  inv_fresh : ∀ t, t ∈ timers st → (handle t < nextHandle st)%nat;
  inv_debounce_fresh : ∀ h, debounceTimer st = Some h → (h < nextHandle st)%nat;
  inv_flush : ∀ t, t ∈ timers st →
                   (is_flush t = true ↔ debounceTimer st = Some (handle t));
  inv_save : (length (pendingWrite st) + length (writes st))%nat
             = if saveScheduled st then 1%nat else 0%nat;
  inv_buffer : notifyBuffer st = [] → pendingFlush st = [];
  inv_armed : notifyBuffer st ≠ [] → pendingFlush st ≠ []
}.

(** ** Views used to state the properties *)

(** The members a buffer holds for one guild, in order of arrival. *)
Definition membersOf (g : string) (buffer : list (Guild * Member)) : list Member :=
  snd <$> List.filter (λ item : Guild * Member, String.eqb (guild_id item.1) g) buffer.

(** Two [knownMembers] objects that are the same guild-to-set mapping. *)
Definition same_known (k1 k2 : gmap string (list JS.value)) : Prop :=
  ∀ g, match k1 !! g, k2 !! g with
       | Some s1, Some s2 => ∀ x, x ∈ s1 ↔ x ∈ s2
       | None, None => True
       | _, _ => False
       end.

(** [knownMembers[G].has(M)], an absent set holding nothing. *)
Definition isKnown (st : State) (G M : string) : bool :=
  JS.has (JS.Str M) (known st G).

(** A notification for [key] is on record, made at [t1] or later and not
    after now. *)
Definition notifiedSince (key : string) (t1 : Z) (st : State) : Prop :=
  ∃ t, lastNotified st !! key = Some t ∧ t1 ≤ t ≤ clock st.

(** What [new Set(dump[k])] is for the dump of [K]. *)
Definition reloaded (K : gmap string (list JS.value)) (k : string) : list JS.value :=
  match K !! k with
  | Some s => JS.Set_from s
  | None => []
  end.


(** ** Sample inputs *)

Module Sample.

Definition T0 : Z := 1700000000000.

Definition G : Guild := {| guild_id := "G"; memberCount := Some 3 |}.
Definition H : Guild := {| guild_id := "H"; memberCount := Some 1 |}.

Definition alice : Member :=
  {| member_id := "1"; joinedTimestamp := Some (T0 + 1000); guild := Some G |}.
Definition bob : Member :=
  {| member_id := "2"; joinedTimestamp := Some (T0 - 86400000); guild := Some G |}.
Definition carol : Member :=
  {| member_id := "3"; joinedTimestamp := None; guild := Some G |}.
Definition alice_in_H : Member :=
  {| member_id := "1"; joinedTimestamp := Some (T0 + 2000); guild := Some H |}.

Definition dave : Member :=
  {| member_id := "4"; joinedTimestamp := Some (T0 + 3000); guild := Some H |}.

Definition delivers : Dispatcher :=
  {| fetchChannel := λ _, Channel; sendOk := λ _, true |}.
Definition fails : Dispatcher :=
  {| fetchChannel := λ _, FetchThrows; sendOk := λ _, false |}.

(** A guild of five long-standing members and one newcomer. *)
Definition standing (i : string) : Member :=
  {| member_id := i; joinedTimestamp := Some (T0 - 86400000); guild := Some G |}.
Definition five : list Member :=
  [standing "a"; standing "b"; standing "c"; standing "d"; standing "e"].
Definition newcomer : Member :=
  {| member_id := "f"; joinedTimestamp := Some (T0 + 60000); guild := Some G |}.
Definition G5 : Guild := {| guild_id := "G"; memberCount := Some 5 |}.
Definition G6 : Guild := {| guild_id := "G"; memberCount := Some 6 |}.

(** Persistence files as a hand might leave them. *)
Definition hand_written : JS.value :=
  JS.Obj [("g", JS.Arr [JS.Str "1"; JS.Str "1"; JS.Str "2"]);
          ("h", JS.Null);
          ("i", JS.Str "ab")].
Definition bad_record : JS.value :=
  JS.Obj [("a", JS.Arr [JS.Str "1"]); ("b", JS.Num 5); ("c", JS.Arr [])].

(** Just connected, nothing on disk. *)
Definition fresh : State := set_readyAt (Some T0) (boot T0 Missing).

(** A first tick that sees alice and bob in [G], and the state after it. *)
Definition first_tick : GuildView :=
  {| view_guild := G; fetched := Some [alice; bob]; cached := [] |}.

Definition ticked : State := (pollGuild first_tick fresh).1.

(** A later tick on which the platform reports two members for [G]. *)
Definition quiet_tick : GuildView :=
  {| view_guild := {| guild_id := "G"; memberCount := Some 2 |};
     fetched := Some [alice; bob; carol]; cached := [] |}.

(** A failed flush, then the next tick sees alice and bob again, and carol. *)
Definition later_events : list Event :=
  [Elapse 5000; TimerFires 1 fails; Elapse 55000; PollBegin G;
   PollResume G [alice; bob; carol]].

(** Three requests, two for [G] around one for [H], within the window. *)
Definition burst_first : Call := {| after := 0; who := alice; at_guild := G |}.
Definition burst_rest : list Call :=
  [ {| after := 2000; who := dave; at_guild := H |};
    {| after := 5000; who := carol; at_guild := G |} ].

(** What happens within the minute after alice was queued for [G]: the
    flush, then a tick that finds her in [H] as well. *)
Definition within_window : list Event :=
  [Elapse 5000; TimerFires 0 delivers; Elapse 60000;
   PollBegin H; PollResume H [alice_in_H]].

(** She is reported twice more, for [H] and for [G]. *)
Definition repeats : list Call :=
  [ {| after := 1000; who := alice_in_H; at_guild := H |};
    {| after := 500000; who := alice; at_guild := G |} ].

(** The first tick's write goes through. *)
Definition settling : list Event :=
  [Elapse 800; TimerFires 0 delivers; WriteSettles true].

Definition settled : State :=
  match run Batched settling ticked with
  | Some (st, _) => st
  | None => ticked
  end.

(** Saves requested while a timer is pending and while a write is under
    way. *)
Definition busy_events : list Event :=
  [SaveRequest; MemberAdd (Some carol) delivers; Elapse 800; TimerFires 0 delivers;
   SaveRequest; MemberAdd (Some alice) delivers; WriteSettles false; SaveRequest].

End Sample.

(** * Further parts of the scripts *)

(** ** Shutdown *)

Definition graceMs : Z := 1000.

(** [gracefulSaveAndExit]: the state after its save request, and the time
    before which [process.exit] does not run. *)
Definition gracefulSaveAndExit (st : State) : State * Z :=
  (savePersistence st, clock st + graceMs).

(** ** The roles shown in a join message *)

Record Role := { role_id : string; role_name : string; position : Z }.

(** [roles.sort((a, b) => b.position - a.position)].  The sort is stable:
    it yields the one arrangement by falling position in which roles of
    equal position keep their order. *)
Fixpoint insertRole (r : Role) (sorted : list Role) : list Role :=
  match sorted with
  | [] => [r]
  | x :: rest =>
      if position r <? position x then x :: insertRole r rest
      else r :: x :: rest
  end.

Definition sortRoles (roles : list Role) : list Role := foldr insertRole [] roles.

(** [roles] once [highestRole] has been computed: everything but the role
    that carries the guild's own identifier, sorted in place. *)
Definition rolesOf (guildId : string) (cache : list Role) : list Role :=
  sortRoles (List.filter (λ r, negb (String.eqb (role_id r) guildId)) cache).

Definition rolesCount (guildId : string) (cache : list Role) : nat :=
  length (List.filter (λ r, negb (String.eqb (role_id r) guildId)) cache).

Definition highestRole (guildId : string) (cache : list Role) : option Role :=
  head (rolesOf guildId cache).

Definition roleNames (guildId : string) (cache : list Role) : list string :=
  role_name <$> rolesOf guildId cache.

(** ** The earlier script, src/index.js *)

Module Legacy.

(** Its only variable is [knownMembers]. *)

(** [new Set(members.map(m => m.id))]. *)
Definition idsOf (members : list Member) : list JS.value :=
  JS.Set_from (map (λ m, JS.Str (member_id m)) members).

(** The [ready] handler: the fetched roster, or the cache when the fetch
    rejects. *)
Definition onReady (guilds : list GuildView) (k : gmap string (list JS.value))
  : gmap string (list JS.value) :=
  foldl (λ k v, <[guild_id (view_guild v) := idsOf (default (cached v) (fetched v))]> k)
        k guilds.

(** What happens to the message for one member: [client.channels.fetch]
    throws, it finds no channel, building or sending the message throws, or
    the message goes out. *)
Inductive Outcome := FetchThrows | NoChannel | SendThrows | Delivered.

(** The loop over the roster.  A member is added to the set before its
    message is attempted; an exception leaves the loop for the guild's
    [catch]. *)
Fixpoint pollMembers (answer : Member → Outcome) (members : list Member)
    (seen : list JS.value) : list JS.value * list Effect :=
  match members with
  | [] => (seen, [])
  | m :: rest =>
      if JS.has (JS.Str (member_id m)) seen then pollMembers answer rest seen
      else
        let seen := JS.add (JS.Str (member_id m)) seen in
        match answer m with
        | FetchThrows => (seen, [])
        | NoChannel => pollMembers answer rest seen
        | SendThrows => (seen, [])
        | Delivered =>
            let (seen, effs) := pollMembers answer rest seen in
            (seen, Send (Detailed m) :: effs)
        end
  end.

(** One guild of one tick.  With members to look at and no set for the
    guild, [knownMembers[guildId].has] throws and the guild is skipped. *)
Definition pollGuild (answer : Member → Outcome) (v : GuildView)
    (k : gmap string (list JS.value)) : gmap string (list JS.value) * list Effect :=
  let guildId := guild_id (view_guild v) in
  let members := default (cached v) (fetched v) in
  match members with
  | [] => (k, [])
  | _ :: _ =>
      match k !! guildId with
      | None => (k, [])
      | Some seen =>
          let (seen, effs) := pollMembers answer members seen in
          (<[guildId := seen]> k, effs)
      end
  end.

(** One tick, and a series of ticks, each with what the platform answers
    during it. *)
Definition poll (answer : Member → Outcome) (guilds : list GuildView)
    (k : gmap string (list JS.value)) : gmap string (list JS.value) * list Effect :=
  foldl (λ acc v, let (k, effs) := pollGuild answer v acc.1 in (k, acc.2 ++ effs))
        (k, []) guilds.

Definition ticks (rounds : list ((Member → Outcome) * list GuildView))
    (k : gmap string (list JS.value)) : gmap string (list JS.value) * list Effect :=
  foldl (λ acc round, let (k, effs) := poll round.1 round.2 acc.1 in (k, acc.2 ++ effs))
        (k, []) rounds.

Definition has (k : gmap string (list JS.value)) (G M : string) : bool :=
  JS.has (JS.Str M) (default [] (k !! G)).

End Legacy.

(** ** Views for the further properties *)

(** The pairs of guild identifier and member that groups hold. *)
Definition pairsOf (groups : list (string * list Member)) : list (string * Member) :=
  flat_map (λ gm : string * list Member, map (pair gm.1) gm.2) groups.

(** The members that messages are about, in the order of the messages. *)
Definition announced (effs : list Effect) : list Member :=
  flat_map (λ e, match e with
                 | Send (Batch _ members) => members
                 | Send (Detailed m) => [m]
                 | RosterFetch _ | Forward _ _ => []
                 end) effs.

Definition rosterOf (v : GuildView) : list Member := default (cached v) (fetched v).

(** A list of roles in which no role has a higher position than one
    before it. *)
Fixpoint falling (roles : list Role) : Prop :=
  match roles with
  | [] => True
  | r :: rest => (∀ x, x ∈ rest → position x ≤ position r) ∧ falling rest
  end.

(** Every pending timer is due within the delay it was set with. *)
Definition delayOf (cb : Callback) : Z :=
  match cb with
  | WriteDump => saveDelayMs
  | FlushBuffer => notifyDebounceMs
  end.

Definition dueSoon (st : State) : Prop :=
  ∀ t, t ∈ timers st → due t ≤ clock st + delayOf (callback t).

(** How many of the members have the identifier [key]. *)
Definition mentions (key : string) (members : list Member) : nat :=
  length (List.filter (λ m, String.eqb (member_id m) key) members).

(** The pairs handed to [scheduleNotify], in order. *)
Definition forwarded (effs : list Effect) : list (Guild * Member) :=
  flat_map (λ e, match e with
                 | Forward m g => [(g, m)]
                 | RosterFetch _ | Send _ => []
                 end) effs.

(** ** More sample inputs *)

Module More.

Definition everyone : Role := {| role_id := "G"; role_name := "@everyone"; position := 0 |}.
Definition helper : Role := {| role_id := "r1"; role_name := "helper"; position := 2 |}.
Definition admin : Role := {| role_id := "r2"; role_name := "admin"; position := 9 |}.
Definition greeter : Role := {| role_id := "r3"; role_name := "greeter"; position := 2 |}.

Definition G_view : GuildView :=
  {| view_guild := Sample.G; fetched := None; cached := [Sample.alice; Sample.bob] |}.
Definition H_view : GuildView :=
  {| view_guild := Sample.H; fetched := Some [Sample.dave]; cached := [] |}.

(** A process in which the first tick's write is under way. *)
Definition writing : State :=
  match run Batched [Elapse 800; TimerFires 0 Sample.delivers] Sample.ticked with
  | Some (st, _) => st
  | None => Sample.ticked
  end.

(** What an earlier run left on disk. *)
Definition saved : gmap string (list JS.value) :=
  <["G" := [JS.Str "1"; JS.Str "2"]]> ∅.

Definition restarted : State :=
  started (Sample.T0 + 3600000) (Content (Some (dump saved))) (Sample.T0 + 3600000) [].

(** A process that started at [T0] and whose client was ready ten seconds
    later; a member who joined two seconds after the process started. *)
Definition slow_login : State := started Sample.T0 Missing (Sample.T0 + 10000) [].

Definition erin : Member :=
  {| member_id := "5"; joinedTimestamp := Some (Sample.T0 + 2000); guild := Some Sample.G |}.

(** Joins that keep coming, one every four seconds, for longer than the
    cooldown window: first alice in G, last alice in H. *)
Definition stream : list Call :=
  map (λ i : nat, {| after := 4000; who := Sample.standing ("s" +:+ pretty i);
                     at_guild := Sample.G |}) (seq 0 151).

Definition long_burst : list Call :=
  Sample.burst_first
    :: stream ++ [{| after := 4000; who := Sample.alice_in_H; at_guild := Sample.H |}].

(** The second send of a tick fails. *)
Definition second_fails (m : Member) : Legacy.Outcome :=
  if String.eqb (member_id m) "2" then Legacy.SendThrows else Legacy.Delivered.

End More.

(** * Properties *)

(** ** The scenarios of the specification, run on the embedding *)

(** Empty store, five members reported, none known: the roster is fetched,
    all five are marked and, having joined long before startup, none is
    forwarded. *)
Example cold_start_is_silent :
  let r := pollGuild {| view_guild := Sample.G5; fetched := Some Sample.five;
                        cached := [] |} Sample.fresh in
  known r.1 "G" = [JS.Str "a"; JS.Str "b"; JS.Str "c"; JS.Str "d"; JS.Str "e"]
  ∧ r.2 = [RosterFetch Sample.G5].
Proof. vm_compute. done. Qed.

(** One real join a minute later: one request, and one message with one
    member when the debounce timer runs. *)
Example one_join_one_message :
  let cold := (pollGuild {| view_guild := Sample.G5; fetched := Some Sample.five;
                            cached := [] |} Sample.fresh).1 in
  match run Batched [Elapse 60000; PollBegin Sample.G6;
                     PollResume Sample.G6 (Sample.five ++ [Sample.newcomer]);
                     Elapse 5000; TimerFires 1 Sample.delivers] cold with
  | Some (st, effs) =>
      effs = [RosterFetch Sample.G6; Forward Sample.newcomer Sample.G6;
              Send (Batch "G" [Sample.newcomer])]
      ∧ notifyBuffer st = [] ∧ pendingFlush st = []
  | None => False
  end.
Proof. vm_compute. done. Qed.

(** A corrupt file: the load reports that nothing existed, the baseline
    comes from the cache and a fresh file is written. *)
Example corrupt_file_is_replaced :
  let st0 := set_readyAt (Some Sample.T0) (boot Sample.T0 (Content None)) in
  let view := {| view_guild := Sample.G5; fetched := None; cached := Sample.five |} in
  (onReady [view] st0).1 = false
  ∧ match run Batched [Elapse 800; TimerFires 0 Sample.delivers; WriteSettles true]
              (onReady [view] st0).2 with
    | Some (st, _) =>
        disk st = Content (Some (JS.Obj [("G", JS.Arr [JS.Str "a"; JS.Str "b"; JS.Str "c";
                                                      JS.Str "d"; JS.Str "e"])]))
    | None => False
    end.
Proof. vm_compute. done. Qed.

(** What [loadPersistence] makes of files that are not a dump. *)
Example load_hand_written :
  let r := loadPersistence (boot 0 (Content (Some Sample.hand_written))) in
  r.1 = true
  ∧ knownMembers r.2 !! "g" = Some [JS.Str "1"; JS.Str "2"]
  ∧ knownMembers r.2 !! "h" = Some []
  ∧ knownMembers r.2 !! "i" = Some [JS.Str "a"; JS.Str "b"].
Proof. vm_compute. done. Qed.

Example load_stops_at_bad_record :
  let r := loadPersistence (boot 0 (Content (Some Sample.bad_record))) in
  r.1 = false
  ∧ knownMembers r.2 !! "a" = Some [JS.Str "1"]
  ∧ knownMembers r.2 !! "c" = None.
Proof. vm_compute. done. Qed.

Example load_top_level_scalars :
  (loadPersistence (boot 0 (Content (Some (JS.Num 5))))).1 = true
  ∧ (loadPersistence (boot 0 (Content (Some JS.Null)))).1 = true
  ∧ knownMembers (loadPersistence (boot 0 (Content (Some (JS.Str "ab"))))).2 !! "1"
    = Some [JS.Str "b"].
Proof. vm_compute. done. Qed.

(** ** Sets *)

Lemma same_value_zero_eq a b : JS.same_value_zero a b = true → a = b.
Proof.
  destruct a, b; simpl; try discriminate; intros H.
  - reflexivity.
  - apply Bool.eqb_prop in H. by subst.
  - apply Z.eqb_eq in H. by subst.
  - apply String.eqb_eq in H. by subst.
Qed.

Lemma same_value_zero_str s t : JS.same_value_zero (JS.Str s) (JS.Str t) = true ↔ s = t.
Proof. simpl. apply String.eqb_eq. Qed.

Lemma has_elem_of x s : JS.has x s = true → x ∈ s.
Proof.
  unfold JS.has. rewrite existsb_exists. intros (y & Hy & Heq).
  apply same_value_zero_eq in Heq. subst. by apply list_elem_of_In.
Qed.

Lemma has_str id s : JS.has (JS.Str id) s = true ↔ JS.Str id ∈ s.
Proof.
  split; [apply has_elem_of|].
  intros H. unfold JS.has. rewrite existsb_exists. exists (JS.Str id).
  split; [by apply list_elem_of_In | by apply same_value_zero_str].
Qed.

Lemma has_app x s1 s2 : JS.has x (s1 ++ s2) = JS.has x s1 || JS.has x s2.
Proof. unfold JS.has. apply existsb_app. Qed.

Lemma has_add_mono x y s : JS.has x s = true → JS.has x (JS.add y s) = true.
Proof.
  intros H. unfold JS.add. destruct (JS.has y s); [done|].
  rewrite has_app, H. reflexivity.
Qed.

Lemma has_add_str id s : JS.has (JS.Str id) (JS.add (JS.Str id) s) = true.
Proof.
  unfold JS.add. destruct (JS.has (JS.Str id) s) eqn:E; [done|].
  rewrite has_app. simpl. rewrite String.eqb_refl. by rewrite orb_true_r.
Qed.

Lemma elem_of_add x y s : x ∈ JS.add y s ↔ x ∈ s ∨ x = y.
Proof.
  unfold JS.add. destruct (JS.has y s) eqn:E.
  - split; [by left|]. intros [H| ->]; [done|]. by apply has_elem_of.
  - rewrite elem_of_app, list_elem_of_singleton. reflexivity.
Qed.

Lemma elem_of_Set_from x items : x ∈ JS.Set_from items ↔ x ∈ items.
Proof.
  unfold JS.Set_from.
  assert (G : ∀ acc, x ∈ foldl (λ s y, JS.add y s) acc items ↔ x ∈ acc ∨ x ∈ items).
  { induction items as [|y items IH]; intros acc; simpl.
    - rewrite elem_of_nil. tauto.
    - rewrite IH, elem_of_add, elem_of_cons. tauto. }
  rewrite G, elem_of_nil. tauto.
Qed.

Lemma has_markKnown_mono x seen members :
  JS.has x seen = true → JS.has x (markKnown seen members) = true.
Proof.
  unfold markKnown. revert seen.
  induction members as [|m members IH]; intros seen H; simpl; [done|].
  apply IH. by apply has_add_mono.
Qed.

Lemma has_markKnown_member m seen members :
  m ∈ members → JS.has (JS.Str (member_id m)) (markKnown seen members) = true.
Proof.
  unfold markKnown. revert seen.
  induction members as [|m' members IH]; intros seen H; simpl.
  - by apply elem_of_nil in H.
  - apply elem_of_cons in H as [->|H].
    + apply (has_markKnown_mono _ _ members). apply has_add_str.
    + by apply IH.
Qed.

(** ** What each helper leaves alone *)

Lemma known_ensureGuild g g' st : known (ensureGuild g st) g' = known st g'.
Proof.
  unfold known, ensureGuild. destruct (knownMembers st !! g) eqn:E; [done|].
  simpl. destruct (decide (g = g')) as [<-|Hne].
  - by rewrite lookup_insert_eq, E.
  - by rewrite lookup_insert_ne.
Qed.

Lemma knownMembers_savePersistence st :
  knownMembers (savePersistence st) = knownMembers st.
Proof. unfold savePersistence. by destruct (saveScheduled st). Qed.

Lemma knownMembers_scheduleNotify m g st :
  knownMembers (scheduleNotify m g st) = knownMembers st.
Proof.
  unfold scheduleNotify.
  destruct (clock st - default 0 (lastNotified st !! member_id m) <? notifyCooldownMs); [done|].
  unfold enqueue. simpl. by destruct (debounceTimer st).
Qed.

Lemma knownMembers_scheduleAll g members st :
  knownMembers (scheduleAll g members st) = knownMembers st.
Proof.
  unfold scheduleAll. revert st.
  induction members as [|m members IH]; intros st; simpl; [done|].
  by rewrite IH, knownMembers_scheduleNotify.
Qed.

Lemma knownMembers_flush v d st :
  knownMembers (flushNotifyBuffer v d st).1 = knownMembers st.
Proof. unfold flushNotifyBuffer. by destruct (notifyBuffer st). Qed.

Lemma known_insert_same g s st :
  known (set_knownMembers (<[g := s]> (knownMembers st)) st) g = s.
Proof. unfold known. simpl. by rewrite lookup_insert_eq. Qed.

Lemma known_insert_other g g' s st :
  g ≠ g' → known (set_knownMembers (<[g := s]> (knownMembers st)) st) g' = known st g'.
Proof. intros H. unfold known. simpl. by rewrite lookup_insert_ne. Qed.

Lemma known_eq st st' g : knownMembers st' = knownMembers st → known st' g = known st g.
Proof. unfold known. by intros ->. Qed.

(** ** Known members stay known *)

Lemma pollAfterFetch_known_mono g roster st G x :
  JS.has x (known st G) = true →
  JS.has x (known (pollAfterFetch g roster st).1 G) = true.
Proof.
  intros H. unfold pollAfterFetch.
  destruct (diffNewMembers (guild_id g) roster st) as [|n news] eqn:En; [done|].
  destruct (knownMembers st !! guild_id g) as [seen|] eqn:Ek; [|done].
  simpl. rewrite (known_eq _ _ _ (knownMembers_scheduleAll _ _ _)).
  rewrite (known_eq _ _ _ (knownMembers_savePersistence _)).
  destruct (decide (guild_id g = G)) as [<-|Hne].
  - rewrite known_insert_same. apply (has_markKnown_mono x seen (n :: news)).
    unfold known in H. rewrite Ek in H. exact H.
  - by rewrite known_insert_other.
Qed.

Lemma guildMemberAdd_known_mono v d member st G x :
  JS.has x (known st G) = true →
  JS.has x (known (guildMemberAdd v d member st).1 G) = true.
Proof.
  intros H. unfold guildMemberAdd.
  destruct member as [member|]; [|done].
  destruct (guild member) as [g|]; [|done].
  destruct (JS.has _ (known (ensureGuild _ st) _)); [simpl; by rewrite known_ensureGuild|].
  destruct (replayed _ _); [simpl; by rewrite known_ensureGuild|].
  assert (JS.has x
    (known (set_knownMembers
              (<[guild_id g := JS.add (JS.Str (member_id member))
                                 (known (ensureGuild (guild_id g) st) (guild_id g))]>
                 (knownMembers (ensureGuild (guild_id g) st)))
              (ensureGuild (guild_id g) st)) G) = true) as Hadd.
  { destruct (decide (guild_id g = G)) as [<-|Hne].
    - rewrite known_insert_same. apply has_add_mono. by rewrite known_ensureGuild.
    - rewrite known_insert_other by done. by rewrite known_ensureGuild. }
  destruct v; simpl.
  - rewrite (known_eq _ _ _ (knownMembers_scheduleNotify _ _ _)).
    by rewrite (known_eq _ _ _ (knownMembers_savePersistence _)).
  - by rewrite (known_eq _ _ _ (knownMembers_savePersistence _)).
Qed.

Lemma step_known_mono v ev st st' effs G x :
  step v ev st = Some (st', effs) →
  JS.has x (known st G) = true → JS.has x (known st' G) = true.
Proof.
  intros Hstep H. destruct ev; simpl in Hstep.
  - destruct (0 <=? dt); [|done]. by inversion Hstep; subst.
  - inversion Hstep as [Heq].
    pose proof (guildMemberAdd_known_mono v d member st G x H) as Hm.
    by rewrite Heq in Hm.
  - inversion Hstep; subst. by rewrite known_ensureGuild.
  - inversion Hstep as [Heq].
    pose proof (pollAfterFetch_known_mono g roster st G x H) as Hm.
    by rewrite Heq in Hm.
  - inversion Hstep; subst. by rewrite (known_eq _ _ _ (knownMembers_savePersistence _)).
  - destruct (findTimer h st) as [t|]; [|done].
    destruct (due t <=? clock st); [|done].
    inversion Hstep as [Heq]. unfold runTimer in Heq.
    destruct (callback t); [by inversion Heq; subst|].
    pose proof (knownMembers_flush v d (clearTimeout (handle t) st)) as Hm.
    rewrite Heq in Hm. by rewrite (known_eq _ _ _ Hm).
  - unfold finishWrite in Hstep. destruct (writes st); [done|].
    inversion Hstep; subst. by destruct ok.
Qed.

(** ** Only unknown members are forwarded *)

Lemma diffNewMembers_unknown g roster st m :
  m ∈ diffNewMembers g roster st ↔ m ∈ roster ∧ isKnown st g (member_id m) = false.
Proof.
  unfold diffNewMembers, isKnown. rewrite list_elem_of_In, filter_In, <- list_elem_of_In.
  by rewrite negb_true_iff.
Qed.

Lemma pollAfterFetch_forward g roster st m g' :
  Forward m g' ∈ (pollAfterFetch g roster st).2 →
  g' = g ∧ m ∈ diffNewMembers (guild_id g) roster st ∧ realNew (startupTs st) m = true.
Proof.
  unfold pollAfterFetch.
  destruct (diffNewMembers (guild_id g) roster st) as [|n news] eqn:En;
    [by intros ?%elem_of_nil|].
  destruct (knownMembers st !! guild_id g); [|by intros ?%elem_of_nil].
  cbn [snd]. rewrite <- En, list_elem_of_In, in_map_iff.
  intros (y & Heq & Hy). inversion Heq; subst.
  apply filter_In in Hy as [Hy Hr]. by rewrite list_elem_of_In.
Qed.

Lemma guildMemberAdd_forward v d member st m g :
  Forward m g ∈ (guildMemberAdd v d member st).2 →
  member = Some m ∧ guild m = Some g ∧ isKnown st (guild_id g) (member_id m) = false.
Proof.
  unfold guildMemberAdd.
  destruct member as [member|]; [|by intros ?%elem_of_nil].
  destruct (guild member) as [g0|] eqn:Eg; [|by intros ?%elem_of_nil].
  destruct (JS.has _ (known (ensureGuild _ st) _)) eqn:Eh; [by intros ?%elem_of_nil|].
  destruct (replayed _ _); [by intros ?%elem_of_nil|].
  rewrite known_ensureGuild in Eh.
  destruct v; simpl.
  - rewrite list_elem_of_singleton. intros Heq. by inversion Heq; subst.
  - unfold sendInstant. destruct (fetchChannel d (guild_id g0)); try by intros ?%elem_of_nil.
    destruct (sendOk d _); [|by intros ?%elem_of_nil].
    rewrite list_elem_of_singleton. discriminate.
Qed.

Lemma flush_no_forward v d st m g : Forward m g ∉ (flushNotifyBuffer v d st).2.
Proof.
  unfold flushNotifyBuffer. destruct (notifyBuffer st); [apply not_elem_of_nil|].
  simpl. intros H. apply list_elem_of_In in H.
  destruct v; [unfold sendBatches in H | unfold sendDetailed in H];
    apply in_flat_map in H as ([g0 ms] & _ & H); simpl in H;
    destruct (fetchChannel d g0); try done.
  - destruct (sendOk d _); [|done]. by destruct H.
  - apply in_flat_map in H as (m0 & _ & H).
    destruct (sendOk d _); [|done]. by destruct H.
Qed.

Lemma step_forward_unknown v ev st st' effs m g :
  step v ev st = Some (st', effs) →
  Forward m g ∈ effs → isKnown st (guild_id g) (member_id m) = false.
Proof.
  intros Hstep H. destruct ev; simpl in Hstep.
  - destruct (0 <=? dt); [|done]. inversion Hstep; subst. by apply elem_of_nil in H.
  - inversion Hstep as [Heq]. pose proof (f_equal snd Heq) as Hs; cbn [snd] in Hs; rewrite <- Hs in H.
    by apply guildMemberAdd_forward in H as (_ & _ & H).
  - inversion Hstep; subst.
    destruct (negb _); [apply list_elem_of_singleton in H; discriminate|by apply elem_of_nil in H].
  - inversion Hstep as [Heq]. pose proof (f_equal snd Heq) as Hs; cbn [snd] in Hs; rewrite <- Hs in H.
    apply pollAfterFetch_forward in H as (-> & H & _).
    by apply diffNewMembers_unknown in H as [_ H].
  - inversion Hstep; subst. by apply elem_of_nil in H.
  - destruct (findTimer h st) as [t|]; [|done].
    destruct (due t <=? clock st); [|done].
    inversion Hstep as [Heq]. pose proof (f_equal snd Heq) as Hs; cbn [snd] in Hs; rewrite <- Hs in H.
    unfold runTimer in H. destruct (callback t); simpl in H; [by apply elem_of_nil in H|].
    by apply flush_no_forward in H.
  - destruct (finishWrite ok st); [|done]. inversion Hstep; subst. by apply elem_of_nil in H.
Qed.

Lemma run_known_mono v evs st st' effs G x :
  run v evs st = Some (st', effs) →
  JS.has x (known st G) = true → JS.has x (known st' G) = true.
Proof.
  revert st effs. induction evs as [|ev evs IH]; intros st effs Hrun H; simpl in Hrun.
  - by inversion Hrun; subst.
  - destruct (step v ev st) as [[st1 e1]|] eqn:Es; [|done].
    destruct (run v evs st1) as [[st2 e2]|] eqn:Er; [|done].
    inversion Hrun; subst. eapply IH; [done|]. by eapply step_known_mono.
Qed.

Lemma run_forward_unknown v evs st st' effs G M m g :
  run v evs st = Some (st', effs) →
  isKnown st G M = true →
  Forward m g ∈ effs → ¬ (member_id m = M ∧ guild_id g = G).
Proof.
  revert st effs. induction evs as [|ev evs IH]; intros st effs Hrun H Hin; simpl in Hrun.
  - inversion Hrun; subst. by apply elem_of_nil in Hin.
  - destruct (step v ev st) as [[st1 e1]|] eqn:Es; [|done].
    destruct (run v evs st1) as [[st2 e2]|] eqn:Er; [|done].
    inversion Hrun; subst. apply elem_of_app in Hin as [Hin|Hin].
    + intros [<- <-]. apply (step_forward_unknown _ _ _ _ _ _ _ Es) in Hin. congruence.
    + eapply IH; [done| |done]. by eapply step_known_mono.
Qed.

(** C1.  Once [M] is in [knownMembers[G]] it stays there through every
    later activation (ticks, live joins, saves, writes, and flushes whose
    dispatch fails or succeeds), and none of these activations calls
    [scheduleNotify] for [M] in [G] again; a flush, whatever the dispatcher
    answers, leaves [knownMembers] as it is. *)
Theorem known_member_never_reoffered v evs st st' effs G M :
  isKnown st G M = true →
  run v evs st = Some (st', effs) →
  isKnown st' G M = true
  ∧ (∀ m g, Forward m g ∈ effs → ¬ (member_id m = M ∧ guild_id g = G))
  ∧ (∀ d, knownMembers (flushNotifyBuffer v d st').1 = knownMembers st').
Proof.
  intros Hk Hrun. split; [|split].
  - by eapply run_known_mono.
  - intros m g Hin. by eapply run_forward_unknown.
  - intros d. apply knownMembers_flush.
Qed.

Lemma known_member_never_reoffered_witness :
  match run Batched Sample.later_events Sample.ticked with
  | Some (st', effs) =>
      isKnown st' "G" "1" = true
      ∧ (∀ m g, Forward m g ∈ effs → ¬ (member_id m = "1" ∧ guild_id g = "G"))
      ∧ (∀ d, knownMembers (flushNotifyBuffer Batched d st').1 = knownMembers st')
  | None => False
  end.
Proof.
  destruct (run Batched Sample.later_events Sample.ticked) as [[st' effs]|] eqn:E.
  - apply (known_member_never_reoffered Batched Sample.later_events Sample.ticked
             st' effs "G" "1"); [vm_compute; reflexivity | exact E].
  - vm_compute in E. discriminate E.
Defined.

(** ** Cooldown *)

Lemma set_clock_id st : set_clock (clock st) st = st.
Proof. by destruct st. Qed.

Lemma set_clock_twice a b st : set_clock b (set_clock a st) = set_clock b st.
Proof. reflexivity. Qed.

Lemma scheduleNotify_dropped m g st :
  accepts m st = false → scheduleNotify m g st = st.
Proof.
  unfold accepts, scheduleNotify. rewrite negb_false_iff. by intros ->.
Qed.

Lemma scheduleNotify_accepted m g st :
  accepts m st = true → scheduleNotify m g st = enqueue m g st.
Proof.
  unfold accepts, scheduleNotify. rewrite negb_true_iff. by intros ->.
Qed.

Lemma enqueue_lastNotified m g st :
  lastNotified (enqueue m g st) = <[member_id m := clock st]> (lastNotified st).
Proof. unfold enqueue. simpl. by destruct (debounceTimer st). Qed.

Lemma enqueue_notifyBuffer m g st :
  notifyBuffer (enqueue m g st) = notifyBuffer st ++ [(g, m)].
Proof. unfold enqueue. simpl. by destruct (debounceTimer st). Qed.

Lemma enqueue_clock m g st : clock (enqueue m g st) = clock st.
Proof. unfold enqueue. simpl. by destruct (debounceTimer st). Qed.

Lemma accepts_spec m st :
  accepts m st = true
  ↔ notifyCooldownMs ≤ clock st - default 0 (lastNotified st !! member_id m).
Proof. unfold accepts. rewrite negb_true_iff, Z.ltb_ge. reflexivity. Qed.

(** *** The cooldown window over a whole run *)

Lemma notifiedSince_ext key t1 st st' :
  lastNotified st' = lastNotified st → clock st' = clock st →
  notifiedSince key t1 st → notifiedSince key t1 st'.
Proof. intros Hl Hc (t & Ht & Hb). exists t. by rewrite Hl, Hc. Qed.

Lemma notifiedSince_savePersistence key t1 st :
  notifiedSince key t1 st → notifiedSince key t1 (savePersistence st).
Proof.
  apply notifiedSince_ext; unfold savePersistence; by destruct (saveScheduled st).
Qed.

Lemma notifiedSince_ensureGuild key t1 g st :
  notifiedSince key t1 st → notifiedSince key t1 (ensureGuild g st).
Proof.
  apply notifiedSince_ext; unfold ensureGuild; by destruct (knownMembers st !! g).
Qed.

Lemma notifiedSince_scheduleNotify key t1 m g st :
  notifiedSince key t1 st → notifiedSince key t1 (scheduleNotify m g st).
Proof.
  intros (t & Ht & Hb). destruct (accepts m st) eqn:E.
  - rewrite scheduleNotify_accepted by done. unfold notifiedSince.
    rewrite enqueue_lastNotified, enqueue_clock.
    destruct (decide (member_id m = key)) as [<-|Hne].
    + exists (clock st). rewrite lookup_insert_eq. split; [done|lia].
    + exists t. by rewrite lookup_insert_ne.
  - rewrite scheduleNotify_dropped by done. by exists t.
Qed.

Lemma notifiedSince_scheduleAll key t1 g members st :
  notifiedSince key t1 st → notifiedSince key t1 (scheduleAll g members st).
Proof.
  unfold scheduleAll. revert st.
  induction members as [|m members IH]; intros st H; cbn [foldl]; [done|].
  by apply IH, notifiedSince_scheduleNotify.
Qed.

Lemma notifiedSince_pollAfterFetch key t1 g roster st :
  notifiedSince key t1 st → notifiedSince key t1 (pollAfterFetch g roster st).1.
Proof.
  intros H. unfold pollAfterFetch.
  destruct (diffNewMembers (guild_id g) roster st); [done|].
  destruct (knownMembers st !! guild_id g); [|done]. cbn [fst].
  apply notifiedSince_scheduleAll, notifiedSince_savePersistence.
  by apply (notifiedSince_ext key t1 st).
Qed.

Lemma notifiedSince_guildMemberAdd key t1 v d member st :
  notifiedSince key t1 st → notifiedSince key t1 (guildMemberAdd v d member st).1.
Proof.
  intros H. unfold guildMemberAdd.
  destruct member as [member|]; [|done].
  destruct (guild member) as [g|]; [|done].
  destruct (JS.has _ _); [by apply notifiedSince_ensureGuild|].
  destruct (replayed _ _); [by apply notifiedSince_ensureGuild|].
  assert (notifiedSince key t1
    (savePersistence
       (set_knownMembers
          (<[guild_id g := JS.add (JS.Str (member_id member))
                             (known (ensureGuild (guild_id g) st) (guild_id g))]>
             (knownMembers (ensureGuild (guild_id g) st)))
          (ensureGuild (guild_id g) st)))) as Hs.
  { apply notifiedSince_savePersistence.
    apply (notifiedSince_ext key t1 (ensureGuild (guild_id g) st)); [done|done|].
    by apply notifiedSince_ensureGuild. }
  destruct v; cbn [fst]; [by apply notifiedSince_scheduleNotify|done].
Qed.

Lemma notifiedSince_step key t1 v ev st st' effs :
  step v ev st = Some (st', effs) → notifiedSince key t1 st → notifiedSince key t1 st'.
Proof.
  intros Hstep H. destruct ev; cbn [step] in Hstep.
  - destruct (0 <=? dt) eqn:Edt; [|done]. inversion Hstep; subst.
    apply Z.leb_le in Edt. destruct H as (t & Ht & Hb). exists t.
    cbn [lastNotified clock set_clock]. split; [done|lia].
  - inversion Hstep as [Heq].
    pose proof (notifiedSince_guildMemberAdd key t1 v d member st H) as Hm.
    by rewrite Heq in Hm.
  - unfold pollBeforeFetch in Hstep. inversion Hstep; subst.
    by apply notifiedSince_ensureGuild.
  - inversion Hstep as [Heq].
    pose proof (notifiedSince_pollAfterFetch key t1 g roster st H) as Hm.
    by rewrite Heq in Hm.
  - inversion Hstep; subst. by apply notifiedSince_savePersistence.
  - destruct (findTimer h st) as [t|]; [|done].
    destruct (due t <=? clock st); [|done].
    inversion Hstep as [Heq]. unfold runTimer in Heq.
    destruct (callback t).
    + inversion Heq; subst. by apply (notifiedSince_ext key t1 st).
    + unfold flushNotifyBuffer in Heq.
      destruct (notifyBuffer (clearTimeout (handle t) st));
        inversion Heq; subst; by apply (notifiedSince_ext key t1 st).
  - unfold finishWrite in Hstep. destruct (writes st); [done|].
    inversion Hstep; subst. apply (notifiedSince_ext key t1 st); by destruct ok.
Qed.

Lemma notifiedSince_run key t1 v evs st st' effs :
  run v evs st = Some (st', effs) → notifiedSince key t1 st → notifiedSince key t1 st'.
Proof.
  revert st effs. induction evs as [|ev evs IH]; intros st effs Hrun H; cbn [run] in Hrun.
  - by inversion Hrun; subst.
  - destruct (step v ev st) as [[st1 e1]|] eqn:Es; [|done].
    destruct (run v evs st1) as [[st2 e2]|] eqn:Er; [|done].
    inversion Hrun; subst. eapply IH; [done|]. by eapply notifiedSince_step.
Qed.

Lemma notifiedSince_accepted m g st :
  accepts m st = true → notifiedSince (member_id m) (clock st) (scheduleNotify m g st).
Proof.
  intros Ha. rewrite scheduleNotify_accepted by done. exists (clock st).
  rewrite enqueue_lastNotified, enqueue_clock, lookup_insert_eq. split; [done|lia].
Qed.

Lemma dropped_in_window key t1 m g st :
  notifiedSince key t1 st → member_id m = key →
  clock st - t1 < notifyCooldownMs → scheduleNotify m g st = st.
Proof.
  intros (t & Ht & Hb) Hid Hwin. apply scheduleNotify_dropped.
  unfold accepts. rewrite Hid, Ht. cbn [default from_option]; unfold id.
  apply negb_false_iff, Z.ltb_lt. lia.
Qed.

(** C2.  Two requests for one member, with anything happening in between
    (ticks, joins, saves, flushes, time passing).  A first request that the
    cooldown check refuses changes nothing.  When the first is queued and
    the second comes less than the cooldown window after it, the second is
    refused and leaves the whole state (cooldown table, queue, timers) as
    it was, so at most one of the two is queued.  The same holds for a
    second request that still falls in the window of a notification that
    was on record before the first.  A request that comes when the window
    since the last recorded notification has passed is queued and recorded
    again. *)
Theorem cooldown_two_requests v m g g' evs st st2 effs :
  run v evs (scheduleNotify m g st) = Some (st2, effs) →
  (accepts m st = false → scheduleNotify m g st = st)
  ∧ (accepts m st = true → clock st2 - clock st < notifyCooldownMs →
       scheduleNotify m g' st2 = st2)
  ∧ (∀ t0, lastNotified st !! member_id m = Some t0 → t0 ≤ clock st →
       clock st2 - t0 < notifyCooldownMs → scheduleNotify m g' st2 = st2)
  ∧ (notifyCooldownMs ≤ clock st2 - default 0 (lastNotified st2 !! member_id m) →
       notifyBuffer (scheduleNotify m g' st2) = notifyBuffer st2 ++ [(g', m)]
       ∧ lastNotified (scheduleNotify m g' st2) !! member_id m = Some (clock st2)).
Proof.
  intros Hrun. split; [apply scheduleNotify_dropped|]. split; [|split].
  - intros Ha Hwin. apply (dropped_in_window (member_id m) (clock st)); [|done|done].
    eapply notifiedSince_run; [done|]. by apply notifiedSince_accepted.
  - intros t0 Hl Ht0 Hwin. apply (dropped_in_window (member_id m) t0); [|done|done].
    eapply notifiedSince_run; [done|]. apply notifiedSince_scheduleNotify.
    exists t0. split; [done|lia].
  - intros Hge. apply accepts_spec in Hge.
    rewrite scheduleNotify_accepted by done.
    by rewrite enqueue_notifyBuffer, enqueue_lastNotified, lookup_insert_eq.
Qed.

Lemma cooldown_two_requests_witness :
  match run Batched Sample.within_window
            (scheduleNotify Sample.alice Sample.G Sample.fresh) with
  | Some (st2, effs) => scheduleNotify Sample.alice Sample.H st2 = st2
  | None => False
  end.
Proof.
  destruct (run Batched Sample.within_window
              (scheduleNotify Sample.alice Sample.G Sample.fresh))
    as [[st2 effs]|] eqn:E.
  - apply (cooldown_two_requests Batched Sample.alice Sample.G Sample.H
             Sample.within_window Sample.fresh st2 effs E).
    + reflexivity.
    + assert (clock st2 = Sample.T0 + 65000) as ->.
      { vm_compute in E. by inversion E. }
      vm_compute. reflexivity.
  - vm_compute in E. discriminate E.
Defined.

Lemma total_wait_nonneg calls :
  Forall (λ c, 0 ≤ after c) calls → 0 ≤ total_wait calls.
Proof. induction 1; cbn [total_wait foldr]; [lia|]. fold (total_wait l). lia. Qed.

Lemma arrivals_all_dropped key t0 calls st :
  lastNotified st !! key = Some t0 →
  Forall (λ c, member_id (who c) = key ∧ 0 ≤ after c) calls →
  clock st + total_wait calls - t0 < notifyCooldownMs →
  arrivals calls st = set_clock (clock st + total_wait calls) st.
Proof.
  unfold arrivals. revert st.
  induction calls as [|c calls IH]; intros st Hlast Hcalls Hwin;
    cbn [foldl total_wait foldr] in *.
  - by rewrite Z.add_0_r, set_clock_id.
  - apply Forall_cons in Hcalls as [[Hid Hc] Hcalls].
    assert (0 ≤ total_wait calls).
    { apply total_wait_nonneg. eapply Forall_impl; [done|]. by intros ? [_ ?]. }
    fold (total_wait calls) in *.
    assert (Hdrop : arrive c st = set_clock (clock st + after c) st).
    { unfold arrive. apply scheduleNotify_dropped.
      unfold accepts. cbn [clock lastNotified set_clock]. rewrite Hid, Hlast.
      cbn [default from_option]; unfold id. apply negb_false_iff, Z.ltb_lt. lia. }
    rewrite Hdrop, IH; cbn [clock lastNotified set_clock]; [|done|done|lia].
    rewrite set_clock_twice. f_equal. lia.
Qed.

(** ** One iteration of the poll loop *)

Lemma realNew_spec ts m :
  realNew ts m = true
  ↔ noTimestamp m = true ∨ ∃ t, joinedTimestamp m = Some t ∧ ts - 5000 ≤ t.
Proof.
  unfold realNew, noTimestamp. destruct (joinedTimestamp m) as [t|].
  - rewrite orb_true_iff, Z.leb_le. split.
    + intros [H|H]; [by left | right; by exists t].
    + intros [H|(t' & Heq & H)]; [by left | right; by inversion Heq; subst].
  - split; [by left | done].
Qed.

Lemma ensureGuild_lookup g st :
  knownMembers (ensureGuild g st) !! g = Some (known st g).
Proof.
  unfold ensureGuild, known. destruct (knownMembers st !! g) eqn:E; [done|].
  cbn [knownMembers set_knownMembers]. by rewrite lookup_insert_eq.
Qed.

Lemma ensureGuild_tracked g st :
  is_Some (knownMembers st !! g) → ensureGuild g st = st.
Proof. intros [s Hs]. unfold ensureGuild. by rewrite Hs. Qed.

Lemma diffNewMembers_ensureGuild g g' roster st :
  diffNewMembers g roster (ensureGuild g' st) = diffNewMembers g roster st.
Proof. unfold diffNewMembers. by rewrite known_ensureGuild. Qed.

Lemma startupTs_ensureGuild g st : startupTs (ensureGuild g st) = startupTs st.
Proof. unfold ensureGuild. by destruct (knownMembers st !! g). Qed.

Lemma pollAfterFetch_marks g roster st seen :
  knownMembers st !! guild_id g = Some seen →
  diffNewMembers (guild_id g) roster st ≠ [] →
  let newMembers := diffNewMembers (guild_id g) roster st in
  let fresh := List.filter (realNew (startupTs st)) newMembers in
  pollAfterFetch g roster st
  = (scheduleAll g fresh
       (savePersistence
          (set_knownMembers (<[guild_id g := markKnown seen newMembers]> (knownMembers st)) st)),
     map (λ m, Forward m g) fresh).
Proof.
  intros Hk Hne. unfold pollAfterFetch. rewrite Hk.
  by destruct (diffNewMembers (guild_id g) roster st).
Qed.

Lemma pollGuild_go v st :
  (pollBeforeFetch (view_guild v) st).2 = true →
  pollGuild v st
  = ((pollAfterFetch (view_guild v) (default (cached v) (fetched v))
        (ensureGuild (guild_id (view_guild v)) st)).1,
     RosterFetch (view_guild v)
       :: (pollAfterFetch (view_guild v) (default (cached v) (fetched v))
             (ensureGuild (guild_id (view_guild v)) st)).2).
Proof.
  unfold pollGuild, pollBeforeFetch. cbn [snd]. intros ->.
  by destruct (pollAfterFetch _ _ _).
Qed.

(** Run as activations, an iteration is [pollGuild]. *)
Lemma pollGuild_run variant v st :
  run variant (iteration v st) st = Some (pollGuild v st).
Proof.
  unfold iteration, pollGuild. cbn [run step].
  destruct (pollBeforeFetch (view_guild v) st) as [st1 go]. cbn [snd].
  destruct go; cbn [run step]; [|done].
  destruct (pollAfterFetch (view_guild v) (default (cached v) (fetched v)) st1)
    as [st2 effs].
  by rewrite app_nil_r.
Qed.

(** C8.  When the reported member count does not exceed the size of the
    known set, the iteration ends at once: nothing is fetched, nobody is
    forwarded, no member is marked and nothing else in the state moves.  A
    guild that already has a known set leaves the state exactly as it
    was; one that has none gets an empty set. *)
Theorem member_count_short_cut variant v st :
  default 0 (memberCount (view_guild v))
    ≤ Z.of_nat (length (known st (guild_id (view_guild v)))) →
  let st' := ensureGuild (guild_id (view_guild v)) st in
  pollGuild v st = (st', [])
  ∧ step variant (PollBegin (view_guild v)) st = Some (st', [])
  ∧ (∀ G, known st' G = known st G)
  ∧ st' = set_knownMembers (knownMembers st') st
  ∧ (is_Some (knownMembers st !! guild_id (view_guild v)) → st' = st).
Proof.
  intros Hle st'.
  assert (Hskip : pollBeforeFetch (view_guild v) st = (st', false)).
  { unfold pollBeforeFetch. rewrite known_ensureGuild.
    apply Z.leb_le in Hle. by rewrite Hle. }
  split; [|split; [|split; [|split]]].
  - unfold pollGuild. by rewrite Hskip.
  - cbn [step]. by rewrite Hskip.
  - intros G. apply known_ensureGuild.
  - subst st'. unfold ensureGuild. destruct (knownMembers st !! _); [by destruct st|done].
  - apply ensureGuild_tracked.
Qed.

Lemma member_count_short_cut_witness :
  let v := Sample.quiet_tick in
  let st' := ensureGuild (guild_id (view_guild v)) Sample.ticked in
  pollGuild v Sample.ticked = (st', [])
  ∧ step Batched (PollBegin (view_guild v)) Sample.ticked = Some (st', [])
  ∧ (∀ G, known st' G = known Sample.ticked G)
  ∧ st' = set_knownMembers (knownMembers st') Sample.ticked
  ∧ (is_Some (knownMembers Sample.ticked !! guild_id (view_guild v)) → st' = Sample.ticked).
Proof.
  apply (member_count_short_cut Batched Sample.quiet_tick Sample.ticked).
  vm_compute. discriminate.
Defined.

(** ** Live join listener *)

Lemma replayed_spec member st :
  replayed member st = true
  ↔ ∃ t r, joinedTimestamp member = Some t ∧ t ≠ 0
           ∧ readyAt st = Some r ∧ t < r - 2000.
Proof.
  unfold replayed. destruct (joinedTimestamp member) as [t|], (readyAt st) as [r|].
  - rewrite andb_true_iff, negb_true_iff, Z.eqb_neq, Z.ltb_lt. split.
    + intros [? ?]. by exists t, r.
    + intros (t' & r' & Ht & ? & Hr & ?). by inversion Ht; inversion Hr; subst.
  - split; [done|]. by intros (? & ? & _ & _ & ? & _).
  - split; [done|]. by intros (? & ? & ? & _).
  - split; [done|]. by intros (? & ? & ? & _).
Qed.

Lemma replayed_ensureGuild member g st :
  replayed member (ensureGuild g st) = replayed member st.
Proof. unfold ensureGuild. by destruct (knownMembers st !! g). Qed.

Lemma isKnown_tracked st G M :
  isKnown st G M = true → is_Some (knownMembers st !! G).
Proof.
  unfold isKnown, known. destruct (knownMembers st !! G); [eauto | discriminate].
Qed.

Lemma insert_ensureGuild g s st :
  set_knownMembers (<[g := s]> (knownMembers (ensureGuild g st))) (ensureGuild g st)
  = set_knownMembers (<[g := s]> (knownMembers st)) st.
Proof.
  unfold ensureGuild. destruct (knownMembers st !! g); [done|].
  unfold set_knownMembers. cbn [knownMembers lastNotified notifyBuffer debounceTimer
    saveScheduled readyAt clock timers nextHandle writes disk].
  by rewrite insert_insert_eq.
Qed.

(** ** Membership store: loading *)



(** ** Membership store: saving and loading again *)

Lemma fmap_fst_map {A B} (f : A → B) (l : list (string * A)) :
  (map (λ kv : string * A, (kv.1, f kv.2)) l).*1 = l.*1.
Proof. induction l as [|[k a] l IH]; simpl; [done|]. f_equal. exact IH. Qed.

Lemma assoc_list_to_map (k : string) (l : list (string * list JS.value)) :
  JS.assoc k (map (λ gs : string * list JS.value, (gs.1, JS.Array_from gs.2)) l)
  = JS.Array_from <$> (list_to_map l : gmap string (list JS.value)) !! k.
Proof.
  induction l as [|[k' s] l IH]; cbn [map JS.assoc list_to_map foldr fst snd curry].
  - by rewrite lookup_empty.
  - destruct (String.eqb k k') eqn:E.
    + apply String.eqb_eq in E as ->. by rewrite lookup_insert_eq.
    + apply String.eqb_neq in E. by rewrite lookup_insert_ne.
Qed.

Lemma get_dump k K : JS.get (dump K) k = JS.Array_from <$> K !! k.
Proof.
  unfold dump. cbn [JS.get]. by rewrite assoc_list_to_map, list_to_map_to_list.
Qed.

Lemma new_Set_get_dump k K : JS.new_Set (JS.get (dump K) k) = Some (reloaded K k).
Proof. rewrite get_dump. unfold reloaded. by destruct (K !! k). Qed.

Lemma load_keys_dump K keys st :
  ∃ st', load_keys (dump K) keys st = (true, st')
         ∧ ∀ g, knownMembers st' !! g
                = if decide (g ∈ keys) then Some (reloaded K g) else knownMembers st !! g.
Proof.
  revert st. induction keys as [|k keys IH]; intros st; cbn [load_keys].
  - exists st. split; [done|]. intros g. rewrite decide_False; [done|apply not_elem_of_nil].
  - rewrite new_Set_get_dump.
    destruct (IH (set_knownMembers (<[k := reloaded K k]> (knownMembers st)) st))
      as (st' & Hload & Hlook).
    exists st'. split; [done|]. intros g. rewrite Hlook.
    cbn [knownMembers set_knownMembers].
    destruct (decide (g ∈ keys)) as [Hin|Hnin].
    + rewrite decide_True; [done|by right].
    + destruct (decide (g = k)) as [->|Hne].
      * rewrite decide_True; [|by left]. by rewrite lookup_insert_eq.
      * rewrite decide_False; [by rewrite lookup_insert_ne|].
        intros [?|?]%elem_of_cons; done.
Qed.

Lemma load_dump now K :
  ∃ st', loadPersistence (boot now (Content (Some (dump K)))) = (true, st')
         ∧ same_known (knownMembers st') K.
Proof.
  unfold loadPersistence. cbn [disk boot JS.truthy dump JS.Object_keys].
  rewrite fmap_fst_map. fold (dump K).
  destruct (load_keys_dump K (map_to_list K).*1
              (boot now (Content (Some (dump K))))) as (st' & Hload & Hlook).
  exists st'. split; [done|]. intros g. rewrite Hlook. cbn [knownMembers boot].
  destruct (K !! g) as [s|] eqn:E.
  - rewrite decide_True.
    + unfold reloaded. rewrite E. intros x. apply elem_of_Set_from.
    + apply list_elem_of_fmap. exists (g, s). split; [done|].
      by apply elem_of_map_to_list.
  - rewrite decide_False; [by rewrite lookup_empty|].
    intros ([g' s] & Heq & Hin)%list_elem_of_fmap. cbn in Heq. subst g'.
    apply elem_of_map_to_list in Hin. congruence.
Qed.

(** ** The timer invariant *)

Ltac fields :=
  cbn [knownMembers lastNotified notifyBuffer debounceTimer saveScheduled readyAt
       clock timers nextHandle writes disk
       set_knownMembers set_lastNotified set_notifyBuffer set_debounceTimer
       set_saveScheduled set_clock set_timers set_writes set_disk set_readyAt
       setTimeout clearTimeout startWrite boot fst snd handle due callback] in *.

Lemma elem_of_filter' {A} (f : A → bool) (l : list A) x :
  x ∈ List.filter f l ↔ x ∈ l ∧ f x = true.
Proof. by rewrite !list_elem_of_In, filter_In. Qed.

Lemma filter_none {A} (f : A → bool) (l : list A) :
  (∀ x, x ∈ l → f x = false) → List.filter f l = [].
Proof.
  induction l as [|a l IH]; intros H; cbn [List.filter]; [done|].
  rewrite (H a) by left. apply IH. intros x Hx. apply H. by right.
Qed.

Lemma filter_unaffected {A} (f g : A → bool) (l : list A) :
  (∀ x, x ∈ l → g x = false → f x = false) →
  List.filter f (List.filter g l) = List.filter f l.
Proof.
  induction l as [|a l IH]; intros H; cbn [List.filter]; [done|].
  assert (IH' : List.filter f (List.filter g l) = List.filter f l).
  { apply IH. intros x Hx. apply H. by right. }
  destruct (g a) eqn:Eg; cbn [List.filter].
  - by rewrite IH'.
  - rewrite (H a) by (done || left). done.
Qed.

Lemma filter_all {A} (f : A → bool) (l : list A) :
  (∀ x, x ∈ l → f x = true) → List.filter f l = l.
Proof.
  induction l as [|a l IH]; intros H; cbn [List.filter]; [done|].
  rewrite (H a) by left. f_equal. apply IH. intros x Hx. apply H. by right.
Qed.

Lemma NoDup_handles_filter f (ts : list Timer) :
  NoDup (handle <$> ts) → NoDup (handle <$> List.filter f ts).
Proof.
  induction ts as [|a ts IH]; cbn [List.filter fmap list_fmap]; [done|].
  intros Hnd. apply NoDup_cons in Hnd as [Hnotin Hnd].
  destruct (f a); [|by apply IH]. cbn [fmap list_fmap]. apply NoDup_cons. split; [|by apply IH].
  intros Hin. apply Hnotin. apply list_elem_of_fmap in Hin as (t & -> & Ht).
  apply elem_of_filter' in Ht as [Ht _]. apply list_elem_of_fmap. by exists t.
Qed.

Lemma filter_drop_one f (ts : list Timer) t :
  NoDup (handle <$> ts) → t ∈ ts → f t = true →
  S (length (List.filter f
               (List.filter (λ t', negb (Nat.eqb (handle t') (handle t))) ts)))
  = length (List.filter f ts).
Proof.
  induction ts as [|a ts IH]; intros Hnd Hin Hf.
  - by apply elem_of_nil in Hin.
  - cbn [fmap list_fmap] in Hnd. apply NoDup_cons in Hnd as [Hnotin Hnd].
    cbn [List.filter]. destruct (Nat.eqb (handle a) (handle t)) eqn:E; cbn [negb].
    + apply Nat.eqb_eq in E.
      assert (a = t) as ->.
      { apply elem_of_cons in Hin as [->|Hin]; [done|].
        exfalso. apply Hnotin. rewrite E. apply list_elem_of_fmap. by exists t. }
      rewrite Hf. cbn [length].
      rewrite (filter_all (λ t', negb (Nat.eqb (handle t') (handle t))) ts); [done|].
      intros x Hx. apply negb_true_iff, Nat.eqb_neq. intros Heq.
      apply Hnotin. rewrite <- Heq. apply list_elem_of_fmap. by exists x.
    + apply Nat.eqb_neq in E.
      assert (t ∈ ts) as Hin'.
      { apply elem_of_cons in Hin as [->|Hin]; [done|done]. }
      cbn [List.filter]. destruct (f a); cbn [length]; rewrite <- (IH Hnd Hin' Hf); done.
Qed.

(** Only these six fields matter to the invariant. *)
Lemma Inv_ext st st' :
  timers st' = timers st → nextHandle st' = nextHandle st →
  debounceTimer st' = debounceTimer st → saveScheduled st' = saveScheduled st →
  writes st' = writes st → notifyBuffer st' = notifyBuffer st →
  Inv st → Inv st'.
Proof.
  intros Ht Hn Hd Hs Hw Hb [I1 I2 I3 I4 I5 I6 I7].
  constructor; unfold pendingWrite, pendingFlush in *;
    rewrite ?Ht, ?Hn, ?Hd, ?Hs, ?Hw, ?Hb; done.
Qed.

Lemma Inv_ensureGuild g st : Inv st → Inv (ensureGuild g st).
Proof.
  unfold ensureGuild. destruct (knownMembers st !! g); [done|]. by apply Inv_ext.
Qed.

Lemma Inv_set_knownMembers k st : Inv st → Inv (set_knownMembers k st).
Proof. by apply Inv_ext. Qed.

Lemma Inv_set_clock t st : Inv st → Inv (set_clock t st).
Proof. by apply Inv_ext. Qed.

Lemma Inv_boot now d : Inv (boot now d).
Proof.
  constructor; unfold pendingWrite, pendingFlush; fields; try done.
  - apply NoDup_nil_2.
  - by intros t ?%elem_of_nil.
  - by intros t ?%elem_of_nil.
Qed.

Lemma Inv_savePersistence st : Inv st → Inv (savePersistence st).
Proof.
  intros [I1 I2 I3 I4 I5 I6 I7]. unfold savePersistence.
  destruct (saveScheduled st) eqn:Es; [constructor; rewrite ?Es; done|].
  constructor; unfold pendingWrite, pendingFlush in *; fields.
  - rewrite fmap_app. apply NoDup_app. split; [done|]. split; [|apply NoDup_singleton].
    intros h Hh ->%list_elem_of_singleton. fields.
    apply list_elem_of_fmap in Hh as (t & Heq & Ht). apply I2 in Ht. lia.
  - intros t [Ht| ->%list_elem_of_singleton]%elem_of_app; fields; [|lia].
    apply I2 in Ht. lia.
  - intros h Hh. apply I3 in Hh. lia.
  - intros t [Ht| ->%list_elem_of_singleton]%elem_of_app; [by apply I4|].
    unfold is_flush. fields. split; [done|]. intros Hd. apply I3 in Hd. lia.
  - rewrite List.filter_app, length_app. cbn [List.filter is_write callback length]. lia.
  - intros Hb. rewrite List.filter_app, I6 by done. done.
  - intros Hb. rewrite List.filter_app. cbn [List.filter is_flush callback].
    rewrite app_nil_r. by apply I7.
Qed.

Lemma timers_enqueue m g st :
  timers (enqueue m g st)
  = match debounceTimer st with
    | Some h => List.filter (λ t, negb (Nat.eqb (handle t) h)) (timers st)
    | None => timers st
    end ++ [{| handle := nextHandle st; due := clock st + notifyDebounceMs;
               callback := FlushBuffer |}]
  ∧ nextHandle (enqueue m g st) = S (nextHandle st)
  ∧ debounceTimer (enqueue m g st) = Some (nextHandle st)
  ∧ saveScheduled (enqueue m g st) = saveScheduled st
  ∧ writes (enqueue m g st) = writes st.
Proof. unfold enqueue. fields. destruct (debounceTimer st); fields; done. Qed.

Lemma Inv_enqueue m g st : Inv st → Inv (enqueue m g st).
Proof.
  intros [I1 I2 I3 I4 I5 I6 I7].
  destruct (timers_enqueue m g st) as (Ht & Hn & Hd & Hs & Hw).
  set (kept := match debounceTimer st with
               | Some h => List.filter (λ t, negb (Nat.eqb (handle t) h)) (timers st)
               | None => timers st
               end) in *.
  assert (Hsub : ∀ t, t ∈ kept → t ∈ timers st).
  { intros t. subst kept. destruct (debounceTimer st); [|done]. by intros [? _]%elem_of_filter'. }
  assert (Hnf : ∀ t, t ∈ kept → is_flush t = false).
  { intros t Hk. destruct (is_flush t) eqn:Ef; [|done]. exfalso.
    pose proof (proj1 (I4 t (Hsub t Hk)) Ef) as Hdeb. subst kept. rewrite Hdeb in Hk.
    apply elem_of_filter' in Hk as [_ Hk]. by rewrite Nat.eqb_refl in Hk. }
  assert (Hkw : List.filter is_write kept = List.filter is_write (timers st)).
  { subst kept. destruct (debounceTimer st) as [h|] eqn:Ed; [|done].
    apply filter_unaffected. intros t Ht' Hh. apply negb_false_iff, Nat.eqb_eq in Hh.
    assert (is_flush t = true) as Hfl by (apply I4; [done|by rewrite Hh]).
    unfold is_flush, is_write in *. by destruct (callback t). }
  constructor; unfold pendingWrite, pendingFlush in *; rewrite ?Ht, ?Hn, ?Hd, ?Hs, ?Hw.
  - rewrite fmap_app. apply NoDup_app. split; [|split; [|apply NoDup_singleton]].
    + subst kept. destruct (debounceTimer st); [by apply NoDup_handles_filter|done].
    + intros h Hh ->%list_elem_of_singleton. fields.
      apply list_elem_of_fmap in Hh as (t & Heq & Ht'). apply Hsub, I2 in Ht'. lia.
  - intros t [Ht'| ->%list_elem_of_singleton]%elem_of_app; fields; [|lia].
    apply Hsub, I2 in Ht'. lia.
  - intros h [= <-]. lia.
  - intros t [Ht'| ->%list_elem_of_singleton]%elem_of_app; [|done].
    rewrite (Hnf t Ht'). split; [done|]. intros [= Heq].
    apply Hsub, I2 in Ht'. lia.
  - rewrite List.filter_app, length_app, Hkw. cbn [List.filter is_write callback length]. lia.
  - rewrite enqueue_notifyBuffer. by intros [_ ?]%app_eq_nil.
  - intros _. rewrite List.filter_app. cbn [List.filter is_flush callback].
    by intros [_ ?]%app_eq_nil.
Qed.

Lemma Inv_scheduleNotify m g st : Inv st → Inv (scheduleNotify m g st).
Proof.
  intros HI. destruct (accepts m st) eqn:E.
  - rewrite scheduleNotify_accepted by done. by apply Inv_enqueue.
  - by rewrite scheduleNotify_dropped.
Qed.

Lemma Inv_scheduleAll g members st : Inv st → Inv (scheduleAll g members st).
Proof.
  unfold scheduleAll. revert st.
  induction members as [|m members IH]; intros st HI; cbn [foldl]; [done|].
  by apply IH, Inv_scheduleNotify.
Qed.

Lemma no_flush_pending st :
  pendingFlush st = [] → ∀ t, t ∈ timers st → is_flush t = false.
Proof.
  unfold pendingFlush. intros Hp t Ht. destruct (is_flush t) eqn:E; [|done].
  assert (t ∈ List.filter is_flush (timers st)) as Hin by by apply elem_of_filter'.
  rewrite Hp in Hin. by apply elem_of_nil in Hin.
Qed.

Lemma Inv_write_timer t st :
  Inv st → t ∈ timers st → is_write t = true →
  Inv (startWrite (clearTimeout (handle t) st)).
Proof.
  intros [I1 I2 I3 I4 I5 I6 I7] Ht Hw.
  constructor; unfold pendingWrite, pendingFlush in *; fields.
  - by apply NoDup_handles_filter.
  - intros t' [Ht' _]%elem_of_filter'. by apply I2.
  - done.
  - intros t' [Ht' _]%elem_of_filter'. by apply I4.
  - rewrite length_app. cbn [length].
    pose proof (filter_drop_one is_write (timers st) t I1 Ht Hw). lia.
  - intros Hb. apply filter_none. intros t' [Ht' _]%elem_of_filter'.
    by apply (no_flush_pending st (I6 Hb)).
  - intros Hb. rewrite filter_unaffected; [by apply I7|].
    intros x Hx Hh. apply negb_false_iff, Nat.eqb_eq in Hh.
    destruct (is_flush x) eqn:E; [|done]. exfalso.
    pose proof (proj1 (I4 x Hx) E) as Hdeb. rewrite Hh in Hdeb.
    apply (I4 t Ht) in Hdeb. unfold is_flush, is_write in *. by destruct (callback t).
Qed.

Lemma Inv_flush_timer t st :
  Inv st → t ∈ timers st → is_flush t = true →
  Inv (set_notifyBuffer [] (clearTimeout (handle t) st)).
Proof.
  intros [I1 I2 I3 I4 I5 I6 I7] Ht Hf.
  pose proof (proj1 (I4 t Ht) Hf) as Hdeb.
  constructor; unfold pendingWrite, pendingFlush in *; fields.
  - by apply NoDup_handles_filter.
  - intros t' [Ht' _]%elem_of_filter'. by apply I2.
  - done.
  - intros t' [Ht' _]%elem_of_filter'. by apply I4.
  - rewrite filter_unaffected; [done|].
    intros x Hx Hh. apply negb_false_iff, Nat.eqb_eq in Hh.
    assert (is_flush x = true) as Hfl by (apply I4; [done|by rewrite Hh]).
    unfold is_flush, is_write in *. by destruct (callback x).
  - intros _. apply filter_none. intros x [Hx Hh]%elem_of_filter'.
    apply negb_true_iff, Nat.eqb_neq in Hh.
    destruct (is_flush x) eqn:E; [|done]. exfalso. apply Hh.
    pose proof (proj1 (I4 x Hx) E) as Hx'. congruence.
  - done.
Qed.

Lemma flush_fields v d st :
  let st' := (flushNotifyBuffer v d st).1 in
  timers st' = timers st ∧ nextHandle st' = nextHandle st
  ∧ debounceTimer st' = debounceTimer st ∧ saveScheduled st' = saveScheduled st
  ∧ writes st' = writes st ∧ notifyBuffer st' = [].
Proof. unfold flushNotifyBuffer. by destruct (notifyBuffer st) eqn:E. Qed.

Lemma findTimer_Some h st t :
  findTimer h st = Some t → t ∈ timers st ∧ handle t = h.
Proof.
  unfold findTimer. intros [Hin Hh]%find_some. apply Nat.eqb_eq in Hh.
  by rewrite list_elem_of_In.
Qed.

Lemma Inv_runTimer v d t st :
  Inv st → t ∈ timers st → Inv (runTimer v d t st).1.
Proof.
  intros HI Ht. unfold runTimer. destruct (callback t) eqn:Ec; cbn [fst].
  - apply Inv_write_timer; [done|done|]. unfold is_write. by rewrite Ec.
  - destruct (flush_fields v d (clearTimeout (handle t) st)) as (H1 & H2 & H3 & H4 & H5 & H6).
    eapply (Inv_ext (set_notifyBuffer [] (clearTimeout (handle t) st))); try done.
    apply Inv_flush_timer; [done|done|]. unfold is_flush. by rewrite Ec.
Qed.

Lemma Inv_finishWrite ok st st' : Inv st → finishWrite ok st = Some st' → Inv st'.
Proof.
  intros [I1 I2 I3 I4 I5 I6 I7]. unfold finishWrite.
  destruct (writes st) as [|w rest] eqn:Ew; [done|]. intros [= <-].
  cbn [length] in I5.
  assert (saveScheduled st = true ∧ pendingWrite st = [] ∧ rest = []) as (Hs & Hp & ->).
  { destruct (saveScheduled st); [|lia].
    split; [done|]. split; [apply length_zero_iff_nil | apply length_zero_iff_nil]; lia. }
  constructor; unfold pendingWrite, pendingFlush in *; destruct ok; fields; try done.
  - by rewrite Hp.
  - by rewrite Hp.
Qed.

Lemma Inv_pollAfterFetch g roster st : Inv st → Inv (pollAfterFetch g roster st).1.
Proof.
  intros HI. unfold pollAfterFetch.
  destruct (diffNewMembers (guild_id g) roster st); [done|].
  destruct (knownMembers st !! guild_id g); [|done]. cbn [fst].
  by apply Inv_scheduleAll, Inv_savePersistence, Inv_set_knownMembers.
Qed.

Lemma Inv_guildMemberAdd v d member st : Inv st → Inv (guildMemberAdd v d member st).1.
Proof.
  intros HI. unfold guildMemberAdd.
  destruct member as [member|]; [|done].
  destruct (guild member) as [g|]; [|done].
  destruct (JS.has _ _); [by apply Inv_ensureGuild|].
  destruct (replayed _ _); [by apply Inv_ensureGuild|].
  destruct v; cbn [fst].
  - by apply Inv_scheduleNotify, Inv_savePersistence, Inv_set_knownMembers, Inv_ensureGuild.
  - by apply Inv_savePersistence, Inv_set_knownMembers, Inv_ensureGuild.
Qed.

Lemma Inv_step v ev st st' effs : Inv st → step v ev st = Some (st', effs) → Inv st'.
Proof.
  intros HI Hstep. destruct ev; cbn [step] in Hstep.
  - destruct (0 <=? dt); [|done]. inversion Hstep; subst. by apply Inv_set_clock.
  - inversion Hstep as [Heq]. pose proof (Inv_guildMemberAdd v d member st HI) as Hm.
    by rewrite Heq in Hm.
  - unfold pollBeforeFetch in Hstep. inversion Hstep; subst. by apply Inv_ensureGuild.
  - inversion Hstep as [Heq]. pose proof (Inv_pollAfterFetch g roster st HI) as Hm.
    by rewrite Heq in Hm.
  - inversion Hstep; subst. by apply Inv_savePersistence.
  - destruct (findTimer h st) as [t|] eqn:Ef; [|done].
    destruct (due t <=? clock st); [|done].
    apply findTimer_Some in Ef as [Ht _].
    inversion Hstep as [Heq]. pose proof (Inv_runTimer v d t st HI Ht) as Hm.
    by rewrite Heq in Hm.
  - destruct (finishWrite ok st) as [st1|] eqn:Ew; [|done].
    inversion Hstep; subst. by eapply Inv_finishWrite.
Qed.

Lemma Inv_run v evs st st' effs : Inv st → run v evs st = Some (st', effs) → Inv st'.
Proof.
  revert st effs. induction evs as [|ev evs IH]; intros st effs HI Hrun; cbn [run] in Hrun.
  - by inversion Hrun; subst.
  - destruct (step v ev st) as [[st1 e1]|] eqn:Es; [|done].
    destruct (run v evs st1) as [[st2 e2]|] eqn:Er; [|done].
    inversion Hrun; subst. eapply IH; [|done]. by eapply Inv_step.
Qed.

Lemma Inv_run_or v evs st :
  Inv st → Inv (match run v evs st with Some (st', _) => st' | None => st end).
Proof.
  intros HI. destruct (run v evs st) as [[st' effs]|] eqn:E; [|done].
  by eapply Inv_run.
Qed.

Lemma Inv_pollGuild view st : Inv st → Inv (pollGuild view st).1.
Proof.
  intros HI. unfold pollGuild, pollBeforeFetch.
  destruct (negb _); [|by apply Inv_ensureGuild].
  pose proof (Inv_pollAfterFetch (view_guild view) (default (cached view) (fetched view))
                _ (Inv_ensureGuild (guild_id (view_guild view)) st HI)) as Hp.
  by destruct (pollAfterFetch _ _ _).
Qed.

Lemma Inv_pollWorker guilds st : Inv st → Inv (pollWorker guilds st).1.
Proof.
  unfold pollWorker. intros HI.
  assert (G : ∀ acc : State * list Effect, Inv acc.1 →
    Inv (foldl (λ acc v, let (st, effs) := pollGuild v acc.1 in (st, acc.2 ++ effs))
               acc guilds).1).
  { induction guilds as [|view guilds IH]; intros acc Hacc; cbn [foldl]; [done|].
    apply IH. pose proof (Inv_pollGuild view acc.1 Hacc) as Hp.
    by destruct (pollGuild view acc.1). }
  by apply G.
Qed.

Lemma Inv_load_keys obj keys st : Inv st → Inv (load_keys obj keys st).2.
Proof.
  revert st. induction keys as [|k keys IH]; intros st HI; cbn [load_keys]; [done|].
  destruct (JS.new_Set (JS.get obj k)); [|done]. by apply IH, Inv_set_knownMembers.
Qed.

Lemma Inv_baseline guilds st : Inv st → Inv (baseline guilds st).
Proof.
  unfold baseline. revert st.
  induction guilds as [|v guilds IH]; intros st HI; cbn [foldl]; [done|].
  by apply IH, Inv_set_knownMembers, Inv_ensureGuild.
Qed.

Lemma Inv_started now d r guilds : Inv (started now d r guilds).
Proof.
  unfold started, onReady.
  assert (HI : Inv (loadPersistence (set_readyAt (Some r) (boot now d))).2).
  { unfold loadPersistence. fields.
    assert (Inv (set_readyAt (Some r) (boot now d))) as H0
      by (apply (Inv_ext (boot now d)); [done..|apply Inv_boot]).
    destruct d as [| |[obj|]]; [done|done| |done]. by apply Inv_load_keys. }
  destruct (loadPersistence _) as [had st]. cbn [snd] in *.
  by apply Inv_savePersistence, Inv_baseline.
Qed.

(** ** Saves coalesce *)

(** C9.  Whatever happens after startup, the save timers that are pending
    and the writes that have not settled are together at most one; there
    is one exactly while [saveScheduled] is up, and then a further call of
    [savePersistence] does nothing. *)
Theorem saves_coalesce v now d r guilds evs st effs :
  run v evs (started now d r guilds) = Some (st, effs) →
  (length (pendingWrite st) + length (writes st) ≤ 1)%nat
  ∧ ((length (pendingWrite st) + length (writes st) = 1)%nat ↔ saveScheduled st = true)
  ∧ (saveScheduled st = true → savePersistence st = st).
Proof.
  intros Hrun.
  pose proof (Inv_run v evs _ _ _ (Inv_started now d r guilds) Hrun) as [_ _ _ _ I5 _ _].
  split; [|split].
  - destruct (saveScheduled st); lia.
  - destruct (saveScheduled st); [done|]. split; [lia|done].
  - intros Hs. unfold savePersistence. by rewrite Hs.
Qed.

Lemma saves_coalesce_witness :
  match run Batched Sample.busy_events
            (started Sample.T0 Missing Sample.T0 [Sample.first_tick]) with
  | Some (st, effs) =>
      (length (pendingWrite st) + length (writes st) ≤ 1)%nat
      ∧ ((length (pendingWrite st) + length (writes st) = 1)%nat ↔ saveScheduled st = true)
      ∧ (saveScheduled st = true → savePersistence st = st)
  | None => False
  end.
Proof.
  destruct (run Batched Sample.busy_events
              (started Sample.T0 Missing Sample.T0 [Sample.first_tick]))
    as [[st effs]|] eqn:E.
  - exact (saves_coalesce Batched Sample.T0 Missing Sample.T0 [Sample.first_tick]
             Sample.busy_events st effs E).
  - vm_compute in E. discriminate E.
Defined.

(** ** Save, then load *)

Lemma find_fresh_last (ts : list Timer) (t : Timer) :
  (∀ x, x ∈ ts → handle x ≠ handle t) →
  List.find (λ x, Nat.eqb (handle x) (handle t)) (ts ++ [t]) = Some t.
Proof.
  induction ts as [|a ts IH]; intros H; cbn [app List.find].
  - by rewrite Nat.eqb_refl.
  - destruct (Nat.eqb (handle a) (handle t)) eqn:E.
    + apply Nat.eqb_eq in E. exfalso. apply (H a); [by left|done].
    + apply IH. intros x Hx. apply H. by right.
Qed.

Lemma idle_no_writes st :
  Inv st → saveScheduled st = false → writes st = [] ∧ pendingWrite st = [].
Proof.
  intros [_ _ _ _ I5 _ _] Hs. rewrite Hs in I5.
  split; apply length_zero_iff_nil; lia.
Qed.

(** C5.  From a state with no save under way, a save request followed by
    the 800 ms timer and a write that succeeds leaves on disk the dump of
    [knownMembers]; a process that starts on that disk loads it, reports
    that the file existed, and holds the same guilds with the same members
    in each. *)
Theorem persistence_round_trip v d now st :
  Inv st → saveScheduled st = false →
  ∃ st', run v [SaveRequest; Elapse saveDelayMs; TimerFires (nextHandle st) d;
                WriteSettles true] st = Some (st', [])
         ∧ disk st' = Content (Some (dump (knownMembers st)))
         ∧ ∃ st'', loadPersistence (boot now (disk st')) = (true, st'')
                   ∧ same_known (knownMembers st'') (knownMembers st).
Proof.
  intros HI Hs. destruct (idle_no_writes st HI Hs) as [Hw _].
  set (t := {| handle := nextHandle st; due := clock st + saveDelayMs;
               callback := WriteDump |}).
  set (s1 := savePersistence st).
  set (s2 := set_clock (clock s1 + saveDelayMs) s1).
  set (s3 := startWrite (clearTimeout (handle t) s2)).
  set (s4 := set_saveScheduled false
               (set_disk (Content (Some (dump (knownMembers st)))) (set_writes [] s3))).
  assert (Ht1 : timers s2 = timers st ++ [t]).
  { subst s2 s1. unfold savePersistence. rewrite Hs. by fields. }
  assert (Hc2 : clock s2 = clock st + saveDelayMs).
  { subst s2 s1. unfold savePersistence. rewrite Hs. by fields. }
  assert (Hf : findTimer (nextHandle st) s2 = Some t).
  { unfold findTimer. rewrite Ht1. apply (find_fresh_last (timers st) t).
    intros x Hx. destruct HI as [_ I2 _ _ _ _ _]. apply I2 in Hx. cbn [handle t]. lia. }
  assert (Hw3 : writes s3 = [dump (knownMembers st)]).
  { subst s3 s2 s1. unfold savePersistence. rewrite Hs. fields. by rewrite Hw. }
  assert (H4 : finishWrite true s3 = Some s4).
  { unfold finishWrite. by rewrite Hw3. }
  exists s4. split; [|split].
  - cbn [run step]. fold s1. change (0 <=? saveDelayMs) with true. cbn iota. fold s2.
    rewrite Hf. replace (due t <=? clock s2) with true
      by (symmetry; apply Z.leb_le; rewrite Hc2; cbn [due t]; lia).
    unfold runTimer. cbn [callback t]. fold s3. by rewrite H4.
  - done.
  - change (disk s4) with (Content (Some (dump (knownMembers st)))). apply load_dump.
Qed.

Lemma persistence_round_trip_witness :
  ∃ st', run Batched [SaveRequest; Elapse saveDelayMs;
                      TimerFires (nextHandle Sample.settled) Sample.delivers;
                      WriteSettles true] Sample.settled = Some (st', [])
         ∧ disk st' = Content (Some (dump (knownMembers Sample.settled)))
         ∧ ∃ st'', loadPersistence (boot 0 (disk st')) = (true, st'')
                   ∧ same_known (knownMembers st'') (knownMembers Sample.settled).
Proof.
  apply (persistence_round_trip Batched Sample.delivers 0 Sample.settled).
  - apply (Inv_run_or Batched Sample.settling Sample.ticked).
    apply (Inv_pollGuild Sample.first_tick Sample.fresh).
    apply (Inv_ext (boot Sample.T0 Missing)); [reflexivity..|apply Inv_boot].
  - vm_compute. reflexivity.
Defined.

(** ** Grouping by guild *)

Lemma membersOf_cons g item buffer :
  membersOf g (item :: buffer)
  = if String.eqb (guild_id item.1) g then item.2 :: membersOf g buffer
    else membersOf g buffer.
Proof.
  unfold membersOf. cbn [List.filter]. by destruct (String.eqb (guild_id item.1) g).
Qed.

Lemma assoc_push_same g m groups :
  JS.assoc g (push g m groups) = Some (default [] (JS.assoc g groups) ++ [m]).
Proof.
  induction groups as [|[g' ms] groups IH]; cbn [push JS.assoc].
  - by rewrite String.eqb_refl.
  - destruct (String.eqb g g') eqn:E; cbn [JS.assoc]; rewrite E; [done|apply IH].
Qed.

Lemma assoc_push_other g g' m groups :
  g ≠ g' → JS.assoc g' (push g m groups) = JS.assoc g' groups.
Proof.
  intros Hne. induction groups as [|[g0 ms] groups IH]; cbn [push JS.assoc].
  - by rewrite (proj2 (String.eqb_neq g' g)).
  - destruct (String.eqb g g0) eqn:E; cbn [JS.assoc].
    + apply String.eqb_eq in E as <-. by rewrite (proj2 (String.eqb_neq g' g)).
    + by rewrite IH.
Qed.

Lemma push_keys g m groups :
  (push g m groups).*1 = if decide (g ∈ groups.*1) then groups.*1 else groups.*1 ++ [g].
Proof.
  induction groups as [|[g' ms] groups IH]; cbn [push fmap list_fmap fst].
  - rewrite decide_False; [done|apply not_elem_of_nil].
  - destruct (String.eqb g g') eqn:E.
    + apply String.eqb_eq in E as <-. rewrite decide_True; [done|by left].
    + apply String.eqb_neq in E. cbn [fmap list_fmap fst].
      change (list_fmap _ _ fst (push g m groups)) with ((push g m groups).*1).
      rewrite IH. change (list_fmap _ _ fst groups) with (groups.*1).
      destruct (decide (g ∈ groups.*1)).
      * rewrite decide_True; [done|by right].
      * rewrite decide_False; [done|]. by intros [?|?]%elem_of_cons.
Qed.

Lemma push_NoDup g m groups : NoDup groups.*1 → NoDup (push g m groups).*1.
Proof.
  intros Hnd. rewrite push_keys. destruct (decide (g ∈ groups.*1)); [done|].
  apply NoDup_app. split; [done|]. split; [|apply NoDup_singleton].
  by intros x Hx ->%list_elem_of_singleton.
Qed.

Lemma assoc_NoDup {A} g (x : A) (groups : list (string * A)) :
  NoDup groups.*1 → ((g, x) ∈ groups ↔ JS.assoc g groups = Some x).
Proof.
  induction groups as [|[g' y] groups IH]; cbn [JS.assoc fmap list_fmap fst]; intros Hnd.
  - split; [by intros ?%elem_of_nil|done].
  - apply NoDup_cons in Hnd as [Hnotin Hnd]. rewrite elem_of_cons.
    destruct (String.eqb g g') eqn:E.
    + apply String.eqb_eq in E as <-. split.
      * intros [[= ->]|Hin]; [done|]. exfalso. apply Hnotin.
        apply list_elem_of_fmap. by exists (g, x).
      * intros [= ->]. by left.
    + apply String.eqb_neq in E. rewrite <- (IH Hnd). split.
      * intros [[= ? ?]|?]; [done|done].
      * by right.
Qed.

Lemma byGuild_fold g acc buffer :
  JS.assoc g (foldl (λ groups item, push (guild_id item.1) item.2 groups) acc buffer)
  = match membersOf g buffer with
    | [] => JS.assoc g acc
    | ms => Some (default [] (JS.assoc g acc) ++ ms)
    end.
Proof.
  revert acc. induction buffer as [|item buffer IH]; intros acc; cbn [foldl]; [done|].
  rewrite IH, membersOf_cons. destruct (String.eqb (guild_id item.1) g) eqn:E.
  - apply String.eqb_eq in E as <-. rewrite assoc_push_same.
    destruct (membersOf (guild_id item.1) buffer); cbn [default from_option]; unfold id.
    + done.
    + by rewrite <- app_assoc.
  - apply String.eqb_neq in E. by rewrite assoc_push_other.
Qed.

Lemma byGuild_NoDup buffer : NoDup (byGuild buffer).*1.
Proof.
  unfold byGuild.
  assert (G : ∀ acc, NoDup acc.*1 →
    NoDup (foldl (λ groups item, push (guild_id item.1) item.2 groups) acc buffer).*1).
  { induction buffer as [|item buffer IH]; intros acc Hacc; cbn [foldl]; [done|].
    by apply IH, push_NoDup. }
  apply G. apply NoDup_nil_2.
Qed.

Lemma byGuild_groups buffer g ms :
  (g, ms) ∈ byGuild buffer ↔ ms = membersOf g buffer ∧ ms ≠ [].
Proof.
  rewrite (assoc_NoDup g ms _ (byGuild_NoDup buffer)). unfold byGuild.
  rewrite byGuild_fold. cbn [JS.assoc default from_option]. unfold id.
  destruct (membersOf g buffer) as [|m ms'].
  - split; [done|]. by intros [-> ?].
  - cbn [app]. split; [by intros [= <-]|]. by intros [-> _].
Qed.

(** ** Debounce *)

Lemma pendingFlush_enqueue m g st :
  Inv st →
  pendingFlush (enqueue m g st)
  = [{| handle := nextHandle st; due := clock st + notifyDebounceMs;
        callback := FlushBuffer |}].
Proof.
  intros [I1 I2 I3 I4 I5 I6 I7].
  destruct (timers_enqueue m g st) as (Ht & _). unfold pendingFlush. rewrite Ht.
  rewrite List.filter_app. cbn [List.filter is_flush callback].
  rewrite filter_none; [done|].
  intros t Hk. destruct (is_flush t) eqn:Ef; [|done]. exfalso.
  destruct (debounceTimer st) as [h|] eqn:Ed.
  - apply elem_of_filter' in Hk as [Hin Hk].
    pose proof (proj1 (I4 t Hin) Ef) as [= ->]. by rewrite Nat.eqb_refl in Hk.
  - by pose proof (proj1 (I4 t Hk) Ef).
Qed.

Lemma arrive_accepted c st :
  accepts (who c) (set_clock (clock st + after c) st) = true →
  arrive c st = enqueue (who c) (at_guild c) (set_clock (clock st + after c) st).
Proof. intros Ha. unfold arrive. by apply scheduleNotify_accepted. Qed.

Lemma Inv_arrive c st : Inv st → Inv (arrive c st).
Proof. intros HI. unfold arrive. by apply Inv_scheduleNotify, Inv_set_clock. Qed.

Lemma arrivals_buffer calls st :
  all_accepted calls st = true →
  notifyBuffer (arrivals calls st) = notifyBuffer st ++ queued calls.
Proof.
  unfold arrivals, queued. revert st.
  induction calls as [|c calls IH]; intros st Ha; cbn [foldl map all_accepted] in *.
  - by rewrite app_nil_r.
  - apply andb_true_iff in Ha as [Hc Ha].
    rewrite IH by done. rewrite arrive_accepted, enqueue_notifyBuffer by done.
    cbn [notifyBuffer set_clock]. by rewrite <- app_assoc.
Qed.

Lemma arrivals_flush c calls st :
  Inv st → all_accepted (c :: calls) st = true →
  let st' := arrivals (c :: calls) st in
  Inv st'
  ∧ ∃ h, pendingFlush st'
         = [{| handle := h; due := clock st' + notifyDebounceMs; callback := FlushBuffer |}]
         ∧ debounceTimer st' = Some h.
Proof.
  unfold arrivals. revert c st.
  induction calls as [|c' calls IH]; intros c st HI Ha;
    cbn [foldl all_accepted] in Ha |- *.
  - apply andb_true_iff in Ha as [Hc _]. split; [by apply Inv_arrive|].
    rewrite arrive_accepted by done. exists (nextHandle st).
    rewrite pendingFlush_enqueue by by apply Inv_set_clock.
    rewrite enqueue_clock.
    destruct (timers_enqueue (who c) (at_guild c) (set_clock (clock st + after c) st))
      as (_ & _ & Hd & _).
    by rewrite Hd.
  - apply andb_true_iff in Ha as [Hc Ha]. apply (IH c' (arrive c st)); [|done].
    by apply Inv_arrive.
Qed.

Lemma on_time_calls calls st :
  Inv st → all_accepted calls st = true →
  match calls with
  | [] => True
  | c :: rest =>
      (∀ t, t ∈ pendingFlush st → clock st + after c ≤ due t)
      ∧ Forall (λ c, after c ≤ notifyDebounceMs) rest
  end →
  on_time calls st.
Proof.
  revert st. induction calls as [|c calls IH]; intros st HI Ha Hgap;
    cbn [on_time all_accepted] in *; [done|].
  apply andb_true_iff in Ha as [Hc Ha]. destruct Hgap as [Hfirst Hrest].
  split; [done|]. apply IH; [by apply Inv_arrive|done|].
  destruct calls as [|c' calls]; [done|].
  apply Forall_cons in Hrest as [Hc' Hrest]. split; [|done].
  rewrite arrive_accepted by done. rewrite pendingFlush_enqueue by by apply Inv_set_clock.
  intros t ->%list_elem_of_singleton. rewrite enqueue_clock. cbn [due]. lia.
Qed.

Lemma find_NoDup (ts : list Timer) t :
  NoDup (handle <$> ts) → t ∈ ts →
  List.find (λ x, Nat.eqb (handle x) (handle t)) ts = Some t.
Proof.
  induction ts as [|a ts IH]; intros Hnd Hin; [by apply elem_of_nil in Hin|].
  cbn [fmap list_fmap] in Hnd. apply NoDup_cons in Hnd as [Hnotin Hnd].
  cbn [List.find]. destruct (Nat.eqb (handle a) (handle t)) eqn:E.
  - apply Nat.eqb_eq in E. apply elem_of_cons in Hin as [->|Hin]; [done|].
    exfalso. apply Hnotin. rewrite E. apply list_elem_of_fmap. by exists t.
  - apply Nat.eqb_neq in E. apply elem_of_cons in Hin as [->|Hin]; [done|].
    by apply IH.
Qed.

Lemma flush_fires v d t st :
  Inv st → pendingFlush st = [t] → notifyBuffer st ≠ [] →
  due t ≤ clock st →
  ∃ st', step v (TimerFires (handle t) d) st
         = Some (st', match v with
                      | Batched => sendBatches d (byGuild (notifyBuffer st))
                      | Instant => sendDetailed d (byGuild (notifyBuffer st))
                      end)
         ∧ notifyBuffer st' = [] ∧ pendingFlush st' = [].
Proof.
  intros HI Hp Hb Hdue.
  assert (t ∈ timers st ∧ is_flush t = true) as [Hin Hfl].
  { apply elem_of_filter'. fold (pendingFlush st). rewrite Hp. by left. }
  assert (Hf : findTimer (handle t) st = Some t).
  { unfold findTimer. apply find_NoDup; [by destruct HI|done]. }
  exists (set_notifyBuffer [] (clearTimeout (handle t) st)). split; [|split; [done|]].
  - cbn [step]. rewrite Hf. apply Z.leb_le in Hdue. rewrite Hdue.
    unfold runTimer. unfold is_flush in Hfl. destruct (callback t); [done|].
    unfold flushNotifyBuffer. fields. by destruct (notifyBuffer st).
  - by apply (inv_buffer _ (Inv_flush_timer t st HI Hin Hfl)).
Qed.

Lemma same_handle_at_most_one (l : list Timer) h :
  NoDup (handle <$> l) → (∀ t, t ∈ l → handle t = h) → (length l ≤ 1)%nat.
Proof.
  destruct l as [|a [|b l]]; cbn [length]; [lia|lia|]. intros Hnd Hh. exfalso.
  cbn [fmap list_fmap] in Hnd. apply NoDup_cons in Hnd as [Hnotin _]. apply Hnotin.
  rewrite (Hh a), <- (Hh b); [by left|by right; left|by left].
Qed.

(** In every run from startup at most one debounce timer is pending, and
    one is pending exactly while the queue holds something. *)
Lemma debounce_timer_never_stacks v now d r guilds evs st effs :
  run v evs (started now d r guilds) = Some (st, effs) →
  (length (pendingFlush st) ≤ 1)%nat
  ∧ (notifyBuffer st ≠ [] ↔ length (pendingFlush st) = 1%nat).
Proof.
  intros Hrun.
  pose proof (Inv_run v evs _ _ _ (Inv_started now d r guilds) Hrun)
    as [I1 _ _ I4 _ I6 I7].
  assert (Hle : (length (pendingFlush st) ≤ 1)%nat).
  { destruct (pendingFlush st) as [|t0 rest] eqn:Ep; [cbn [length]; lia|].
    rewrite <- Ep. apply (same_handle_at_most_one _ (handle t0)).
    - by apply NoDup_handles_filter.
    - intros t [Ht Hf]%elem_of_filter'.
      assert (t0 ∈ timers st ∧ is_flush t0 = true) as [Ht0 Hf0].
      { apply elem_of_filter'. fold (pendingFlush st). rewrite Ep. by left. }
      pose proof (proj1 (I4 t Ht) Hf) as H1. pose proof (proj1 (I4 t0 Ht0) Hf0) as H2.
      congruence. }
  split; [done|]. split.
  - intros Hb. apply I7 in Hb. destruct (pendingFlush st); [done|]. cbn [length] in *. lia.
  - intros Hl Hb. apply I6 in Hb. rewrite Hb in Hl. done.
Qed.

(** * Further properties *)

(** ** Startup *)

Lemma onReady_eq guilds st :
  onReady guilds st
  = ((loadPersistence st).1, savePersistence (baseline guilds (loadPersistence st).2)).
Proof. unfold onReady. by destruct (loadPersistence st). Qed.

Lemma baseline_cons v guilds st :
  baseline (v :: guilds) st
  = baseline guilds
      (set_knownMembers
         (<[guild_id (view_guild v) :=
              markKnown (known (ensureGuild (guild_id (view_guild v)) st)
                           (guild_id (view_guild v))) (cached v)]>
            (knownMembers (ensureGuild (guild_id (view_guild v)) st)))
         (ensureGuild (guild_id (view_guild v)) st)).
Proof. reflexivity. Qed.

Lemma baseline_known_mono guilds st G x :
  JS.has x (known st G) = true → JS.has x (known (baseline guilds st) G) = true.
Proof.
  revert st. induction guilds as [|v guilds IH]; intros st H; [done|].
  rewrite baseline_cons. apply IH.
  destruct (decide (guild_id (view_guild v) = G)) as [<-|Hne].
  - rewrite known_insert_same. apply has_markKnown_mono. by rewrite known_ensureGuild.
  - rewrite known_insert_other by done. by rewrite known_ensureGuild.
Qed.

Lemma baseline_tracked_mono guilds st G :
  is_Some (knownMembers st !! G) → is_Some (knownMembers (baseline guilds st) !! G).
Proof.
  revert st. induction guilds as [|v guilds IH]; intros st H; [done|].
  rewrite baseline_cons. apply IH. cbn [knownMembers set_knownMembers].
  destruct (decide (guild_id (view_guild v) = G)) as [<-|Hne].
  - rewrite lookup_insert_eq. eauto.
  - rewrite lookup_insert_ne by done. unfold ensureGuild.
    destruct (knownMembers st !! guild_id (view_guild v)) eqn:E; [done|].
    cbn [knownMembers set_knownMembers]. by rewrite lookup_insert_ne.
Qed.

Lemma baseline_covers guilds st v :
  v ∈ guilds →
  is_Some (knownMembers (baseline guilds st) !! guild_id (view_guild v))
  ∧ ∀ m, m ∈ cached v →
         isKnown (baseline guilds st) (guild_id (view_guild v)) (member_id m) = true.
Proof.
  revert st. induction guilds as [|a guilds IH]; intros st Hin.
  - by apply elem_of_nil in Hin.
  - rewrite baseline_cons. apply elem_of_cons in Hin as [->|Hin]; [|by apply IH].
    split.
    + apply baseline_tracked_mono. cbn [knownMembers set_knownMembers].
      rewrite lookup_insert_eq. eauto.
    + intros m Hm. apply baseline_known_mono. rewrite known_insert_same.
      by apply has_markKnown_member.
Qed.

Lemma saveScheduled_savePersistence st : saveScheduled (savePersistence st) = true.
Proof. unfold savePersistence. by destruct (saveScheduled st) eqn:E. Qed.

(** X1.  Whatever the disk holds, when the [ready] handler is done every
    guild of the cache has a known set, every member of its cached roster
    is in it, whatever the load put into the sets is still there, and a
    save is scheduled; the flag it reports is that of the load. *)
Theorem startup_baseline guilds st v :
  v ∈ guilds →
  let st' := (onReady guilds st).2 in
  is_Some (knownMembers st' !! guild_id (view_guild v))
  ∧ (∀ m, m ∈ cached v → isKnown st' (guild_id (view_guild v)) (member_id m) = true)
  ∧ (∀ G x, JS.has x (known (loadPersistence st).2 G) = true →
            JS.has x (known st' G) = true)
  ∧ saveScheduled st' = true
  ∧ (onReady guilds st).1 = (loadPersistence st).1.
Proof.
  intros Hin st'. subst st'. rewrite onReady_eq. cbn [fst snd].
  destruct (baseline_covers guilds (loadPersistence st).2 v Hin) as [Ht Hc].
  split; [|split; [|split; [|split]]].
  - by rewrite knownMembers_savePersistence.
  - intros m Hm. unfold isKnown.
    rewrite (known_eq _ _ _ (knownMembers_savePersistence _)). by apply Hc.
  - intros G x Hx. rewrite (known_eq _ _ _ (knownMembers_savePersistence _)).
    by apply baseline_known_mono.
  - apply saveScheduled_savePersistence.
  - done.
Qed.

Lemma startup_baseline_witness :
  let st' := (onReady [More.G_view; More.H_view] Sample.fresh).2 in
  is_Some (knownMembers st' !! guild_id (view_guild More.G_view))
  ∧ (∀ m, m ∈ cached More.G_view →
          isKnown st' (guild_id (view_guild More.G_view)) (member_id m) = true)
  ∧ (∀ G x, JS.has x (known (loadPersistence Sample.fresh).2 G) = true →
            JS.has x (known st' G) = true)
  ∧ saveScheduled st' = true
  ∧ (onReady [More.G_view; More.H_view] Sample.fresh).1 = (loadPersistence Sample.fresh).1.
Proof.
  apply (startup_baseline [More.G_view; More.H_view] Sample.fresh More.G_view).
  by left.
Defined.

Lemma isKnown_started now d r guilds view m0 :
  view ∈ guilds → m0 ∈ cached view →
  isKnown (started now d r guilds) (guild_id (view_guild view)) (member_id m0) = true.
Proof.
  intros Hin Hm. unfold started. rewrite onReady_eq. cbn [snd]. unfold isKnown.
  rewrite (known_eq _ _ _ (knownMembers_savePersistence _)).
  by apply (baseline_covers guilds _ view Hin).
Qed.

(** X2.  Nobody who was in a guild's cached roster at startup is ever
    handed to [scheduleNotify] for that guild, by a tick or by the live
    listener, in any run after startup. *)
Theorem cached_members_never_forwarded v now d r guilds evs st effs view m0 :
  view ∈ guilds → m0 ∈ cached view →
  run v evs (started now d r guilds) = Some (st, effs) →
  ∀ m g, Forward m g ∈ effs →
         ¬ (member_id m = member_id m0 ∧ guild_id g = guild_id (view_guild view)).
Proof.
  intros Hin Hm Hrun m g Hf.
  eapply run_forward_unknown; [done| |done]. by apply isKnown_started.
Qed.

Lemma cached_members_never_forwarded_witness :
  match run Batched (iteration Sample.first_tick
                       (started Sample.T0 Missing Sample.T0 [More.G_view]))
            (started Sample.T0 Missing Sample.T0 [More.G_view]) with
  | Some (st, effs) =>
      ∀ m g, Forward m g ∈ effs →
             ¬ (member_id m = member_id Sample.alice
                ∧ guild_id g = guild_id (view_guild More.G_view))
  | None => False
  end.
Proof.
  destruct (run Batched (iteration Sample.first_tick
                           (started Sample.T0 Missing Sample.T0 [More.G_view]))
              (started Sample.T0 Missing Sample.T0 [More.G_view]))
    as [[st effs]|] eqn:E.
  - apply (cached_members_never_forwarded Batched Sample.T0 Missing Sample.T0
             [More.G_view]
             (iteration Sample.first_tick
                (started Sample.T0 Missing Sample.T0 [More.G_view]))
             st effs More.G_view Sample.alice); [by left|by left|exact E].
  - vm_compute in E. discriminate E.
Defined.

Lemma load_keys_fields obj keys st :
  (load_keys obj keys st).2
  = set_knownMembers (knownMembers (load_keys obj keys st).2) st.
Proof.
  revert st. induction keys as [|k keys IH]; intros st; cbn [load_keys].
  - by destruct st.
  - destruct (JS.new_Set (JS.get obj k)); [|by destruct st]. by rewrite IH.
Qed.

Lemma isKnown_after_dump K G s M st :
  disk st = Content (Some (dump K)) →
  K !! G = Some s → JS.Str M ∈ s →
  (loadPersistence st).1 = true ∧ isKnown (loadPersistence st).2 G M = true.
Proof.
  intros Hd HG HM. unfold loadPersistence. rewrite Hd.
  cbn [JS.truthy dump JS.Object_keys]. rewrite fmap_fst_map. fold (dump K).
  destruct (load_keys_dump K (map_to_list K).*1 st) as (st' & Hload & Hlook).
  rewrite Hload. cbn [fst snd]. split; [done|].
  unfold isKnown, known. rewrite Hlook, decide_True.
  - cbn [default from_option]; unfold id, reloaded. rewrite HG.
    by apply has_str, elem_of_Set_from.
  - apply list_elem_of_fmap. exists (G, s). split; [done|]. by apply elem_of_map_to_list.
Qed.

(** X3.  A process that starts on a disk holding a dump knows every member
    of the dump from the start, and never hands one of them to
    [scheduleNotify] for its guild: a restart on an intact file does not
    alert again. *)
Theorem restart_does_not_realert v now r guilds K G s M evs st effs :
  K !! G = Some s → JS.Str M ∈ s →
  run v evs (started now (Content (Some (dump K))) r guilds) = Some (st, effs) →
  isKnown (started now (Content (Some (dump K))) r guilds) G M = true
  ∧ isKnown st G M = true
  ∧ ∀ m g, Forward m g ∈ effs → ¬ (member_id m = M ∧ guild_id g = G).
Proof.
  intros HG HM Hrun.
  assert (Hk : isKnown (started now (Content (Some (dump K))) r guilds) G M = true).
  { unfold started. rewrite onReady_eq. cbn [snd]. unfold isKnown.
    rewrite (known_eq _ _ _ (knownMembers_savePersistence _)).
    apply baseline_known_mono.
    by apply (isKnown_after_dump K G s M
                (set_readyAt (Some r) (boot now (Content (Some (dump K)))))). }
  split; [done|]. split.
  - by eapply run_known_mono.
  - intros m g Hf. by eapply run_forward_unknown.
Qed.

Lemma restart_does_not_realert_witness :
  match run Batched (iteration Sample.first_tick More.restarted) More.restarted with
  | Some (st, effs) =>
      isKnown More.restarted "G" "1" = true
      ∧ isKnown st "G" "1" = true
      ∧ ∀ m g, Forward m g ∈ effs → ¬ (member_id m = "1" ∧ guild_id g = "G")
  | None => False
  end.
Proof.
  destruct (run Batched (iteration Sample.first_tick More.restarted) More.restarted)
    as [[st effs]|] eqn:E.
  - apply (restart_does_not_realert Batched (Sample.T0 + 3600000) (Sample.T0 + 3600000)
             [] More.saved "G" [JS.Str "1"; JS.Str "2"] "1"
             (iteration Sample.first_tick More.restarted) st effs).
    + vm_compute. reflexivity.
    + by left.
    + exact E.
  - vm_compute in E. discriminate E.
Defined.

(** ** Whole ticks *)

Lemma diffNewMembers_nil g members st :
  (∀ m, m ∈ members → isKnown st g (member_id m) = true) →
  diffNewMembers g members st = [].
Proof.
  intros H. unfold diffNewMembers. apply filter_none. intros m Hm.
  apply H in Hm. unfold isKnown in Hm. by rewrite Hm.
Qed.

Lemma pollAfterFetch_tracked_mono g members st G :
  is_Some (knownMembers st !! G) →
  is_Some (knownMembers (pollAfterFetch g members st).1 !! G).
Proof.
  intros H. unfold pollAfterFetch.
  destruct (diffNewMembers (guild_id g) members st); [done|].
  destruct (knownMembers st !! guild_id g) eqn:E; [|done]. cbn [fst].
  rewrite knownMembers_scheduleAll, knownMembers_savePersistence.
  cbn [knownMembers set_knownMembers].
  destruct (decide (guild_id g = G)) as [<-|Hne].
  - rewrite lookup_insert_eq. eauto.
  - by rewrite lookup_insert_ne.
Qed.

Lemma pollGuild_skip v st :
  (pollBeforeFetch (view_guild v) st).2 = false →
  pollGuild v st = (ensureGuild (guild_id (view_guild v)) st, []).
Proof. unfold pollGuild, pollBeforeFetch. cbn [snd]. by intros ->. Qed.

Lemma pollGuild_known_mono v st G x :
  JS.has x (known st G) = true → JS.has x (known (pollGuild v st).1 G) = true.
Proof.
  intros H. destruct (pollBeforeFetch (view_guild v) st).2 eqn:Ego.
  - rewrite (pollGuild_go _ _ Ego). cbn [fst].
    apply pollAfterFetch_known_mono. by rewrite known_ensureGuild.
  - rewrite (pollGuild_skip _ _ Ego). cbn [fst]. by rewrite known_ensureGuild.
Qed.

Lemma pollGuild_tracked v st :
  is_Some (knownMembers (pollGuild v st).1 !! guild_id (view_guild v)).
Proof.
  assert (is_Some (knownMembers (ensureGuild (guild_id (view_guild v)) st)
                     !! guild_id (view_guild v))) as He
    by (rewrite ensureGuild_lookup; eauto).
  destruct (pollBeforeFetch (view_guild v) st).2 eqn:Ego.
  - rewrite (pollGuild_go _ _ Ego). cbn [fst]. by apply pollAfterFetch_tracked_mono.
  - by rewrite (pollGuild_skip _ _ Ego).
Qed.

Lemma pollGuild_roster_known v st m :
  (pollBeforeFetch (view_guild v) st).2 = true →
  m ∈ rosterOf v →
  isKnown (pollGuild v st).1 (guild_id (view_guild v)) (member_id m) = true.
Proof.
  intros Hgo Hin.
  destruct (isKnown st (guild_id (view_guild v)) (member_id m)) eqn:Ek.
  - by apply pollGuild_known_mono.
  - rewrite (pollGuild_go _ _ Hgo). cbn [fst].
    set (g := view_guild v) in *. set (st1 := ensureGuild (guild_id g) st).
    assert (Hnew : m ∈ diffNewMembers (guild_id g) (rosterOf v) st1).
    { subst st1. rewrite diffNewMembers_ensureGuild. by apply diffNewMembers_unknown. }
    assert (Hne : diffNewMembers (guild_id g) (rosterOf v) st1 ≠ []).
    { intros E. rewrite E in Hnew. by apply elem_of_nil in Hnew. }
    fold (rosterOf v).
    rewrite (pollAfterFetch_marks g (rosterOf v) st1 (known st (guild_id g)))
      by (done || apply ensureGuild_lookup).
    cbn [fst]. unfold isKnown. rewrite (known_eq _ _ _ (knownMembers_scheduleAll _ _ _)).
    rewrite (known_eq _ _ _ (knownMembers_savePersistence _)).
    rewrite known_insert_same. by apply has_markKnown_member.
Qed.

Lemma pollGuild_quiet v st :
  is_Some (knownMembers st !! guild_id (view_guild v)) →
  ((pollBeforeFetch (view_guild v) st).2 = true →
   ∀ m, m ∈ rosterOf v → isKnown st (guild_id (view_guild v)) (member_id m) = true) →
  pollGuild v st
  = (st, if (pollBeforeFetch (view_guild v) st).2 then [RosterFetch (view_guild v)] else []).
Proof.
  intros Ht Hall. pose proof (ensureGuild_tracked _ _ Ht) as He.
  destruct (pollBeforeFetch (view_guild v) st).2 eqn:Ego.
  - rewrite (pollGuild_go _ _ Ego), He. fold (rosterOf v).
    unfold pollAfterFetch. rewrite diffNewMembers_nil by by apply Hall. done.
  - by rewrite (pollGuild_skip _ _ Ego), He.
Qed.

(** X4.  A tick is idempotent: polling a guild again with the same roster
    and member count leaves the whole state as the first poll left it,
    forwards nobody and requests no save; at most the roster is fetched
    again, which happens as long as the reported count exceeds the number
    of known members. *)
Theorem second_poll_changes_nothing v st :
  let st1 := (pollGuild v st).1 in
  pollGuild v st1
  = (st1, if (pollBeforeFetch (view_guild v) st1).2
          then [RosterFetch (view_guild v)] else []).
Proof.
  intros st1. apply pollGuild_quiet; [apply pollGuild_tracked|].
  intros Hgo1 m Hm. subst st1.
  destruct (pollBeforeFetch (view_guild v) st).2 eqn:Ego.
  - by apply pollGuild_roster_known.
  - exfalso. rewrite (pollGuild_skip _ _ Ego) in Hgo1. cbn [fst] in Hgo1.
    unfold pollBeforeFetch in Hgo1, Ego. cbn [snd] in Hgo1, Ego.
    rewrite !known_ensureGuild in Hgo1. rewrite known_ensureGuild in Ego. congruence.
Qed.

Lemma pollWorker_acc guilds st acc :
  foldl (λ (acc : State * list Effect) v,
           let (st, effs) := pollGuild v acc.1 in (st, acc.2 ++ effs))
        (st, acc) guilds
  = ((pollWorker guilds st).1, acc ++ (pollWorker guilds st).2).
Proof.
  unfold pollWorker. revert st acc.
  induction guilds as [|v guilds IH]; intros st acc; cbn [foldl fst snd].
  - by rewrite app_nil_r.
  - destruct (pollGuild v st) as [st1 e1]. rewrite (IH st1 (acc ++ e1)), (IH st1 ([] ++ e1)).
    cbn [fst snd app]. by rewrite app_assoc.
Qed.

Lemma pollWorker_cons v guilds st :
  pollWorker (v :: guilds) st
  = ((pollWorker guilds (pollGuild v st).1).1,
     (pollGuild v st).2 ++ (pollWorker guilds (pollGuild v st).1).2).
Proof.
  unfold pollWorker at 1. cbn [foldl fst snd].
  destruct (pollGuild v st) as [st1 e1]. by rewrite pollWorker_acc.
Qed.

Lemma startupTs_savePersistence st : startupTs (savePersistence st) = startupTs st.
Proof. unfold savePersistence. by destruct (saveScheduled st). Qed.

Lemma startupTs_scheduleNotify m g st : startupTs (scheduleNotify m g st) = startupTs st.
Proof.
  destruct (accepts m st) eqn:E.
  - rewrite scheduleNotify_accepted by done. unfold startupTs, enqueue. fields.
    by destruct (debounceTimer st).
  - by rewrite scheduleNotify_dropped.
Qed.

Lemma startupTs_scheduleAll g members st : startupTs (scheduleAll g members st) = startupTs st.
Proof.
  unfold scheduleAll. revert st.
  induction members as [|m members IH]; intros st; cbn [foldl]; [done|].
  by rewrite IH, startupTs_scheduleNotify.
Qed.

Lemma startupTs_pollGuild v st : startupTs (pollGuild v st).1 = startupTs st.
Proof.
  destruct (pollBeforeFetch (view_guild v) st).2 eqn:Ego.
  - rewrite (pollGuild_go _ _ Ego). cbn [fst]. unfold pollAfterFetch.
    destruct (diffNewMembers _ _ _); [apply startupTs_ensureGuild|].
    destruct (knownMembers _ !! _); [|apply startupTs_ensureGuild]. cbn [fst].
    rewrite startupTs_scheduleAll, startupTs_savePersistence.
    apply startupTs_ensureGuild.
  - rewrite (pollGuild_skip _ _ Ego). apply startupTs_ensureGuild.
Qed.

Lemma pollGuild_forward v st m g :
  Forward m g ∈ (pollGuild v st).2 →
  g = view_guild v ∧ m ∈ rosterOf v
  ∧ isKnown st (guild_id g) (member_id m) = false
  ∧ realNew (startupTs st) m = true.
Proof.
  destruct (pollBeforeFetch (view_guild v) st).2 eqn:Ego.
  - rewrite (pollGuild_go _ _ Ego). cbn [snd]. rewrite elem_of_cons.
    intros [Hbad|H]; [discriminate|].
    apply pollAfterFetch_forward in H as (-> & Hnew & Hr).
    rewrite diffNewMembers_ensureGuild in Hnew.
    apply diffNewMembers_unknown in Hnew as [Hin Hk].
    by rewrite startupTs_ensureGuild in Hr.
  - rewrite (pollGuild_skip _ _ Ego). by intros ?%elem_of_nil.
Qed.

(** X5.  Whoever a whole tick hands to [scheduleNotify] is on the roster of
    one of the guilds of the tick, was not known for that guild when the
    tick began, and passes the recency filter. *)
Theorem tick_forwards_only_new guilds st m g :
  Forward m g ∈ (pollWorker guilds st).2 →
  ∃ v, v ∈ guilds ∧ g = view_guild v ∧ m ∈ rosterOf v
       ∧ isKnown st (guild_id g) (member_id m) = false
       ∧ realNew (startupTs st) m = true.
Proof.
  revert st. induction guilds as [|v guilds IH]; intros st.
  - by intros ?%elem_of_nil.
  - rewrite pollWorker_cons. cbn [snd]. rewrite elem_of_app. intros [H|H].
    + apply pollGuild_forward in H as (-> & Hin & Hk & Hr).
      exists v. split; [by left|done].
    + apply IH in H as (v' & Hin & -> & Hm & Hk & Hr). exists v'.
      split; [by right|]. split; [done|]. split; [done|]. split.
      * destruct (isKnown st (guild_id (view_guild v')) (member_id m)) eqn:E; [|done].
        apply (pollGuild_known_mono v) in E. unfold isKnown in Hk. congruence.
      * by rewrite startupTs_pollGuild in Hr.
Qed.

Lemma tick_forwards_only_new_witness :
  ∃ v, v ∈ [Sample.first_tick; More.H_view] ∧ Sample.H = view_guild v
       ∧ Sample.dave ∈ rosterOf v
       ∧ isKnown Sample.fresh (guild_id Sample.H) (member_id Sample.dave) = false
       ∧ realNew (startupTs Sample.fresh) Sample.dave = true.
Proof.
  apply (tick_forwards_only_new [Sample.first_tick; More.H_view] Sample.fresh).
  apply list_elem_of_In. vm_compute. do 3 right. left. reflexivity.
Defined.

Lemma length_add x s : (length s ≤ length (JS.add x s))%nat.
Proof. unfold JS.add. destruct (JS.has x s); [done|]. rewrite length_app. lia. Qed.

Lemma length_markKnown seen members :
  (length seen ≤ length (markKnown seen members))%nat.
Proof.
  unfold markKnown. revert seen.
  induction members as [|m members IH]; intros seen; cbn [foldl]; [done|].
  etrans; [apply (length_add (JS.Str (member_id m)))|apply IH].
Qed.

Lemma pollGuild_size_mono v st G :
  (length (known st G) ≤ length (known (pollGuild v st).1 G))%nat.
Proof.
  destruct (pollBeforeFetch (view_guild v) st).2 eqn:Ego.
  - rewrite (pollGuild_go _ _ Ego). cbn [fst]. unfold pollAfterFetch.
    destruct (diffNewMembers _ _ _); [cbn [fst]; by rewrite known_ensureGuild|].
    destruct (knownMembers _ !! _) as [seen|] eqn:Ek;
      [|cbn [fst]; by rewrite known_ensureGuild].
    cbn [fst]. rewrite (known_eq _ _ _ (knownMembers_scheduleAll _ _ _)).
    rewrite (known_eq _ _ _ (knownMembers_savePersistence _)).
    destruct (decide (guild_id (view_guild v) = G)) as [<-|Hne].
    + rewrite known_insert_same. rewrite ensureGuild_lookup in Ek.
      inversion Ek; subst seen. apply length_markKnown.
    + rewrite known_insert_other by done. by rewrite known_ensureGuild.
  - rewrite (pollGuild_skip _ _ Ego). cbn [fst]. by rewrite known_ensureGuild.
Qed.

Lemma pollWorker_known_mono guilds st G x :
  JS.has x (known st G) = true → JS.has x (known (pollWorker guilds st).1 G) = true.
Proof.
  revert st. induction guilds as [|v guilds IH]; intros st H; [done|].
  rewrite pollWorker_cons. cbn [fst]. by apply IH, pollGuild_known_mono.
Qed.

Lemma pollWorker_size_mono guilds st G :
  (length (known st G) ≤ length (known (pollWorker guilds st).1 G))%nat.
Proof.
  revert st. induction guilds as [|v guilds IH]; intros st; [done|].
  rewrite pollWorker_cons. cbn [fst].
  etrans; [apply (pollGuild_size_mono v)|apply IH].
Qed.

(** X6.  When a whole tick is over, every guild of the tick either has its
    entire roster in the known set, or reports no more members than its
    known set holds (the case in which the tick did not look at it). *)
Theorem tick_leaves_guilds_settled guilds st v :
  v ∈ guilds →
  let st' := (pollWorker guilds st).1 in
  (∀ m, m ∈ rosterOf v → isKnown st' (guild_id (view_guild v)) (member_id m) = true)
  ∨ default 0 (memberCount (view_guild v))
    ≤ Z.of_nat (length (known st' (guild_id (view_guild v)))).
Proof.
  revert st. induction guilds as [|a guilds IH]; intros st Hin st'.
  - by apply elem_of_nil in Hin.
  - subst st'. rewrite pollWorker_cons. cbn [fst].
    apply elem_of_cons in Hin as [->|Hin]; [|by apply IH].
    destruct (pollBeforeFetch (view_guild a) st).2 eqn:Ego.
    + left. intros m Hm. apply pollWorker_known_mono. by apply pollGuild_roster_known.
    + right. unfold pollBeforeFetch in Ego. cbn [snd] in Ego.
      apply negb_false_iff, Z.leb_le in Ego. rewrite known_ensureGuild in Ego.
      pose proof (pollGuild_size_mono a st (guild_id (view_guild a))).
      pose proof (pollWorker_size_mono guilds (pollGuild a st).1 (guild_id (view_guild a))).
      lia.
Qed.

Lemma tick_leaves_guilds_settled_witness :
  let st' := (pollWorker [Sample.first_tick; More.H_view] Sample.fresh).1 in
  (∀ m, m ∈ rosterOf More.H_view →
        isKnown st' (guild_id (view_guild More.H_view)) (member_id m) = true)
  ∨ default 0 (memberCount (view_guild More.H_view))
    ≤ Z.of_nat (length (known st' (guild_id (view_guild More.H_view)))).
Proof.
  apply (tick_leaves_guilds_settled [Sample.first_tick; More.H_view] Sample.fresh More.H_view).
  right. left.
Defined.

(** ** What a flush sends *)

Lemma elem_of_membersOf m g buffer :
  m ∈ membersOf g buffer ↔ ∃ gd, (gd, m) ∈ buffer ∧ guild_id gd = g.
Proof.
  unfold membersOf. rewrite list_elem_of_fmap. split.
  - intros ([gd m'] & -> & Hin). apply elem_of_filter' in Hin as [Hin Hg].
    apply String.eqb_eq in Hg. by exists gd.
  - intros (gd & Hin & Hg). exists (gd, m). split; [done|].
    apply elem_of_filter'. split; [done|]. by apply String.eqb_eq.
Qed.

Lemma set_notifyBuffer_nil st : notifyBuffer st = [] → set_notifyBuffer [] st = st.
Proof. destruct st. cbn. by intros ->. Qed.

Lemma flush_state v d st : (flushNotifyBuffer v d st).1 = set_notifyBuffer [] st.
Proof.
  unfold flushNotifyBuffer. destruct (notifyBuffer st) eqn:E; [|done].
  cbn [fst]. by rewrite set_notifyBuffer_nil.
Qed.

Lemma flush_effects v d st :
  (flushNotifyBuffer v d st).2
  = match v with
    | Batched => sendBatches d (byGuild (notifyBuffer st))
    | Instant => sendDetailed d (byGuild (notifyBuffer st))
    end.
Proof.
  unfold flushNotifyBuffer. destruct (notifyBuffer st) eqn:E; [|done].
  by destruct v.
Qed.

Lemma sendBatches_spec d groups g ms :
  Send (Batch g ms) ∈ sendBatches d groups
  ↔ (g, ms) ∈ groups ∧ fetchChannel d g = Channel ∧ sendOk d (Batch g ms) = true.
Proof.
  unfold sendBatches. rewrite list_elem_of_In, in_flat_map. split.
  - intros ([g' ms'] & Hin & H). cbn [fst snd] in H.
    destruct (fetchChannel d g') eqn:Ec; try done.
    destruct (sendOk d (Batch g' ms')) eqn:Es; [|done].
    destruct H as [[= <- <-]|[]]. by rewrite list_elem_of_In.
  - intros (Hin & Hc & Hs). exists (g, ms). split; [by apply list_elem_of_In|].
    cbn [fst snd]. rewrite Hc, Hs. by left.
Qed.

Lemma sendDetailed_spec d groups m :
  Send (Detailed m) ∈ sendDetailed d groups
  ↔ ∃ g ms, (g, ms) ∈ groups ∧ m ∈ ms ∧ fetchChannel d g = Channel
            ∧ sendOk d (Detailed m) = true.
Proof.
  unfold sendDetailed. rewrite list_elem_of_In, in_flat_map. split.
  - intros ([g ms] & Hin & H). cbn [fst snd] in H.
    destruct (fetchChannel d g) eqn:Ec; try done.
    apply in_flat_map in H as (m' & Hm & H).
    destruct (sendOk d (Detailed m')) eqn:Es; [|done].
    destruct H as [[= <-]|[]]. exists g, ms. by rewrite !list_elem_of_In.
  - intros (g & ms & Hin & Hm & Hc & Hs). exists (g, ms).
    split; [by apply list_elem_of_In|]. cbn [fst snd]. rewrite Hc.
    apply in_flat_map. exists m. split; [by apply list_elem_of_In|].
    rewrite Hs. by left.
Qed.

(** X7.  A flush always leaves the queue empty and touches nothing else.
    In part_000 a message goes out for a guild exactly when the guild has
    queued members, the channel is found and the send succeeds, and it
    lists all members queued for that guild; in part_001 a message goes out
    for exactly the queued members whose guild's channel is found and whose
    own send succeeds.  Whoever fails is dropped, not queued again. *)
Theorem flush_sends_what_was_queued v d st :
  (flushNotifyBuffer v d st).1 = set_notifyBuffer [] st
  ∧ match v with
    | Batched =>
        ∀ g ms, Send (Batch g ms) ∈ (flushNotifyBuffer v d st).2
                ↔ ms = membersOf g (notifyBuffer st) ∧ ms ≠ []
                  ∧ fetchChannel d g = Channel ∧ sendOk d (Batch g ms) = true
    | Instant =>
        ∀ m, Send (Detailed m) ∈ (flushNotifyBuffer v d st).2
             ↔ ∃ gd, (gd, m) ∈ notifyBuffer st
                     ∧ fetchChannel d (guild_id gd) = Channel
                     ∧ sendOk d (Detailed m) = true
    end.
Proof.
  split; [apply flush_state|]. rewrite flush_effects. destruct v.
  - intros g ms. rewrite sendBatches_spec, byGuild_groups. tauto.
  - intros m. rewrite sendDetailed_spec. split.
    + intros (g & ms & Hin & Hm & Hc & Hs). apply byGuild_groups in Hin as [-> _].
      apply elem_of_membersOf in Hm as (gd & Hin & <-). by exists gd.
    + intros (gd & Hin & Hc & Hs).
      exists (guild_id gd), (membersOf (guild_id gd) (notifyBuffer st)).
      assert (m ∈ membersOf (guild_id gd) (notifyBuffer st)) as Hm
        by (apply elem_of_membersOf; by exists gd).
      split; [|done]. apply byGuild_groups. split; [done|].
      intros E. rewrite E in Hm. by apply elem_of_nil in Hm.
Qed.

Lemma pairsOf_push g m groups :
  pairsOf (push g m groups) ≡ₚ pairsOf groups ++ [(g, m)].
Proof.
  induction groups as [|[g' ms] groups IH]; cbn [push].
  - done.
  - destruct (String.eqb g g') eqn:E.
    + apply String.eqb_eq in E as <-. unfold pairsOf. cbn [flat_map fst snd].
      rewrite map_app. cbn [map]. rewrite <- !app_assoc.
      apply Permutation_app_head, Permutation_app_comm.
    + unfold pairsOf in *. cbn [flat_map fst snd]. rewrite IH. by rewrite app_assoc.
Qed.

Lemma pairsOf_byGuild buffer :
  pairsOf (byGuild buffer) ≡ₚ map (λ item : Guild * Member, (guild_id item.1, item.2)) buffer.
Proof.
  unfold byGuild.
  assert (G : ∀ acc,
    pairsOf (foldl (λ groups item, push (guild_id item.1) item.2 groups) acc buffer)
    ≡ₚ pairsOf acc ++ map (λ item : Guild * Member, (guild_id item.1, item.2)) buffer).
  { induction buffer as [|item buffer IH]; intros acc; cbn [foldl map].
    - by rewrite app_nil_r.
    - rewrite IH, pairsOf_push, <- app_assoc. done. }
  by rewrite G.
Qed.

Lemma announced_sendBatches d groups :
  (∀ g, fetchChannel d g = Channel) → (∀ msg, sendOk d msg = true) →
  announced (sendBatches d groups) = map snd (pairsOf groups).
Proof.
  intros Hc Hs. unfold sendBatches, announced, pairsOf.
  induction groups as [|[g ms] groups IH]; cbn [flat_map fst snd]; [done|].
  rewrite Hc, Hs, flat_map_app, map_app, IH. cbn [flat_map app].
  rewrite app_nil_r. f_equal. rewrite map_map. cbn [snd]. by rewrite map_id.
Qed.

Lemma announced_sendDetailed d groups :
  (∀ g, fetchChannel d g = Channel) → (∀ msg, sendOk d msg = true) →
  announced (sendDetailed d groups) = map snd (pairsOf groups).
Proof.
  intros Hc Hs. unfold sendDetailed, announced, pairsOf.
  induction groups as [|[g ms] groups IH]; cbn [flat_map fst snd]; [done|].
  rewrite Hc, flat_map_app, map_app, IH. f_equal.
  rewrite map_map. cbn [snd]. rewrite map_id.
  clear IH. induction ms as [|m ms IHm]; cbn [flat_map]; [done|].
  rewrite Hs, flat_map_app, IHm. done.
Qed.

(** X8.  With a dispatcher that finds the channel and accepts every send,
    the members that the messages of a flush are about are the queued
    members, each as often as it was queued: grouping by guild loses
    nobody and duplicates nobody, in either script. *)
Theorem flush_announces_each_once v d st :
  (∀ g, fetchChannel d g = Channel) → (∀ msg, sendOk d msg = true) →
  announced (flushNotifyBuffer v d st).2 ≡ₚ (notifyBuffer st).*2.
Proof.
  intros Hc Hs. rewrite flush_effects.
  assert (E : announced (match v with
                         | Batched => sendBatches d (byGuild (notifyBuffer st))
                         | Instant => sendDetailed d (byGuild (notifyBuffer st))
                         end)
              = map snd (pairsOf (byGuild (notifyBuffer st)))).
  { destruct v; [by apply announced_sendBatches | by apply announced_sendDetailed]. }
  rewrite E, pairsOf_byGuild, map_map. cbn [snd].
  clear. induction (notifyBuffer st) as [|item l IH]; [done|].
  cbn [map fmap list_fmap]. by rewrite IH.
Qed.

Lemma flush_announces_each_once_witness :
  announced (flushNotifyBuffer Batched Sample.delivers
               (arrivals (Sample.burst_first :: Sample.burst_rest) Sample.fresh)).2
  ≡ₚ (notifyBuffer (arrivals (Sample.burst_first :: Sample.burst_rest) Sample.fresh)).*2.
Proof.
  apply (flush_announces_each_once Batched Sample.delivers); reflexivity.
Defined.

(** ** A join while a write is under way *)

Lemma guildMemberAdd_fresh v d member g st :
  guild member = Some g →
  isKnown st (guild_id g) (member_id member) = false →
  replayed member st = false →
  guildMemberAdd v d (Some member) st
  = match v with
    | Batched =>
        (scheduleNotify member g
           (savePersistence
              (set_knownMembers
                 (<[guild_id g := JS.add (JS.Str (member_id member)) (known st (guild_id g))]>
                    (knownMembers st)) st)),
         [Forward member g])
    | Instant =>
        (savePersistence
           (set_knownMembers
              (<[guild_id g := JS.add (JS.Str (member_id member)) (known st (guild_id g))]>
                 (knownMembers st)) st),
         sendInstant d (guild_id g) member)
    end.
Proof.
  intros Hg Hk Hr. unfold guildMemberAdd. rewrite Hg.
  rewrite known_ensureGuild, replayed_ensureGuild.
  fold (isKnown st (guild_id g) (member_id member)).
  by rewrite Hk, Hr, insert_ensureGuild.
Qed.

Lemma writes_scheduleNotify m g st : writes (scheduleNotify m g st) = writes st.
Proof.
  destruct (accepts m st) eqn:E.
  - rewrite scheduleNotify_accepted by done. apply timers_enqueue.
  - by rewrite scheduleNotify_dropped.
Qed.

Lemma isKnown_same_known a b G M :
  same_known (knownMembers a) (knownMembers b) → isKnown a G M = isKnown b G M.
Proof.
  intros H. specialize (H G). unfold isKnown, known.
  destruct (knownMembers a !! G), (knownMembers b !! G); try done.
  cbn [default from_option]. unfold id. apply eq_true_iff_eq. rewrite !has_str. apply H.
Qed.

(** X9.  A member that the listener marks while a write is under way is
    not in the file which that write leaves, and nothing is left pending
    that would put it there: the write holds the dump taken when the save
    timer ran, the listener's save request is dropped because
    [saveScheduled] is still up, and when the write settles there is no
    save timer and no write.  A process that starts on that file does not
    know the member. *)
Theorem join_during_write_not_saved v d now member g st :
  Inv st →
  writes st = [dump (knownMembers st)] →
  guild member = Some g →
  isKnown st (guild_id g) (member_id member) = false →
  replayed member st = false →
  let st1 := (guildMemberAdd v d (Some member) st).1 in
  isKnown st1 (guild_id g) (member_id member) = true
  ∧ ∃ st2, step v (WriteSettles true) st1 = Some (st2, [])
           ∧ isKnown st2 (guild_id g) (member_id member) = true
           ∧ saveScheduled st2 = false ∧ pendingWrite st2 = [] ∧ writes st2 = []
           ∧ ∃ st3, loadPersistence (boot now (disk st2)) = (true, st3)
                    ∧ isKnown st3 (guild_id g) (member_id member) = false.
Proof.
  intros HI Hw Hg Hk Hr st1.
  assert (saveScheduled st = true) as Hs.
  { pose proof (inv_save _ HI) as H5. rewrite Hw in H5. cbn [length] in H5.
    destruct (saveScheduled st); [done|lia]. }
  pose proof (Inv_guildMemberAdd v d (Some member) st HI) as HI1. fold st1 in HI1.
  set (marked := set_knownMembers
         (<[guild_id g := JS.add (JS.Str (member_id member)) (known st (guild_id g))]>
            (knownMembers st)) st).
  assert (savePersistence marked = marked) as Hsave.
  { unfold savePersistence, marked. fields. by rewrite Hs. }
  assert (knownMembers st1 = knownMembers marked ∧ writes st1 = writes st) as [Hk1 Hw1].
  { unfold st1. rewrite (guildMemberAdd_fresh _ _ _ _ _ Hg Hk Hr). fold marked.
    rewrite Hsave. destruct v; cbn [fst].
    - by rewrite knownMembers_scheduleNotify, writes_scheduleNotify.
    - done. }
  assert (isKnown st1 (guild_id g) (member_id member) = true) as Hk1'.
  { unfold isKnown. rewrite (known_eq _ _ _ Hk1). unfold marked.
    rewrite known_insert_same. apply has_add_str. }
  split; [done|].
  destruct (finishWrite true st1) as [st2|] eqn:Ef.
  2:{ unfold finishWrite in Ef. by rewrite Hw1, Hw in Ef. }
  exists st2. cbn [step]. rewrite Ef. split; [done|].
  pose proof (Inv_finishWrite _ _ _ HI1 Ef) as HI2.
  unfold finishWrite in Ef. rewrite Hw1, Hw in Ef. injection Ef as <-.
  split; [done|]. split; [done|].
  destruct (idle_no_writes _ HI2 eq_refl) as [? ?].
  split; [done|]. split; [done|]. fields.
  destruct (load_dump now (knownMembers st)) as (st3 & Hl & Hsame).
  exists st3. split; [done|]. by rewrite (isKnown_same_known _ _ _ _ Hsame).
Qed.

Lemma join_during_write_not_saved_witness :
  let st1 := (guildMemberAdd Batched Sample.delivers (Some Sample.carol) More.writing).1 in
  isKnown st1 (guild_id Sample.G) (member_id Sample.carol) = true
  ∧ ∃ st2, step Batched (WriteSettles true) st1 = Some (st2, [])
           ∧ isKnown st2 (guild_id Sample.G) (member_id Sample.carol) = true
           ∧ saveScheduled st2 = false ∧ pendingWrite st2 = [] ∧ writes st2 = []
           ∧ ∃ st3, loadPersistence (boot 0 (disk st2)) = (true, st3)
                    ∧ isKnown st3 (guild_id Sample.G) (member_id Sample.carol) = false.
Proof.
  apply (join_during_write_not_saved Batched Sample.delivers 0 Sample.carol Sample.G
           More.writing).
  - apply (Inv_run_or Batched [Elapse 800; TimerFires 0 Sample.delivers] Sample.ticked).
    apply (Inv_pollGuild Sample.first_tick Sample.fresh).
    apply (Inv_ext (boot Sample.T0 Missing)); [reflexivity..|apply Inv_boot].
  - vm_compute. reflexivity.
  - reflexivity.
  - vm_compute. reflexivity.
  - vm_compute. reflexivity.
Defined.

(** ** Shutdown *)

Lemma dueSoon_ext st st' :
  timers st' = timers st → clock st' = clock st →
  dueSoon st → dueSoon st'.
Proof. unfold dueSoon. intros -> ->. done. Qed.

Lemma dueSoon_ensureGuild g st : dueSoon st → dueSoon (ensureGuild g st).
Proof. unfold ensureGuild. by destruct (knownMembers st !! g). Qed.

Lemma dueSoon_set_knownMembers k st :
  dueSoon st → dueSoon (set_knownMembers k st).
Proof. done. Qed.

Lemma dueSoon_savePersistence st :
  dueSoon st → dueSoon (savePersistence st).
Proof.
  intros HW. unfold savePersistence. destruct (saveScheduled st); [done|].
  unfold dueSoon in *. fields. intros t [Ht| ->%list_elem_of_singleton]%elem_of_app.
  - by apply HW.
  - fields. cbn [delayOf]. lia.
Qed.

Lemma dueSoon_clearTimeout h st :
  dueSoon st → dueSoon (clearTimeout h st).
Proof.
  unfold dueSoon. fields. intros HW t [Ht _]%elem_of_filter'. by apply HW.
Qed.

Lemma dueSoon_enqueue m g st : dueSoon st → dueSoon (enqueue m g st).
Proof.
  intros HW. destruct (timers_enqueue m g st) as (Ht & _).
  unfold dueSoon. rewrite Ht, enqueue_clock.
  intros t [Hin| ->%list_elem_of_singleton]%elem_of_app; [|cbn [due callback delayOf]; lia].
  destruct (debounceTimer st); [|by apply HW].
  apply elem_of_filter' in Hin as [Hin _]. by apply HW.
Qed.

Lemma dueSoon_scheduleNotify m g st :
  dueSoon st → dueSoon (scheduleNotify m g st).
Proof.
  intros HW. destruct (accepts m st) eqn:E.
  - rewrite scheduleNotify_accepted by done. by apply dueSoon_enqueue.
  - by rewrite scheduleNotify_dropped.
Qed.

Lemma dueSoon_scheduleAll g members st :
  dueSoon st → dueSoon (scheduleAll g members st).
Proof.
  unfold scheduleAll. revert st.
  induction members as [|m members IH]; intros st HW; cbn [foldl]; [done|].
  by apply IH, dueSoon_scheduleNotify.
Qed.

Lemma dueSoon_pollAfterFetch g members st :
  dueSoon st → dueSoon (pollAfterFetch g members st).1.
Proof.
  intros HW. unfold pollAfterFetch.
  destruct (diffNewMembers (guild_id g) members st); [done|].
  destruct (knownMembers st !! guild_id g); [|done]. cbn [fst].
  by apply dueSoon_scheduleAll, dueSoon_savePersistence,
           dueSoon_set_knownMembers.
Qed.

Lemma dueSoon_guildMemberAdd v d member st :
  dueSoon st → dueSoon (guildMemberAdd v d member st).1.
Proof.
  intros HW. unfold guildMemberAdd.
  destruct member as [member|]; [|done].
  destruct (guild member) as [g|]; [|done].
  destruct (JS.has _ _); [by apply dueSoon_ensureGuild|].
  destruct (replayed _ _); [by apply dueSoon_ensureGuild|].
  destruct v; cbn [fst].
  - by apply dueSoon_scheduleNotify, dueSoon_savePersistence,
             dueSoon_set_knownMembers, dueSoon_ensureGuild.
  - by apply dueSoon_savePersistence, dueSoon_set_knownMembers,
             dueSoon_ensureGuild.
Qed.

Lemma dueSoon_step v ev st st' effs :
  dueSoon st → step v ev st = Some (st', effs) → dueSoon st'.
Proof.
  intros HW Hstep. destruct ev; cbn [step] in Hstep.
  - destruct (0 <=? dt) eqn:Edt; [|done]. apply Z.leb_le in Edt.
    inversion Hstep; subst. unfold dueSoon in *. fields.
    intros t Ht. specialize (HW t Ht). lia.
  - inversion Hstep as [Heq]. pose proof (dueSoon_guildMemberAdd v d member st HW) as Hm.
    by rewrite Heq in Hm.
  - unfold pollBeforeFetch in Hstep. inversion Hstep; subst.
    by apply dueSoon_ensureGuild.
  - inversion Hstep as [Heq]. pose proof (dueSoon_pollAfterFetch g roster st HW) as Hm.
    by rewrite Heq in Hm.
  - inversion Hstep; subst. by apply dueSoon_savePersistence.
  - destruct (findTimer h st) as [t|] eqn:Ef; [|done].
    destruct (due t <=? clock st); [|done].
    inversion Hstep as [Heq]. clear Hstep. unfold runTimer in Heq.
    pose proof (dueSoon_clearTimeout (handle t) st HW) as Hc.
    destruct (callback t).
    + inversion Heq; subst. done.
    + pose proof (flush_state v d (clearTimeout (handle t) st)) as Hf.
      rewrite Heq in Hf. cbn [fst] in Hf. by rewrite Hf.
  - unfold finishWrite in Hstep. destruct (writes st); [done|].
    inversion Hstep; subst. by destruct ok.
Qed.

Lemma dueSoon_run v evs st st' effs :
  dueSoon st → run v evs st = Some (st', effs) → dueSoon st'.
Proof.
  revert st effs. induction evs as [|ev evs IH]; intros st effs HW Hrun; cbn [run] in Hrun.
  - by inversion Hrun; subst.
  - destruct (step v ev st) as [[st1 e1]|] eqn:Es; [|done].
    destruct (run v evs st1) as [[st2 e2]|] eqn:Er; [|done].
    inversion Hrun; subst. eapply IH; [|done]. by eapply dueSoon_step.
Qed.

Lemma dueSoon_load_keys obj keys st :
  dueSoon st → dueSoon (load_keys obj keys st).2.
Proof.
  revert st. induction keys as [|k keys IH]; intros st HW; cbn [load_keys]; [done|].
  destruct (JS.new_Set (JS.get obj k)); [|done].
  by apply IH, dueSoon_set_knownMembers.
Qed.

Lemma dueSoon_baseline guilds st :
  dueSoon st → dueSoon (baseline guilds st).
Proof.
  unfold baseline. revert st.
  induction guilds as [|v guilds IH]; intros st HW; cbn [foldl]; [done|].
  by apply IH, dueSoon_set_knownMembers, dueSoon_ensureGuild.
Qed.

Lemma dueSoon_started now d r guilds : dueSoon (started now d r guilds).
Proof.
  unfold started. rewrite onReady_eq. cbn [snd].
  apply dueSoon_savePersistence, dueSoon_baseline.
  assert (dueSoon (set_readyAt (Some r) (boot now d))) as H0.
  { intros t Ht. fields. by apply elem_of_nil in Ht. }
  unfold loadPersistence. fields.
  destruct d as [| |[obj|]]; [done|done| |done]. by apply dueSoon_load_keys.
Qed.

(** X10.  At shutdown, whatever happened since startup: after the save
    request of [gracefulSaveAndExit] the flag is up, and a save timer or a
    write is outstanding; every save timer that is pending then, also one
    set earlier, is due at least 200 ms before the process may exit, so
    the one-second wait always covers the 800 ms save delay.  When a save
    was already scheduled, the request itself changes nothing. *)
Theorem shutdown_wait_covers_save_timer v now d r guilds evs st effs :
  run v evs (started now d r guilds) = Some (st, effs) →
  let st1 := (gracefulSaveAndExit st).1 in
  let exitAt := (gracefulSaveAndExit st).2 in
  saveScheduled st1 = true
  ∧ (length (pendingWrite st1) + length (writes st1) = 1)%nat
  ∧ (∀ t, t ∈ pendingWrite st1 → due t + (graceMs - saveDelayMs) ≤ exitAt)
  ∧ (saveScheduled st = true → st1 = st)
  ∧ knownMembers st1 = knownMembers st.
Proof.
  intros Hrun st1 exitAt. unfold gracefulSaveAndExit in st1, exitAt. cbn [fst snd] in *.
  pose proof (Inv_run _ _ _ _ _ (Inv_started now d r guilds) Hrun) as HI.
  pose proof (dueSoon_run _ _ _ _ _ (dueSoon_started now d r guilds) Hrun) as HW.
  pose proof (Inv_savePersistence _ HI) as HI1. fold st1 in HI1.
  pose proof (dueSoon_savePersistence _ HW) as HW1. fold st1 in HW1.
  assert (saveScheduled st1 = true) as Hs by apply saveScheduled_savePersistence.
  split; [done|]. split.
  { pose proof (inv_save _ HI1) as H5. by rewrite Hs in H5. }
  split.
  { intros t [Ht Hw]%elem_of_filter'. specialize (HW1 t Ht).
    unfold is_write in Hw. destruct (callback t); [|done]. cbn [delayOf] in HW1.
    assert (clock st1 = clock st) as Hc.
    { unfold st1, savePersistence. by destruct (saveScheduled st). }
    unfold exitAt, graceMs, saveDelayMs in *. lia. }
  split.
  - intros E. unfold st1, savePersistence. by rewrite E.
  - apply knownMembers_savePersistence.
Qed.

Lemma shutdown_wait_covers_save_timer_witness :
  match run Batched Sample.busy_events
            (started Sample.T0 Missing Sample.T0 [Sample.first_tick]) with
  | Some (st, effs) =>
      let st1 := (gracefulSaveAndExit st).1 in
      let exitAt := (gracefulSaveAndExit st).2 in
      saveScheduled st1 = true
      ∧ (length (pendingWrite st1) + length (writes st1) = 1)%nat
      ∧ (∀ t, t ∈ pendingWrite st1 → due t + (graceMs - saveDelayMs) ≤ exitAt)
      ∧ (saveScheduled st = true → st1 = st)
      ∧ knownMembers st1 = knownMembers st
  | None => False
  end.
Proof.
  destruct (run Batched Sample.busy_events
              (started Sample.T0 Missing Sample.T0 [Sample.first_tick]))
    as [[st effs]|] eqn:E.
  - apply (shutdown_wait_covers_save_timer Batched Sample.T0 Missing Sample.T0
             [Sample.first_tick] Sample.busy_events st effs E).
  - vm_compute in E. discriminate E.
Defined.

(** ** The listener of part_001 *)

Lemma pendingFlush_savePersistence st : pendingFlush (savePersistence st) = pendingFlush st.
Proof.
  unfold savePersistence, pendingFlush. destruct (saveScheduled st); [done|]. fields.
  rewrite List.filter_app. cbn [List.filter is_flush callback]. apply app_nil_r.
Qed.

Lemma accepts_ext m st st' :
  lastNotified st' = lastNotified st → clock st' = clock st →
  accepts m st' = accepts m st.
Proof. unfold accepts. by intros -> ->. Qed.

(** X11.  The listener of part_001 never goes through the scheduler: it
    leaves [lastNotified], the queue and the debounce timer as they are,
    so no later request is refused or delayed on its account, and it
    hands nothing to [scheduleNotify].  It sends a message exactly for a
    member with a guild that was unknown and is not a replay, when the
    channel is found and the send succeeds; whether the member is still
    in its cooldown window plays no part. *)
Theorem instant_join_skips_scheduler d member st :
  let r := guildMemberAdd Instant d member st in
  lastNotified r.1 = lastNotified st
  ∧ notifyBuffer r.1 = notifyBuffer st
  ∧ debounceTimer r.1 = debounceTimer st
  ∧ pendingFlush r.1 = pendingFlush st
  ∧ (∀ m, accepts m r.1 = accepts m st)
  ∧ (∀ m g, Forward m g ∉ r.2)
  ∧ (∀ msg, Send msg ∈ r.2
            ↔ ∃ m g, member = Some m ∧ guild m = Some g ∧ msg = Detailed m
                     ∧ isKnown st (guild_id g) (member_id m) = false
                     ∧ replayed m st = false
                     ∧ fetchChannel d (guild_id g) = Channel
                     ∧ sendOk d (Detailed m) = true).
Proof.
  intros r.
  assert (F : lastNotified r.1 = lastNotified st ∧ notifyBuffer r.1 = notifyBuffer st
              ∧ debounceTimer r.1 = debounceTimer st ∧ clock r.1 = clock st
              ∧ pendingFlush r.1 = pendingFlush st).
  { unfold r, guildMemberAdd.
    destruct member as [m|]; [|done].
    destruct (guild m) as [g|]; [|done].
    assert (E : ∀ k, lastNotified (set_knownMembers k (ensureGuild (guild_id g) st))
                     = lastNotified st
                     ∧ notifyBuffer (set_knownMembers k (ensureGuild (guild_id g) st))
                       = notifyBuffer st
                     ∧ debounceTimer (set_knownMembers k (ensureGuild (guild_id g) st))
                       = debounceTimer st
                     ∧ clock (set_knownMembers k (ensureGuild (guild_id g) st)) = clock st
                     ∧ pendingFlush (set_knownMembers k (ensureGuild (guild_id g) st))
                       = pendingFlush st).
    { intros k. unfold ensureGuild. by destruct (knownMembers st !! guild_id g). }
    assert (E0 : lastNotified (ensureGuild (guild_id g) st) = lastNotified st
                 ∧ notifyBuffer (ensureGuild (guild_id g) st) = notifyBuffer st
                 ∧ debounceTimer (ensureGuild (guild_id g) st) = debounceTimer st
                 ∧ clock (ensureGuild (guild_id g) st) = clock st
                 ∧ pendingFlush (ensureGuild (guild_id g) st) = pendingFlush st).
    { unfold ensureGuild. by destruct (knownMembers st !! guild_id g). }
    destruct (JS.has _ _); [done|]. destruct (replayed _ _); [done|]. cbn [fst].
    rewrite pendingFlush_savePersistence.
    destruct (E (<[guild_id g := JS.add (JS.Str (member_id m))
                                   (known (ensureGuild (guild_id g) st) (guild_id g))]>
                   (knownMembers (ensureGuild (guild_id g) st))))
      as (E1 & E2 & E3 & E4 & E5).
    unfold savePersistence.
    destruct (saveScheduled _); fields; by rewrite ?E1, ?E2, ?E3, ?E4, ?E5. }
  destruct F as (F1 & F2 & F3 & F4 & F5).
  split; [done|]. split; [done|]. split; [done|]. split; [done|].
  split; [intros m; by apply accepts_ext|].
  unfold r, guildMemberAdd.
  destruct member as [m|].
  2:{ cbn [snd]. split; [intros ? ? ?%elem_of_nil; done|].
      intros msg. split; [by intros ?%elem_of_nil | by intros (? & ? & ? & _)]. }
  destruct (guild m) as [g|] eqn:Eg.
  2:{ cbn [snd]. split; [intros ? ? ?%elem_of_nil; done|].
      intros msg. split; [by intros ?%elem_of_nil|].
      intros (m' & g' & [= <-] & Hg & _). by rewrite Eg in Hg. }
  rewrite known_ensureGuild, replayed_ensureGuild.
  fold (isKnown st (guild_id g) (member_id m)).
  destruct (isKnown st (guild_id g) (member_id m)) eqn:Ek.
  { cbn [snd]. split; [intros ? ? ?%elem_of_nil; done|].
    intros msg. split; [by intros ?%elem_of_nil|].
    intros (m' & g' & [= <-] & Hg & _ & Hk & _).
    rewrite Eg in Hg. injection Hg as <-. by rewrite Ek in Hk. }
  destruct (replayed m st) eqn:Er.
  { cbn [snd]. split; [intros ? ? ?%elem_of_nil; done|].
    intros msg. split; [by intros ?%elem_of_nil|].
    intros (m' & g' & [= <-] & _ & _ & _ & Hr & _). by rewrite Er in Hr. }
  cbn [snd]. unfold sendInstant. split.
  - intros m' g' Hin. destruct (fetchChannel d (guild_id g)); try by apply elem_of_nil in Hin.
    destruct (sendOk d (Detailed m)); [|by apply elem_of_nil in Hin].
    by apply list_elem_of_singleton in Hin.
  - intros msg. split.
    + intros Hin. destruct (fetchChannel d (guild_id g)) eqn:Ec;
        try by apply elem_of_nil in Hin.
      destruct (sendOk d (Detailed m)) eqn:Es; [|by apply elem_of_nil in Hin].
      apply list_elem_of_singleton in Hin. injection Hin as ->. by exists m, g.
    + intros (m' & g' & [= <-] & Hg & -> & _ & _ & Hc & Hs).
      rewrite Eg in Hg. injection Hg as <-. rewrite Hc, Hs. by apply list_elem_of_singleton.
Qed.

(** ** Loading replaces *)

Lemma load_keys_lookup obj keys st :
  (load_keys obj keys st).1 = true →
  ∀ g, knownMembers (load_keys obj keys st).2 !! g
       = if decide (g ∈ keys) then JS.new_Set (JS.get obj g) else knownMembers st !! g.
Proof.
  revert st. induction keys as [|k keys IH]; intros st Hok g; cbn [load_keys] in *.
  - rewrite decide_False; [done|apply not_elem_of_nil].
  - destruct (JS.new_Set (JS.get obj k)) as [s|] eqn:E; [|done].
    rewrite (IH _ Hok g). fields.
    destruct (decide (g ∈ keys)) as [Hin|Hin].
    + rewrite decide_True; [done|by right].
    + destruct (decide (g = k)) as [->|Hne].
      * rewrite lookup_insert_eq, decide_True; [done|by left].
      * rewrite lookup_insert_ne by done. rewrite decide_False; [done|].
        by intros [?|?]%elem_of_cons.
Qed.

(** X12.  A load that succeeds replaces: a guild named in the file gets
    the set made from the file's record, whatever set the process held
    for it before (nothing is merged), and a guild the file does not name
    keeps what it had.  Nothing but [knownMembers] changes. *)
Theorem load_replaces_listed_guilds st obj :
  disk st = Content (Some obj) →
  (loadPersistence st).1 = true →
  let obj' := if JS.truthy obj then obj else JS.Obj [] in
  let st' := (loadPersistence st).2 in
  (∀ g, knownMembers st' !! g
        = if decide (g ∈ JS.Object_keys obj') then JS.new_Set (JS.get obj' g)
          else knownMembers st !! g)
  ∧ st' = set_knownMembers (knownMembers st') st.
Proof.
  intros Hd Hok obj' st'. unfold st' in *. unfold loadPersistence in *.
  rewrite Hd in *. fold obj' in Hok |- *. split.
  - by apply load_keys_lookup.
  - apply load_keys_fields.
Qed.

Lemma load_replaces_listed_guilds_witness :
  let st := set_knownMembers (<["g" := [JS.Str "9"]]> (<["z" := [JS.Str "7"]]> ∅))
              (boot 0 (Content (Some Sample.hand_written))) in
  knownMembers (loadPersistence st).2 !! "g" = Some [JS.Str "1"; JS.Str "2"]
  ∧ knownMembers (loadPersistence st).2 !! "z" = Some [JS.Str "7"].
Proof.
  intros st.
  destruct (load_replaces_listed_guilds st Sample.hand_written) as [H _];
    [reflexivity | vm_compute; reflexivity |].
  split.
  - rewrite (H "g"). vm_compute. reflexivity.
  - rewrite (H "z"). vm_compute. reflexivity.
Defined.

(** ** The earlier script: one guild of one tick *)

Lemma has_add_str_iff x y s :
  JS.has (JS.Str x) (JS.add (JS.Str y) s) = true ↔ JS.has (JS.Str x) s = true ∨ x = y.
Proof.
  rewrite !has_str, elem_of_add. split; intros [H|H]; auto.
  - right. by injection H.
  - right. by rewrite H.
Qed.

Lemma has_add_other x y s :
  x ≠ y → JS.has (JS.Str x) s = false → JS.has (JS.Str x) (JS.add (JS.Str y) s) = false.
Proof.
  intros Hne Hs. destruct (JS.has (JS.Str x) (JS.add (JS.Str y) s)) eqn:E; [|done].
  apply has_add_str_iff in E as [E|E]; [by rewrite E in Hs | done].
Qed.

Lemma legacy_pollMembers_cons answer m rest seen :
  Legacy.pollMembers answer (m :: rest) seen
  = if JS.has (JS.Str (member_id m)) seen then Legacy.pollMembers answer rest seen
    else match answer m with
         | Legacy.FetchThrows | Legacy.SendThrows =>
             (JS.add (JS.Str (member_id m)) seen, [])
         | Legacy.NoChannel =>
             Legacy.pollMembers answer rest (JS.add (JS.Str (member_id m)) seen)
         | Legacy.Delivered =>
             ((Legacy.pollMembers answer rest (JS.add (JS.Str (member_id m)) seen)).1,
              Send (Detailed m)
                :: (Legacy.pollMembers answer rest (JS.add (JS.Str (member_id m)) seen)).2)
         end.
Proof.
  cbn [Legacy.pollMembers]. destruct (JS.has _ _); [done|].
  destruct (answer m); try done. by destruct (Legacy.pollMembers _ _ _).
Qed.

Lemma legacy_pollMembers_mono answer ms seen x :
  JS.has x seen = true → JS.has x (Legacy.pollMembers answer ms seen).1 = true.
Proof.
  revert seen. induction ms as [|m ms IH]; intros seen H; [done|].
  rewrite legacy_pollMembers_cons.
  destruct (JS.has (JS.Str (member_id m)) seen); [by apply IH|].
  pose proof (has_add_mono x (JS.Str (member_id m)) seen H) as H'.
  destruct (answer m); cbn [fst]; auto.
Qed.

Lemma legacy_pollMembers_sound answer ms seen e :
  e ∈ (Legacy.pollMembers answer ms seen).2 →
  ∃ m, e = Send (Detailed m) ∧ m ∈ ms
       ∧ JS.has (JS.Str (member_id m)) seen = false
       ∧ JS.has (JS.Str (member_id m)) (Legacy.pollMembers answer ms seen).1 = true
       ∧ answer m = Legacy.Delivered.
Proof.
  revert seen. induction ms as [|a ms IH]; intros seen Hin.
  - by apply elem_of_nil in Hin.
  - rewrite legacy_pollMembers_cons in Hin |- *.
    destruct (JS.has (JS.Str (member_id a)) seen) eqn:Eh.
    + destruct (IH _ Hin) as (m & -> & Hm & Hh & Hk & Ha). exists m.
      split; [done|]. split; [by right|]. done.
    + assert (Hrest : e ∈ (Legacy.pollMembers answer ms
                              (JS.add (JS.Str (member_id a)) seen)).2 →
        ∃ m, e = Send (Detailed m) ∧ m ∈ a :: ms
             ∧ JS.has (JS.Str (member_id m)) seen = false
             ∧ JS.has (JS.Str (member_id m))
                 (Legacy.pollMembers answer ms (JS.add (JS.Str (member_id a)) seen)).1 = true
             ∧ answer m = Legacy.Delivered).
      { intros Hin'. destruct (IH _ Hin') as (m & -> & Hm & Hh & Hk & Ha). exists m.
        split; [done|]. split; [by right|]. split; [|done].
        destruct (JS.has (JS.Str (member_id m)) seen) eqn:E; [|done].
        by rewrite (has_add_mono _ _ _ E) in Hh. }
      destruct (answer a) eqn:Ea; cbn [fst snd] in *.
      * by apply elem_of_nil in Hin.
      * by apply Hrest.
      * by apply elem_of_nil in Hin.
      * apply elem_of_cons in Hin as [->|Hin]; [|by apply Hrest].
        exists a. split; [done|]. split; [by left|]. split; [done|]. split; [|done].
        apply legacy_pollMembers_mono, has_add_str.
Qed.

Lemma elem_of_announced m effs :
  m ∈ announced effs
  ↔ Send (Detailed m) ∈ effs ∨ ∃ g ms, Send (Batch g ms) ∈ effs ∧ m ∈ ms.
Proof.
  unfold announced. rewrite list_elem_of_In, in_flat_map. split.
  - intros (e & He & Hm). apply list_elem_of_In in He.
    destruct e as [| |[g ms|m']]; try done.
    + right. exists g, ms. split; [done | by apply list_elem_of_In].
    + destruct Hm as [->|[]]. by left.
  - intros [H|(g & ms & H & Hm)].
    + exists (Send (Detailed m)). split; [by apply list_elem_of_In | by left].
    + exists (Send (Batch g ms)). split; by apply list_elem_of_In.
Qed.

Lemma legacy_pollMembers_NoDup answer ms seen :
  NoDup (member_id <$> announced (Legacy.pollMembers answer ms seen).2).
Proof.
  revert seen. induction ms as [|a ms IH]; intros seen.
  - apply NoDup_nil_2.
  - rewrite legacy_pollMembers_cons.
    destruct (JS.has (JS.Str (member_id a)) seen); [apply IH|].
    destruct (answer a); cbn [snd]; try apply IH; try apply NoDup_nil_2.
    change (announced (Send (Detailed a) :: ?l)) with (a :: announced l).
    rewrite fmap_cons. apply NoDup_cons. split; [|apply IH].
    intros (m & Hid & Hm)%list_elem_of_fmap.
    apply elem_of_announced in Hm as [Hm|(g & ms' & Hm & _)].
    + apply legacy_pollMembers_sound in Hm as (m' & [= <-] & _ & Hh & _).
      rewrite <- Hid in Hh. by rewrite has_add_str in Hh.
    + by apply legacy_pollMembers_sound in Hm as (m' & [=] & _).
Qed.

Lemma legacy_has_insert k G s M : Legacy.has (<[G := s]> k) G M = JS.has (JS.Str M) s.
Proof. unfold Legacy.has. by rewrite lookup_insert_eq. Qed.

Lemma legacy_has_insert_ne k G G' s M :
  G ≠ G' → Legacy.has (<[G := s]> k) G' M = Legacy.has k G' M.
Proof. intros ?. unfold Legacy.has. by rewrite lookup_insert_ne. Qed.

Lemma legacy_pollGuild_mono answer v k G M :
  Legacy.has k G M = true → Legacy.has (Legacy.pollGuild answer v k).1 G M = true.
Proof.
  intros H. unfold Legacy.pollGuild.
  destruct (default (cached v) (fetched v)) as [|m0 ms]; [done|].
  destruct (k !! guild_id (view_guild v)) as [seen|] eqn:Ek; [|done].
  pose proof (legacy_pollMembers_mono answer (m0 :: ms) seen (JS.Str M)) as Hm.
  destruct (Legacy.pollMembers answer (m0 :: ms) seen) as [seen' effs]. cbn [fst] in *.
  destruct (decide (guild_id (view_guild v) = G)) as [<-|Hne].
  - rewrite legacy_has_insert. apply Hm. unfold Legacy.has in H. by rewrite Ek in H.
  - by rewrite legacy_has_insert_ne.
Qed.

Lemma legacy_pollGuild_tracked answer v k G :
  is_Some ((Legacy.pollGuild answer v k).1 !! G) ↔ is_Some (k !! G).
Proof.
  unfold Legacy.pollGuild.
  destruct (default (cached v) (fetched v)) as [|m0 ms]; [done|].
  destruct (k !! guild_id (view_guild v)) as [seen|] eqn:Ek; [|done].
  destruct (Legacy.pollMembers answer (m0 :: ms) seen) as [seen' effs]. cbn [fst].
  destruct (decide (guild_id (view_guild v) = G)) as [<-|Hne].
  - rewrite lookup_insert_eq, Ek. split; eauto.
  - by rewrite lookup_insert_ne.
Qed.

Lemma legacy_pollGuild_sound answer v k e :
  e ∈ (Legacy.pollGuild answer v k).2 →
  ∃ m, e = Send (Detailed m) ∧ m ∈ rosterOf v
       ∧ is_Some (k !! guild_id (view_guild v))
       ∧ Legacy.has k (guild_id (view_guild v)) (member_id m) = false
       ∧ Legacy.has (Legacy.pollGuild answer v k).1 (guild_id (view_guild v)) (member_id m)
         = true
       ∧ answer m = Legacy.Delivered.
Proof.
  unfold Legacy.pollGuild, rosterOf.
  destruct (default (cached v) (fetched v)) as [|m0 ms]; [by intros ?%elem_of_nil|].
  destruct (k !! guild_id (view_guild v)) as [seen|] eqn:Ek; [|by intros ?%elem_of_nil].
  pose proof (legacy_pollMembers_sound answer (m0 :: ms) seen e) as Hs.
  destruct (Legacy.pollMembers answer (m0 :: ms) seen) as [seen' effs]. cbn [fst snd] in *.
  intros Hin. destruct (Hs Hin) as (m & -> & Hm & Hh & Hk & Ha). exists m.
  split; [done|]. split; [done|]. split; [eauto|].
  rewrite legacy_has_insert. unfold Legacy.has. rewrite Ek. done.
Qed.

(** X13.  One guild of one tick of src/index.js.  Everything it emits is a
    message about a member of the roster that the guild's set did not
    hold before and holds afterwards, and whose message went through; no
    identifier is announced twice; a guild without a set stays without
    one, and a member that was known stays known. *)
Theorem legacy_guild_announcements answer v k :
  let r := Legacy.pollGuild answer v k in
  (∀ e, e ∈ r.2 →
        ∃ m, e = Send (Detailed m) ∧ m ∈ rosterOf v
             ∧ is_Some (k !! guild_id (view_guild v))
             ∧ Legacy.has k (guild_id (view_guild v)) (member_id m) = false
             ∧ Legacy.has r.1 (guild_id (view_guild v)) (member_id m) = true
             ∧ answer m = Legacy.Delivered)
  ∧ NoDup (member_id <$> announced r.2)
  ∧ (∀ G M, Legacy.has k G M = true → Legacy.has r.1 G M = true)
  ∧ (∀ G, is_Some (r.1 !! G) ↔ is_Some (k !! G)).
Proof.
  intros r. split; [intros e; apply legacy_pollGuild_sound|].
  split; [|split; [intros G M; apply legacy_pollGuild_mono
                  |intros G; apply legacy_pollGuild_tracked]].
  unfold r, Legacy.pollGuild.
  destruct (default (cached v) (fetched v)) as [|m0 ms]; [apply NoDup_nil_2|].
  destruct (k !! guild_id (view_guild v)) as [seen|]; [|apply NoDup_nil_2].
  pose proof (legacy_pollMembers_NoDup answer (m0 :: ms) seen) as Hn.
  by destruct (Legacy.pollMembers answer (m0 :: ms) seen).
Qed.

(** ** The earlier script: ticks *)

Lemma legacy_poll_acc answer guilds k acc :
  foldl (λ (acc : gmap string (list JS.value) * list Effect) v,
           let (k, effs) := Legacy.pollGuild answer v acc.1 in (k, acc.2 ++ effs))
        (k, acc) guilds
  = ((Legacy.poll answer guilds k).1, acc ++ (Legacy.poll answer guilds k).2).
Proof.
  unfold Legacy.poll. revert k acc.
  induction guilds as [|v guilds IH]; intros k acc; cbn [foldl fst snd].
  - by rewrite app_nil_r.
  - destruct (Legacy.pollGuild answer v k) as [k1 e1]. cbn [app].
    rewrite (IH k1 (acc ++ e1)), (IH k1 e1). cbn [fst snd]. by rewrite app_assoc.
Qed.

Lemma legacy_poll_cons answer v guilds k :
  Legacy.poll answer (v :: guilds) k
  = ((Legacy.poll answer guilds (Legacy.pollGuild answer v k).1).1,
     (Legacy.pollGuild answer v k).2
       ++ (Legacy.poll answer guilds (Legacy.pollGuild answer v k).1).2).
Proof.
  unfold Legacy.poll at 1. cbn [foldl fst snd].
  destruct (Legacy.pollGuild answer v k) as [k1 e1]. cbn [app fst snd].
  apply legacy_poll_acc.
Qed.

Lemma legacy_ticks_acc rounds k acc :
  foldl (λ (acc : gmap string (list JS.value) * list Effect)
           (round : (Member → Legacy.Outcome) * list GuildView),
           let (k, effs) := Legacy.poll round.1 round.2 acc.1 in (k, acc.2 ++ effs))
        (k, acc) rounds
  = ((Legacy.ticks rounds k).1, acc ++ (Legacy.ticks rounds k).2).
Proof.
  unfold Legacy.ticks. revert k acc.
  induction rounds as [|round rounds IH]; intros k acc; cbn [foldl fst snd].
  - by rewrite app_nil_r.
  - destruct (Legacy.poll round.1 round.2 k) as [k1 e1]. cbn [app].
    rewrite (IH k1 (acc ++ e1)), (IH k1 e1). cbn [fst snd]. by rewrite app_assoc.
Qed.

Lemma legacy_ticks_cons round rounds k :
  Legacy.ticks (round :: rounds) k
  = ((Legacy.ticks rounds (Legacy.poll round.1 round.2 k).1).1,
     (Legacy.poll round.1 round.2 k).2
       ++ (Legacy.ticks rounds (Legacy.poll round.1 round.2 k).1).2).
Proof.
  unfold Legacy.ticks at 1. cbn [foldl fst snd].
  destruct (Legacy.poll round.1 round.2 k) as [k1 e1]. cbn [app fst snd].
  apply legacy_ticks_acc.
Qed.

Lemma legacy_poll_mono answer guilds k G M :
  Legacy.has k G M = true → Legacy.has (Legacy.poll answer guilds k).1 G M = true.
Proof.
  revert k. induction guilds as [|v guilds IH]; intros k H; [done|].
  rewrite legacy_poll_cons. cbn [fst]. by apply IH, legacy_pollGuild_mono.
Qed.

Lemma legacy_poll_tracked answer guilds k G :
  is_Some ((Legacy.poll answer guilds k).1 !! G) ↔ is_Some (k !! G).
Proof.
  revert k. induction guilds as [|v guilds IH]; intros k; [done|].
  rewrite legacy_poll_cons. cbn [fst]. by rewrite IH, legacy_pollGuild_tracked.
Qed.

Lemma legacy_unknown_before k k' G M :
  (∀ G M, Legacy.has k G M = true → Legacy.has k' G M = true) →
  Legacy.has k' G M = false → Legacy.has k G M = false.
Proof.
  intros Hmono H. destruct (Legacy.has k G M) eqn:E; [|done].
  by rewrite (Hmono _ _ E) in H.
Qed.

Lemma legacy_poll_sound answer guilds k e :
  e ∈ (Legacy.poll answer guilds k).2 →
  ∃ v m, v ∈ guilds ∧ e = Send (Detailed m) ∧ m ∈ rosterOf v
         ∧ is_Some (k !! guild_id (view_guild v))
         ∧ Legacy.has k (guild_id (view_guild v)) (member_id m) = false
         ∧ Legacy.has (Legacy.poll answer guilds k).1 (guild_id (view_guild v)) (member_id m)
           = true
         ∧ answer m = Legacy.Delivered.
Proof.
  revert k. induction guilds as [|v guilds IH]; intros k.
  - by intros ?%elem_of_nil.
  - rewrite legacy_poll_cons. cbn [fst snd]. intros [Hin|Hin]%elem_of_app.
    + apply legacy_pollGuild_sound in Hin as (m & -> & Hm & Ht & Hh & Hk & Ha).
      exists v, m. split; [by left|]. split; [done|]. split; [done|]. split; [done|].
      split; [done|]. split; [|done]. by apply legacy_poll_mono.
    + apply IH in Hin as (v' & m & Hv & -> & Hm & Ht & Hh & Hk & Ha).
      exists v', m. split; [by right|]. split; [done|]. split; [done|].
      split; [by apply (legacy_pollGuild_tracked answer v)|].
      split; [|done].
      apply (legacy_unknown_before k (Legacy.pollGuild answer v k).1); [|done].
      intros G M. apply legacy_pollGuild_mono.
Qed.

Lemma legacy_ticks_mono rounds k G M :
  Legacy.has k G M = true → Legacy.has (Legacy.ticks rounds k).1 G M = true.
Proof.
  revert k. induction rounds as [|round rounds IH]; intros k H; [done|].
  rewrite legacy_ticks_cons. cbn [fst]. by apply IH, legacy_poll_mono.
Qed.

Lemma legacy_ticks_tracked rounds k G :
  is_Some ((Legacy.ticks rounds k).1 !! G) ↔ is_Some (k !! G).
Proof.
  revert k. induction rounds as [|round rounds IH]; intros k; [done|].
  rewrite legacy_ticks_cons. cbn [fst]. by rewrite IH, legacy_poll_tracked.
Qed.

(** X14.  Over any series of ticks of src/index.js, whatever the platform
    answers: every message is about a member of one of the rosters, for a
    guild that had a set when the series began and whose set did not hold
    the member then, and holds it at the end.  So nothing is ever sent
    about a member that is known for its guild, and nothing about a guild
    that the [ready] handler did not see: such a guild never gets a set,
    since the ticks create none. *)
Theorem legacy_known_never_announced rounds k :
  let r := Legacy.ticks rounds k in
  (∀ e, e ∈ r.2 →
        ∃ round v m, round ∈ rounds ∧ v ∈ round.2 ∧ e = Send (Detailed m)
                     ∧ m ∈ rosterOf v
                     ∧ is_Some (k !! guild_id (view_guild v))
                     ∧ Legacy.has k (guild_id (view_guild v)) (member_id m) = false
                     ∧ Legacy.has r.1 (guild_id (view_guild v)) (member_id m) = true
                     ∧ round.1 m = Legacy.Delivered)
  ∧ (∀ G M, Legacy.has k G M = true → Legacy.has r.1 G M = true)
  ∧ (∀ G, is_Some (r.1 !! G) ↔ is_Some (k !! G)).
Proof.
  intros r. split; [|split; [intros G M; apply legacy_ticks_mono
                            |intros G; apply legacy_ticks_tracked]].
  unfold r. clear r. revert k. induction rounds as [|round rounds IH]; intros k e.
  - by intros ?%elem_of_nil.
  - rewrite legacy_ticks_cons. cbn [fst snd]. intros [Hin|Hin]%elem_of_app.
    + apply legacy_poll_sound in Hin as (v & m & Hv & -> & Hm & Ht & Hh & Hk & Ha).
      exists round, v, m. split; [by left|]. split; [done|]. split; [done|].
      split; [done|]. split; [done|]. split; [done|]. split; [|done].
      by apply legacy_ticks_mono.
    + apply IH in Hin as (round' & v & m & Hr & Hv & -> & Hm & Ht & Hh & Hk & Ha).
      exists round', v, m. split; [by right|]. split; [done|]. split; [done|].
      split; [done|]. split; [by apply (legacy_poll_tracked round.1 round.2)|].
      split; [|done].
      apply (legacy_unknown_before k (Legacy.poll round.1 round.2 k).1); [|done].
      intros G M. apply legacy_poll_mono.
Qed.

(** ** The earlier script: failures *)

Lemma legacy_pollMembers_known answer ms seen :
  (∀ m, m ∈ ms → JS.has (JS.Str (member_id m)) seen = true) →
  Legacy.pollMembers answer ms seen = (seen, []).
Proof.
  induction ms as [|a ms IH]; intros H; [done|].
  rewrite legacy_pollMembers_cons, (H a) by (by left).
  apply IH. intros m Hm. apply H. by right.
Qed.

Lemma legacy_pollMembers_complete answer ms seen :
  (∀ m, m ∈ ms → answer m = Legacy.NoChannel ∨ answer m = Legacy.Delivered) →
  ∀ m, m ∈ ms → JS.has (JS.Str (member_id m)) (Legacy.pollMembers answer ms seen).1 = true.
Proof.
  revert seen. induction ms as [|a ms IH]; intros seen Hans m Hm.
  - by apply elem_of_nil in Hm.
  - assert (Hans' : ∀ m, m ∈ ms → answer m = Legacy.NoChannel ∨ answer m = Legacy.Delivered)
      by (intros m' Hm'; apply Hans; by right).
    rewrite legacy_pollMembers_cons.
    destruct (JS.has (JS.Str (member_id a)) seen) eqn:Eh.
    + apply elem_of_cons in Hm as [->|Hm]; [|by apply IH].
      by apply legacy_pollMembers_mono.
    + assert (JS.has (JS.Str (member_id m))
                (Legacy.pollMembers answer ms (JS.add (JS.Str (member_id a)) seen)).1 = true).
      { apply elem_of_cons in Hm as [->|Hm]; [|by apply IH].
        apply legacy_pollMembers_mono, has_add_str. }
      destruct (Hans a) as [Ea|Ea]; [by left| |]; by rewrite Ea.
Qed.

(** X15.  When no fetch of the channel and no send throws during a guild's
    turn, every member of the roster is in the guild's set afterwards,
    and doing the guild again on the same roster changes nothing and
    sends nothing, whatever the platform would answer. *)
Theorem legacy_clean_tick_settles answer answer' v k :
  is_Some (k !! guild_id (view_guild v)) →
  (∀ m, m ∈ rosterOf v → answer m = Legacy.NoChannel ∨ answer m = Legacy.Delivered) →
  let k' := (Legacy.pollGuild answer v k).1 in
  (∀ m, m ∈ rosterOf v → Legacy.has k' (guild_id (view_guild v)) (member_id m) = true)
  ∧ Legacy.pollGuild answer' v k' = (k', []).
Proof.
  intros [seen Ek] Hans k'. unfold k', Legacy.pollGuild, rosterOf in *.
  destruct (default (cached v) (fetched v)) as [|m0 ms] eqn:Er.
  { cbn [fst]. split; [by intros ? ?%elem_of_nil | done]. }
  rewrite Ek.
  pose proof (legacy_pollMembers_complete answer (m0 :: ms) seen Hans) as Hc.
  destruct (Legacy.pollMembers answer (m0 :: ms) seen) as [seen' effs]. cbn [fst] in *.
  rewrite lookup_insert_eq. split.
  - intros m Hm. rewrite legacy_has_insert. by apply Hc.
  - rewrite (legacy_pollMembers_known answer' (m0 :: ms) seen' Hc).
    by rewrite insert_insert_eq.
Qed.

Lemma legacy_clean_tick_settles_witness :
  let k := <["H" := []]> (∅ : gmap string (list JS.value)) in
  let k' := (Legacy.pollGuild (λ _, Legacy.Delivered) More.H_view k).1 in
  (∀ m, m ∈ rosterOf More.H_view →
        Legacy.has k' (guild_id (view_guild More.H_view)) (member_id m) = true)
  ∧ Legacy.pollGuild More.second_fails More.H_view k' = (k', []).
Proof.
  intros k.
  apply (legacy_clean_tick_settles (λ _, Legacy.Delivered) More.second_fails More.H_view k).
  - vm_compute. eauto.
  - intros m _. by right.
Defined.

(** X16.  A throw ends the guild's turn.  When the fetch of the channel
    or the send throws for a member the loop reaches as unknown, the
    members after it in the roster are not looked at: the turn ends as if
    the roster had stopped there.  No message about that member goes out,
    and when nothing threw before it, it is in the set all the same, so
    that by X14 no later tick announces it. *)
Theorem legacy_throw_ends_guild answer pre m post seen :
  answer m = Legacy.FetchThrows ∨ answer m = Legacy.SendThrows →
  JS.has (JS.Str (member_id m)) seen = false →
  (∀ x, x ∈ pre → member_id x ≠ member_id m) →
  Legacy.pollMembers answer (pre ++ m :: post) seen
  = Legacy.pollMembers answer (pre ++ [m]) seen
  ∧ (∀ m', Send (Detailed m') ∈ (Legacy.pollMembers answer (pre ++ m :: post) seen).2 →
           m' ∈ pre ∧ m' ≠ m)
  ∧ ((∀ x, x ∈ pre → answer x = Legacy.NoChannel ∨ answer x = Legacy.Delivered) →
     JS.has (JS.Str (member_id m)) (Legacy.pollMembers answer (pre ++ m :: post) seen).1
     = true).
Proof.
  intros Hthrow Hm Hpre.
  assert (E : Legacy.pollMembers answer (pre ++ m :: post) seen
              = Legacy.pollMembers answer (pre ++ [m]) seen).
  { revert seen Hm. induction pre as [|a pre IH]; intros seen Hm; cbn [app].
    - rewrite !legacy_pollMembers_cons, Hm. by destruct Hthrow as [-> | ->].
    - assert (Hpre' : ∀ x, x ∈ pre → member_id x ≠ member_id m)
        by (intros x Hx; apply Hpre; by right).
      assert (Hne : member_id m ≠ member_id a)
        by (intros Heq; apply (Hpre a); [by left|done]).
      rewrite !legacy_pollMembers_cons.
      destruct (JS.has (JS.Str (member_id a)) seen); [by apply IH|].
      pose proof (has_add_other _ _ _ Hne Hm) as Hm'.
      destruct (answer a); [done| |done|]; by rewrite (IH Hpre' _ Hm'). }
  split; [done|]. split.
  - intros m' Hin. rewrite E in Hin.
    apply legacy_pollMembers_sound in Hin as (m'' & [= <-] & Hin & _ & _ & Ha).
    assert (m' ≠ m) as Hne by (intros ->; destruct Hthrow as [H|H]; by rewrite H in Ha).
    split; [|done].
    apply elem_of_app in Hin as [Hin|Hin%list_elem_of_singleton]; done.
  - intros Hans. rewrite E. clear E. revert seen Hm.
    induction pre as [|a pre IH]; intros seen Hm; cbn [app].
    + rewrite legacy_pollMembers_cons, Hm.
      destruct Hthrow as [-> | ->]; apply has_add_str.
    + assert (Hpre' : ∀ x, x ∈ pre → member_id x ≠ member_id m)
        by (intros x Hx; apply Hpre; by right).
      assert (Hans' : ∀ x, x ∈ pre → answer x = Legacy.NoChannel ∨ answer x = Legacy.Delivered)
        by (intros x Hx; apply Hans; by right).
      assert (Hne : member_id m ≠ member_id a)
        by (intros Heq; apply (Hpre a); [by left|done]).
      rewrite legacy_pollMembers_cons.
      destruct (JS.has (JS.Str (member_id a)) seen); [by apply IH|].
      pose proof (has_add_other _ _ _ Hne Hm) as Hm'.
      destruct (Hans a) as [Ea|Ea]; [by left| |]; rewrite Ea; cbn [fst]; by apply IH.
Qed.

Lemma legacy_throw_ends_guild_witness :
  Legacy.pollMembers More.second_fails
    ([Sample.alice] ++ Sample.bob :: [Sample.carol]) []
  = Legacy.pollMembers More.second_fails ([Sample.alice] ++ [Sample.bob]) [].
Proof.
  apply (legacy_throw_ends_guild More.second_fails [Sample.alice] Sample.bob
           [Sample.carol] []).
  - right. reflexivity.
  - reflexivity.
  - intros x ->%list_elem_of_singleton. vm_compute. discriminate.
Defined.

(** ** The earlier script: startup *)

Lemma legacy_onReady_cons v guilds k :
  Legacy.onReady (v :: guilds) k
  = Legacy.onReady guilds (<[guild_id (view_guild v) := Legacy.idsOf (rosterOf v)]> k).
Proof. done. Qed.

Lemma legacy_onReady_other guilds k G :
  G ∉ (λ v, guild_id (view_guild v)) <$> guilds →
  Legacy.onReady guilds k !! G = k !! G.
Proof.
  revert k. induction guilds as [|v guilds IH]; intros k Hnot; [done|].
  rewrite legacy_onReady_cons, IH.
  - apply lookup_insert_ne. intros Heq. apply Hnot. rewrite fmap_cons, <- Heq. by left.
  - intros Hin. apply Hnot. rewrite fmap_cons. by right.
Qed.

Lemma legacy_onReady_lookup guilds k v :
  NoDup ((λ v, guild_id (view_guild v)) <$> guilds) → v ∈ guilds →
  Legacy.onReady guilds k !! guild_id (view_guild v) = Some (Legacy.idsOf (rosterOf v)).
Proof.
  revert k. induction guilds as [|v0 guilds IH]; intros k Hnd Hv.
  - by apply elem_of_nil in Hv.
  - rewrite fmap_cons in Hnd. apply NoDup_cons in Hnd as [Hnot Hnd].
    rewrite legacy_onReady_cons. apply elem_of_cons in Hv as [->|Hv].
    + rewrite legacy_onReady_other by done. apply lookup_insert_eq.
    + by apply IH.
Qed.

Lemma has_idsOf m members :
  m ∈ members → JS.has (JS.Str (member_id m)) (Legacy.idsOf members) = true.
Proof.
  intros Hm. apply has_str. unfold Legacy.idsOf. apply elem_of_Set_from.
  apply list_elem_of_In, in_map_iff. exists m. split; [done | by apply list_elem_of_In].
Qed.

Lemma legacy_pollGuild_quiet answer v k :
  (∀ seen, k !! guild_id (view_guild v) = Some seen →
           ∀ m, m ∈ rosterOf v → JS.has (JS.Str (member_id m)) seen = true) →
  Legacy.pollGuild answer v k = (k, []).
Proof.
  intros H. unfold Legacy.pollGuild, rosterOf in *.
  destruct (default (cached v) (fetched v)) as [|m0 ms]; [done|].
  destruct (k !! guild_id (view_guild v)) as [seen|] eqn:Ek; [|done].
  rewrite (legacy_pollMembers_known answer (m0 :: ms) seen (H seen eq_refl)).
  by rewrite insert_id.
Qed.

Lemma legacy_poll_quiet answer guilds k :
  (∀ v seen, v ∈ guilds → k !! guild_id (view_guild v) = Some seen →
             ∀ m, m ∈ rosterOf v → JS.has (JS.Str (member_id m)) seen = true) →
  Legacy.poll answer guilds k = (k, []).
Proof.
  induction guilds as [|v guilds IH]; intros H; [done|].
  rewrite legacy_poll_cons.
  assert (Legacy.pollGuild answer v k = (k, [])) as ->.
  { apply legacy_pollGuild_quiet. intros seen. apply H. by left. }
  cbn [fst snd app]. rewrite IH; [done|].
  intros v' seen Hv'. apply H. by right.
Qed.

(** X17.  The [ready] handler of src/index.js gives every guild it sees a
    set that holds the guild's roster (the fetched one, or the cache when
    the fetch fails), and a tick that finds the same rosters sends
    nothing and changes nothing, whatever the platform would answer: the
    members present at startup are never announced.  The guilds are
    those of a collection, one entry per identifier. *)
Theorem legacy_ready_then_poll_silent answer guilds k :
  NoDup ((λ v, guild_id (view_guild v)) <$> guilds) →
  let k0 := Legacy.onReady guilds k in
  (∀ v m, v ∈ guilds → m ∈ rosterOf v →
          Legacy.has k0 (guild_id (view_guild v)) (member_id m) = true)
  ∧ Legacy.poll answer guilds k0 = (k0, []).
Proof.
  intros Hnd k0.
  assert (Hk : ∀ v, v ∈ guilds →
            k0 !! guild_id (view_guild v) = Some (Legacy.idsOf (rosterOf v)))
    by (intros v Hv; by apply legacy_onReady_lookup).
  split.
  - intros v m Hv Hm. unfold Legacy.has. rewrite (Hk v Hv). by apply has_idsOf.
  - apply legacy_poll_quiet. intros v seen Hv Hs m Hm.
    rewrite (Hk v Hv) in Hs. injection Hs as <-. by apply has_idsOf.
Qed.

Lemma legacy_ready_then_poll_silent_witness :
  Legacy.poll More.second_fails [More.G_view; More.H_view]
    (Legacy.onReady [More.G_view; More.H_view] ∅)
  = (Legacy.onReady [More.G_view; More.H_view] ∅, []).
Proof.
  apply (legacy_ready_then_poll_silent More.second_fails [More.G_view; More.H_view] ∅).
  apply (bool_decide_unpack _). vm_compute. reflexivity.
Defined.

(** ** The roles of a join message *)

Lemma insertRole_perm r sorted : insertRole r sorted ≡ₚ r :: sorted.
Proof.
  induction sorted as [|x rest IH]; cbn [insertRole]; [done|].
  destruct (position r <? position x); [|done].
  rewrite IH. apply Permutation_swap.
Qed.

Lemma sortRoles_perm roles : sortRoles roles ≡ₚ roles.
Proof.
  unfold sortRoles. induction roles as [|r roles IH]; cbn [foldr]; [done|].
  by rewrite insertRole_perm, IH.
Qed.

Lemma insertRole_falling r sorted : falling sorted → falling (insertRole r sorted).
Proof.
  induction sorted as [|x rest IH]; cbn [insertRole falling].
  - intros _. split; [by intros ? ?%elem_of_nil | done].
  - intros [Hall Hs]. destruct (position r <? position x) eqn:E; cbn [falling].
    + apply Z.ltb_lt in E. split; [|by apply IH].
      intros y Hy. rewrite insertRole_perm in Hy.
      apply elem_of_cons in Hy as [->|Hy]; [lia | by apply Hall].
    + apply Z.ltb_ge in E. split; [|done].
      intros y [->|Hy]%elem_of_cons; [done|]. specialize (Hall y Hy). lia.
Qed.

Lemma sortRoles_falling roles : falling (sortRoles roles).
Proof.
  unfold sortRoles. induction roles as [|r roles IH]; cbn [foldr]; [done|].
  by apply insertRole_falling.
Qed.

Lemma head_insertRole r sorted :
  head (insertRole r sorted)
  = Some (match head sorted with
          | Some x => if position r <? position x then x else r
          | None => r
          end).
Proof.
  destruct sorted as [|x rest]; cbn [insertRole head]; [done|].
  by destruct (position r <? position x).
Qed.

Lemma head_sortRoles roles r :
  head (sortRoles roles) = Some r →
  ∃ pre post, roles = pre ++ r :: post
              ∧ (∀ x, x ∈ pre → position x < position r)
              ∧ (∀ x, x ∈ post → position x ≤ position r).
Proof.
  revert r. induction roles as [|a roles IH]; intros r; [done|].
  change (sortRoles (a :: roles)) with (insertRole a (sortRoles roles)).
  rewrite head_insertRole. destruct (head (sortRoles roles)) as [x|] eqn:Eh.
  - destruct (IH x eq_refl) as (pre & post & -> & Hpre & Hpost).
    destruct (position a <? position x) eqn:E; intros [= <-].
    + apply Z.ltb_lt in E. exists (a :: pre), post. split; [done|]. split; [|done].
      intros y [->|Hy]%elem_of_cons; [done | by apply Hpre].
    + apply Z.ltb_ge in E. exists [], (pre ++ x :: post). split; [done|].
      split; [by intros ? ?%elem_of_nil|].
      intros y [Hy|[->|Hy]%elem_of_cons]%elem_of_app.
      * specialize (Hpre y Hy). lia.
      * done.
      * specialize (Hpost y Hy). lia.
  - intros [= <-]. exists [], roles. split; [done|]. split; [by intros ? ?%elem_of_nil|].
    assert (roles = []) as ->; [|by intros ? ?%elem_of_nil].
    apply Permutation_nil_r. rewrite <- (sortRoles_perm roles).
    by destruct (sortRoles roles).
Qed.

Example roles_of_a_member :
  let cache := [More.everyone; More.helper; More.admin; More.greeter] in
  rolesOf "G" cache = [More.admin; More.helper; More.greeter]
  ∧ rolesCount "G" cache = 3%nat
  ∧ highestRole "G" cache = Some More.admin
  ∧ roleNames "G" cache = ["admin"; "helper"; "greeter"].
Proof. vm_compute. done. Qed.

(** X18.  The roles of a join message, in part_001 and in src/index.js:
    the listed roles are the member's roles without the one that carries
    the guild's identifier, each once, in order of falling position; the
    names are as many as the count; there is a top role exactly when the
    count is not zero, and it is the first role of the member, in the
    order of the cache, whose position no other role exceeds. *)
Theorem roles_listed_by_position guildId cache :
  let kept := List.filter (λ r, negb (String.eqb (role_id r) guildId)) cache in
  rolesOf guildId cache ≡ₚ kept
  ∧ (∀ r, r ∈ rolesOf guildId cache ↔ r ∈ cache ∧ role_id r ≠ guildId)
  ∧ falling (rolesOf guildId cache)
  ∧ length (roleNames guildId cache) = rolesCount guildId cache
  ∧ (highestRole guildId cache = None ↔ rolesCount guildId cache = 0%nat)
  ∧ (∀ r, highestRole guildId cache = Some r →
          ∃ pre post, kept = pre ++ r :: post
                      ∧ (∀ x, x ∈ pre → position x < position r)
                      ∧ (∀ x, x ∈ post → position x ≤ position r)).
Proof.
  intros kept. unfold rolesOf, roleNames, rolesCount, highestRole, rolesOf. fold kept.
  pose proof (sortRoles_perm kept) as Hp.
  split; [done|]. split.
  { intros r. rewrite Hp. unfold kept. rewrite elem_of_filter', negb_true_iff.
    split; intros [? H]; (split; [done|]).
    - intros Heq. apply String.eqb_eq in Heq. by rewrite Heq in H.
    - destruct (String.eqb (role_id r) guildId) eqn:E; [|done].
      by apply String.eqb_eq in E. }
  split; [apply sortRoles_falling|].
  split; [by rewrite length_fmap, Hp|].
  split; [|intros r; apply head_sortRoles].
  rewrite <- (Permutation_length Hp).
  destruct (sortRoles kept); cbn [head length]; split; done.
Qed.

(** ** From the queue to the flush *)

(** X19.  In every run from startup, while the queue holds something
    there is exactly one debounce timer, it is the one [debounceTimer]
    names, and it is due within the debounce window from now; once that
    time has passed it can run, and it then sends what a flush of the
    present queue sends and leaves the queue empty with no debounce timer
    behind.  A queued member never waits for a timer that is not there. *)
Theorem queued_members_flush_within_window v now d0 r guilds evs st effs d :
  run v evs (started now d0 r guilds) = Some (st, effs) →
  notifyBuffer st ≠ [] →
  ∃ t, pendingFlush st = [t] ∧ debounceTimer st = Some (handle t)
       ∧ due t ≤ clock st + notifyDebounceMs
       ∧ ∃ st', run v [Elapse (Z.max 0 (due t - clock st)); TimerFires (handle t) d] st
                = Some (st', (flushNotifyBuffer v d st).2)
                ∧ notifyBuffer st' = [] ∧ pendingFlush st' = [].
Proof.
  intros Hrun Hb.
  pose proof (Inv_run _ _ _ _ _ (Inv_started now d0 r guilds) Hrun) as HI.
  pose proof (dueSoon_run _ _ _ _ _ (dueSoon_started now d0 r guilds) Hrun) as HW.
  destruct (debounce_timer_never_stacks _ _ _ _ _ _ _ _ Hrun) as [Hle Hone].
  apply Hone in Hb as Hlen.
  destruct (pendingFlush st) as [|t [|t' rest]] eqn:Ep; try (cbn [length] in Hlen; lia).
  assert (t ∈ timers st ∧ is_flush t = true) as [Ht Hf].
  { apply elem_of_filter'. fold (pendingFlush st). rewrite Ep. by left. }
  exists t. split; [done|].
  split; [by apply (inv_flush _ HI t Ht)|].
  assert (due t ≤ clock st + notifyDebounceMs) as Hdue.
  { specialize (HW t Ht). unfold is_flush in Hf. by destruct (callback t). }
  split; [done|].
  set (dt := Z.max 0 (due t - clock st)).
  destruct (flush_fires v d t (set_clock (clock st + dt) st)) as (st' & Hstep & Hb' & Hp').
  - by apply Inv_set_clock.
  - done.
  - done.
  - cbn [clock set_clock]. lia.
  - exists st'. split; [|done]. cbn [run]. cbn [step].
    replace (0 <=? dt) with true by (symmetry; apply Z.leb_le; lia).
    change (step v (TimerFires (handle t) d) (set_clock (clock st + dt) st))
      with (match findTimer (handle t) (set_clock (clock st + dt) st) with
            | Some t0 => if due t0 <=? clock (set_clock (clock st + dt) st)
                         then Some (runTimer v d t0 (set_clock (clock st + dt) st)) else None
            | None => None
            end) in Hstep.
    rewrite Hstep. rewrite flush_effects. cbn [notifyBuffer set_clock app].
    by rewrite app_nil_r.
Qed.

Lemma queued_members_flush_within_window_witness :
  match run Batched (iteration Sample.first_tick
                       (started Sample.T0 Missing Sample.T0 []))
            (started Sample.T0 Missing Sample.T0 []) with
  | Some (st, effs) =>
      ∃ t, pendingFlush st = [t] ∧ debounceTimer st = Some (handle t)
           ∧ due t ≤ clock st + notifyDebounceMs
           ∧ ∃ st', run Batched [Elapse (Z.max 0 (due t - clock st));
                                 TimerFires (handle t) Sample.delivers] st
                    = Some (st', (flushNotifyBuffer Batched Sample.delivers st).2)
                    ∧ notifyBuffer st' = [] ∧ pendingFlush st' = []
  | None => False
  end.
Proof.
  destruct (run Batched (iteration Sample.first_tick
                           (started Sample.T0 Missing Sample.T0 []))
              (started Sample.T0 Missing Sample.T0 [])) as [[st effs]|] eqn:E.
  - apply (queued_members_flush_within_window Batched Sample.T0 Missing Sample.T0 []
             (iteration Sample.first_tick (started Sample.T0 Missing Sample.T0 []))
             st effs Sample.delivers E).
    vm_compute in E. injection E as <- _. vm_compute. discriminate.
  - vm_compute in E. discriminate E.
Defined.

(** ** From the tick to the queue *)

Lemma accepts_scheduleNotify_other m a g st :
  member_id m ≠ member_id a → accepts m (scheduleNotify a g st) = accepts m st.
Proof.
  intros Hne. destruct (accepts a st) eqn:E.
  - rewrite scheduleNotify_accepted by done. unfold accepts.
    rewrite enqueue_lastNotified, enqueue_clock. by rewrite lookup_insert_ne.
  - by rewrite scheduleNotify_dropped.
Qed.

Lemma notifyBuffer_scheduleNotify a g st :
  notifyBuffer (scheduleNotify a g st)
  = notifyBuffer st ++ (if accepts a st then [(g, a)] else []).
Proof.
  destruct (accepts a st) eqn:E.
  - rewrite scheduleNotify_accepted by done. apply enqueue_notifyBuffer.
  - rewrite scheduleNotify_dropped by done. by rewrite app_nil_r.
Qed.

Lemma scheduleAll_buffer g ms st :
  NoDup (member_id <$> ms) →
  notifyBuffer (scheduleAll g ms st)
  = notifyBuffer st ++ map (pair g) (List.filter (λ m, accepts m st) ms).
Proof.
  unfold scheduleAll. revert st.
  induction ms as [|a ms IH]; intros st Hnd; cbn [foldl List.filter map].
  - by rewrite app_nil_r.
  - rewrite fmap_cons in Hnd. apply NoDup_cons in Hnd as [Hnot Hnd].
    rewrite (IH _ Hnd), notifyBuffer_scheduleNotify, <- app_assoc. f_equal.
    rewrite (List.filter_ext_in (λ m, accepts m (scheduleNotify a g st))
               (λ m, accepts m st)).
    + by destruct (accepts a st).
    + intros m Hm. apply accepts_scheduleNotify_other. intros Heq. apply Hnot.
      rewrite <- Heq. apply list_elem_of_fmap. exists m. split; [done|].
      by apply list_elem_of_In.
Qed.

Lemma NoDup_fmap_filter {A B} (f : A → B) (p : A → bool) (l : list A) :
  NoDup (f <$> l) → NoDup (f <$> List.filter p l).
Proof.
  induction l as [|a l IH]; cbn [List.filter]; [done|].
  rewrite fmap_cons. intros [Hnot Hnd]%NoDup_cons. destruct (p a); [|by apply IH].
  rewrite fmap_cons. apply NoDup_cons. split; [|by apply IH].
  intros (x & Hx & Hin)%list_elem_of_fmap. apply Hnot.
  apply list_elem_of_fmap. exists x. split; [done|].
  by apply elem_of_filter' in Hin as [? _].
Qed.

Lemma forwarded_map g ms : forwarded (map (λ m, Forward m g) ms) = map (pair g) ms.
Proof. induction ms as [|m ms IH]; [done|]. cbn. by rewrite <- IH. Qed.

Lemma filter_map_pair (p : Member → bool) (g : Guild) ms :
  List.filter (λ gm : Guild * Member, p gm.2) (map (pair g) ms)
  = map (pair g) (List.filter p ms).
Proof.
  induction ms as [|m ms IH]; [done|]. cbn [map List.filter snd].
  destruct (p m); cbn [map]; by rewrite IH.
Qed.

(** X20.  One guild of one tick, on a roster with one entry per member:
    the queue grows by exactly the members the tick hands on that are
    past their cooldown, in the order of the roster.  A member handed on
    while in its cooldown window is marked as known but is queued
    nowhere. *)
Theorem tick_queues_accepted_forwards v st :
  NoDup (member_id <$> rosterOf v) →
  notifyBuffer (pollGuild v st).1
  = notifyBuffer st
    ++ List.filter (λ gm : Guild * Member, accepts gm.2 st) (forwarded (pollGuild v st).2).
Proof.
  intros Hnd.
  assert (E0 : notifyBuffer (ensureGuild (guild_id (view_guild v)) st) = notifyBuffer st).
  { unfold ensureGuild. by destruct (knownMembers st !! _). }
  destruct (pollBeforeFetch (view_guild v) st).2 eqn:Ego.
  2:{ rewrite (pollGuild_skip _ _ Ego). cbn [fst snd forwarded flat_map List.filter].
      by rewrite app_nil_r. }
  rewrite (pollGuild_go _ _ Ego). cbn [fst snd].
  change (forwarded (RosterFetch (view_guild v) :: ?l)) with (forwarded l).
  fold (rosterOf v).
  set (g := view_guild v) in *. set (st0 := ensureGuild (guild_id g) st) in *.
  destruct (diffNewMembers (guild_id g) (rosterOf v) st0) as [|n0 ns] eqn:Ed.
  { unfold pollAfterFetch. rewrite Ed. cbn [fst snd forwarded flat_map List.filter].
    by rewrite app_nil_r. }
  pose proof (pollAfterFetch_marks g (rosterOf v) st0 (known st (guild_id g))
                (ensureGuild_lookup _ _)) as Hm.
  rewrite Ed in Hm. specialize (Hm ltac:(done)). cbv zeta in Hm. rewrite Hm.
  cbn [fst snd]. rewrite forwarded_map, (filter_map_pair (λ m, accepts m st)).
  rewrite scheduleAll_buffer.
  2:{ apply NoDup_fmap_filter. rewrite <- Ed. unfold diffNewMembers.
      by apply NoDup_fmap_filter. }
  assert (F : ∀ k, notifyBuffer (savePersistence (set_knownMembers k st0)) = notifyBuffer st
                   ∧ lastNotified (savePersistence (set_knownMembers k st0)) = lastNotified st
                   ∧ clock (savePersistence (set_knownMembers k st0)) = clock st).
  { intros k. unfold savePersistence, st0, ensureGuild.
    destruct (knownMembers st !! guild_id g); fields; by destruct (saveScheduled st). }
  destruct (F (<[guild_id g := markKnown (known st (guild_id g)) (n0 :: ns)]>
                 (knownMembers st0))) as (F1 & F2 & F3).
  rewrite F1. f_equal. f_equal. apply List.filter_ext. intros m.
  by apply accepts_ext.
Qed.

Lemma tick_queues_accepted_forwards_witness :
  notifyBuffer (pollGuild Sample.first_tick Sample.fresh).1
  = notifyBuffer Sample.fresh
    ++ List.filter (λ gm : Guild * Member, accepts gm.2 Sample.fresh)
         (forwarded (pollGuild Sample.first_tick Sample.fresh).2).
Proof.
  apply (tick_queues_accepted_forwards Sample.first_tick Sample.fresh).
  apply (bool_decide_unpack _). vm_compute. reflexivity.
Defined.

(** * The scheduler seen in the state *)

(** ** What a series of requests leaves behind *)

Lemma accepts_same_id m x st : member_id x = member_id m → accepts x st = accepts m st.
Proof. unfold accepts. by intros ->. Qed.

Lemma accepts_after_scheduleNotify m g st : accepts m (scheduleNotify m g st) = false.
Proof.
  destruct (accepts m st) eqn:E.
  - rewrite scheduleNotify_accepted by done. unfold accepts.
    rewrite enqueue_lastNotified, enqueue_clock, lookup_insert_eq.
    cbn [default from_option]. unfold id. by rewrite Z.sub_diag.
  - by rewrite scheduleNotify_dropped.
Qed.

Lemma accepts_false_scheduleNotify m x g st :
  accepts m st = false → accepts m (scheduleNotify x g st) = false.
Proof.
  intros H. destruct (decide (member_id m = member_id x)) as [E|E].
  - rewrite scheduleNotify_dropped; [done|]. by rewrite (accepts_same_id m x st (eq_sym E)).
  - by rewrite accepts_scheduleNotify_other.
Qed.

Lemma accepts_false_scheduleAll m g members st :
  accepts m st = false → accepts m (scheduleAll g members st) = false.
Proof.
  unfold scheduleAll. revert st.
  induction members as [|x members IH]; intros st H; cbn [foldl]; [done|].
  by apply IH, accepts_false_scheduleNotify.
Qed.

Lemma clock_scheduleNotify m g st : clock (scheduleNotify m g st) = clock st.
Proof.
  destruct (accepts m st) eqn:E.
  - rewrite scheduleNotify_accepted by done. apply enqueue_clock.
  - by rewrite scheduleNotify_dropped.
Qed.

Lemma clock_scheduleAll g members st : clock (scheduleAll g members st) = clock st.
Proof.
  unfold scheduleAll. revert st.
  induction members as [|x members IH]; intros st; cbn [foldl]; [done|].
  by rewrite IH, clock_scheduleNotify.
Qed.

Lemma lastNotified_refused m x g st :
  accepts m st = false →
  lastNotified (scheduleNotify x g st) !! member_id m = lastNotified st !! member_id m.
Proof.
  intros H. destruct (accepts x st) eqn:E.
  - rewrite scheduleNotify_accepted by done. rewrite enqueue_lastNotified.
    apply lookup_insert_ne. intros Heq.
    rewrite (accepts_same_id m x st Heq) in E. congruence.
  - by rewrite scheduleNotify_dropped.
Qed.

Lemma lastNotified_refused_all m g members st :
  accepts m st = false →
  lastNotified (scheduleAll g members st) !! member_id m = lastNotified st !! member_id m.
Proof.
  unfold scheduleAll. revert st.
  induction members as [|x members IH]; intros st H; cbn [foldl]; [done|].
  rewrite IH by (by apply accepts_false_scheduleNotify). by apply lastNotified_refused.
Qed.

Lemma notifyBuffer_scheduleAll_mono x g members st :
  x ∈ notifyBuffer st → x ∈ notifyBuffer (scheduleAll g members st).
Proof.
  unfold scheduleAll. revert st.
  induction members as [|y members IH]; intros st H; cbn [foldl]; [done|].
  apply IH. rewrite notifyBuffer_scheduleNotify. apply elem_of_app. by left.
Qed.

Lemma scheduleAll_refuses_after m g members st :
  m ∈ members → accepts m (scheduleAll g members st) = false.
Proof.
  unfold scheduleAll. revert st.
  induction members as [|x members IH]; intros st Hm; cbn [foldl].
  - by apply elem_of_nil in Hm.
  - apply elem_of_cons in Hm as [->|Hm]; [|by apply IH].
    apply (accepts_false_scheduleAll x g members), accepts_after_scheduleNotify.
Qed.

Lemma scheduleAll_queues m g members st :
  m ∈ members → accepts m st = true →
  lastNotified (scheduleAll g members st) !! member_id m = Some (clock st)
  ∧ ∃ m', m' ∈ members ∧ member_id m' = member_id m
          ∧ (g, m') ∈ notifyBuffer (scheduleAll g members st).
Proof.
  revert st. induction members as [|x members IH]; intros st Hm Ha.
  - by apply elem_of_nil in Hm.
  - change (scheduleAll g (x :: members) st)
      with (scheduleAll g members (scheduleNotify x g st)).
    destruct (decide (member_id x = member_id m)) as [E|E].
    + assert (accepts x st = true) as Hx by (by rewrite (accepts_same_id m x st E)).
      assert (accepts m (scheduleNotify x g st) = false) as Hf.
      { rewrite <- (accepts_same_id m x _ E). apply accepts_after_scheduleNotify. }
      split.
      * rewrite (lastNotified_refused_all _ _ _ _ Hf).
        rewrite scheduleNotify_accepted by done.
        by rewrite enqueue_lastNotified, <- E, lookup_insert_eq.
      * exists x. split; [by left|]. split; [done|].
        apply notifyBuffer_scheduleAll_mono. rewrite notifyBuffer_scheduleNotify, Hx.
        apply elem_of_app. right. by left.
    + apply elem_of_cons in Hm as [->|Hm]; [done|].
      destruct (IH (scheduleNotify x g st) Hm) as (Hl & m' & Hm' & Hid & Hq).
      { rewrite accepts_scheduleNotify_other; [done|]. by intros Heq. }
      rewrite clock_scheduleNotify in Hl. split; [done|].
      exists m'. split; [by right|]. done.
Qed.

Lemma scheduleAll_added g members st :
  ∃ added, notifyBuffer (scheduleAll g members st) = notifyBuffer st ++ map (pair g) added
           ∧ ∀ x, x ∈ added → x ∈ members ∧ accepts x st = true.
Proof.
  revert st. induction members as [|y members IH]; intros st.
  - exists []. split; [by rewrite app_nil_r | by intros ? ?%elem_of_nil].
  - change (scheduleAll g (y :: members) st)
      with (scheduleAll g members (scheduleNotify y g st)).
    destruct (IH (scheduleNotify y g st)) as (added & Hb & Hadd).
    assert (Hrest : ∀ x, x ∈ added → x ∈ y :: members ∧ accepts x st = true).
    { intros x Hx. destruct (Hadd x Hx) as [Hin Hacc]. split; [by right|].
      destruct (accepts x st) eqn:E; [done|].
      by rewrite (accepts_false_scheduleNotify x y g st E) in Hacc. }
    rewrite Hb, notifyBuffer_scheduleNotify, <- app_assoc.
    destruct (accepts y st) eqn:Ey.
    + exists (y :: added). split; [done|].
      intros x [->|Hx]%elem_of_cons; [by split; [left|] | by apply Hrest].
    + exists added. split; [done|]. done.
Qed.

(** ** Recency filter *)

(** C3, as stated, fails.  The filter does not measure from the start of
    the process but from the time the client became ready.  A process
    starts at [T0] and its client is ready ten seconds later; erin joined
    two seconds after the process started, which is after the start of the
    process minus five seconds.  The first tick finds her unknown, marks
    her known, and hands her to nobody: nothing is queued. *)
Lemma joined_after_process_start_not_forwarded :
  match run Batched [Elapse 60000; PollBegin Sample.G; PollResume Sample.G [More.erin]]
            More.slow_login with
  | Some (st, effs) =>
      joinedTimestamp More.erin = Some (Sample.T0 + 2000)
      ∧ (clock (boot Sample.T0 Missing) - 5000 ≤ Sample.T0 + 2000)
      ∧ isKnown More.slow_login "G" "5" = false
      ∧ (Forward More.erin Sample.G ∉ effs)
      ∧ notifyBuffer st = []
      ∧ isKnown st "G" "5" = true
  | None => False
  end.
Proof.
  vm_compute. split; [done|]. split; [discriminate|]. split; [done|].
  split; [|done]. intros [H|H]%elem_of_cons; [discriminate|]. by apply elem_of_nil in H.
Qed.

(** C3, amended: the reference time is the time the client became ready,
    or the time of the tick when the client has none.  In an iteration
    that is not cut short, a roster member that is not yet known is handed
    to [scheduleNotify] exactly when it has no join timestamp or joined at
    or after that time minus 5000 ms, and it is in the known set
    afterwards either way.  That the member was handed over shows in the
    state: afterwards the scheduler refuses it, and if it was past its
    cooldown before, its notification is on record at the time of the tick
    and a pair with its identifier is in the queue, the member itself when
    the roster has one entry for it.  Nothing else is queued: the queue
    grows by accepted roster members that were unknown and pass the
    filter, so a member failing it is queued nowhere. *)
Theorem recency_filter v st m :
  (pollBeforeFetch (view_guild v) st).2 = true →
  m ∈ rosterOf v →
  isKnown st (guild_id (view_guild v)) (member_id m) = false →
  let g := view_guild v in
  let st' := (pollGuild v st).1 in
  let passes (x : Member) :=
    noTimestamp x = true ∨ ∃ t, joinedTimestamp x = Some t ∧ startupTs st - 5000 ≤ t in
  (Forward m g ∈ (pollGuild v st).2 ↔ passes m)
  ∧ isKnown st' (guild_id g) (member_id m) = true
  ∧ (passes m →
       accepts m st' = false
       ∧ (accepts m st = true →
            lastNotified st' !! member_id m = Some (clock st)
            ∧ (∃ m', m' ∈ rosterOf v ∧ member_id m' = member_id m
                     ∧ (g, m') ∈ notifyBuffer st')
            ∧ ((∀ x, x ∈ rosterOf v → member_id x = member_id m → x = m) →
               (g, m) ∈ notifyBuffer st')))
  ∧ ∃ added, notifyBuffer st' = notifyBuffer st ++ map (pair g) added
             ∧ ∀ x, x ∈ added →
                    x ∈ rosterOf v ∧ passes x ∧ accepts x st = true
                    ∧ isKnown st (guild_id g) (member_id x) = false.
Proof.
  intros Hgo Hin Hunknown g st' passes. unfold st'. clear st'.
  rewrite (pollGuild_go _ _ Hgo). cbn [fst snd]. fold g. fold (rosterOf v).
  set (st1 := ensureGuild (guild_id g) st).
  assert (Hnew : m ∈ diffNewMembers (guild_id g) (rosterOf v) st1).
  { subst st1. rewrite diffNewMembers_ensureGuild. by apply diffNewMembers_unknown. }
  assert (Hne : diffNewMembers (guild_id g) (rosterOf v) st1 ≠ []).
  { intros E. rewrite E in Hnew. by apply elem_of_nil in Hnew. }
  rewrite (pollAfterFetch_marks g (rosterOf v) st1 (known st (guild_id g)))
    by (done || apply ensureGuild_lookup).
  cbn [fst snd].
  set (newMembers := diffNewMembers (guild_id g) (rosterOf v) st1) in *.
  set (fresh := List.filter (realNew (startupTs st1)) newMembers).
  set (s0 := savePersistence
               (set_knownMembers
                  (<[guild_id g := markKnown (known st (guild_id g)) newMembers]>
                     (knownMembers st1)) st1)).
  assert (F : notifyBuffer s0 = notifyBuffer st ∧ lastNotified s0 = lastNotified st
              ∧ clock s0 = clock st).
  { unfold s0, savePersistence, st1, ensureGuild.
    destruct (knownMembers st !! guild_id g); fields; by destruct (saveScheduled st). }
  destruct F as (F1 & F2 & F3).
  assert (Hacc : ∀ x, accepts x s0 = accepts x st) by (intros x; by apply accepts_ext).
  assert (Hts : startupTs st1 = startupTs st) by apply startupTs_ensureGuild.
  assert (Hfresh : ∀ x, x ∈ fresh ↔ x ∈ rosterOf v
                         ∧ isKnown st (guild_id g) (member_id x) = false ∧ passes x).
  { intros x. unfold fresh, newMembers. rewrite elem_of_filter', Hts. unfold st1.
    rewrite diffNewMembers_ensureGuild, diffNewMembers_unknown.
    unfold passes. rewrite <- realNew_spec. tauto. }
  split; [|split; [|split]].
  - rewrite elem_of_cons. split.
    + intros [Hbad|H]; [discriminate|].
      apply list_elem_of_In, in_map_iff in H as (y & Heq & Hy). inversion Heq; subst y.
      apply list_elem_of_In in Hy. by apply Hfresh in Hy as (_ & _ & ?).
    + intros Hp. right. apply list_elem_of_In, in_map_iff. exists m. split; [done|].
      apply list_elem_of_In, Hfresh. done.
  - unfold isKnown. rewrite (known_eq _ _ _ (knownMembers_scheduleAll _ _ _)).
    unfold s0. rewrite (known_eq _ _ _ (knownMembers_savePersistence _)).
    rewrite known_insert_same. by apply has_markKnown_member.
  - intros Hp. assert (m ∈ fresh) as Hm by (by apply Hfresh).
    split; [by apply scheduleAll_refuses_after|].
    intros Ha. rewrite <- Hacc in Ha.
    destruct (scheduleAll_queues m g fresh s0 Hm Ha) as (Hl & m' & Hm' & Hid & Hq).
    rewrite F3 in Hl. split; [done|].
    apply Hfresh in Hm' as Hm''. destruct Hm'' as (Hr' & _ & _).
    split; [by exists m'|].
    intros Huniq. by rewrite <- (Huniq m' Hr' Hid).
  - destruct (scheduleAll_added g fresh s0) as (added & Hb & Hadd).
    exists added. rewrite Hb, F1. split; [done|].
    intros x Hx. destruct (Hadd x Hx) as [Hf Ha]. rewrite Hacc in Ha.
    apply Hfresh in Hf as (? & ? & ?). done.
Qed.

Lemma recency_filter_witness :
  let st' := (pollGuild Sample.first_tick Sample.fresh).1 in
  (Forward Sample.alice Sample.G ∈ (pollGuild Sample.first_tick Sample.fresh).2)
  ∧ isKnown st' "G" "1" = true
  ∧ accepts Sample.alice st' = false
  ∧ lastNotified st' !! "1" = Some Sample.T0
  ∧ (Sample.G, Sample.alice) ∈ notifyBuffer st'.
Proof.
  intros st'.
  destruct (recency_filter Sample.first_tick Sample.fresh Sample.alice)
    as (Hiff & Hk & Hp & _).
  - vm_compute. reflexivity.
  - apply list_elem_of_In. left. reflexivity.
  - vm_compute. reflexivity.
  - assert (noTimestamp Sample.alice = true
            ∨ ∃ t, joinedTimestamp Sample.alice = Some t
                   ∧ startupTs Sample.fresh - 5000 ≤ t) as Hpass.
    { right. exists (Sample.T0 + 1000). split; [reflexivity|]. vm_compute. discriminate. }
    destruct (Hp Hpass) as (Hrefused & Hq).
    destruct (Hq eq_refl) as (Hl & _ & Hu).
    split; [by apply Hiff|]. split; [exact Hk|]. split; [exact Hrefused|].
    split; [exact Hl|]. apply Hu.
    intros x Hx Hid. apply list_elem_of_In in Hx.
    destruct Hx as [<-|[<-|[]]]; [reflexivity|discriminate Hid].
Defined.

(** ** Debounce *)

Lemma sendBatches_only d groups e :
  e ∈ sendBatches d groups → ∃ g ms, e = Send (Batch g ms).
Proof.
  unfold sendBatches. rewrite list_elem_of_In, in_flat_map.
  intros ([g ms] & _ & H). cbn [fst snd] in H.
  destruct (fetchChannel d g); try done.
  destruct (sendOk d (Batch g ms)); [|done]. destruct H as [<-|[]]. by exists g, ms.
Qed.

Lemma sendDetailed_only d groups e :
  e ∈ sendDetailed d groups → ∃ m, e = Send (Detailed m).
Proof.
  unfold sendDetailed. rewrite list_elem_of_In, in_flat_map.
  intros ([g ms] & _ & H). cbn [fst snd] in H.
  destruct (fetchChannel d g); try done.
  apply in_flat_map in H as (m & _ & H).
  destruct (sendOk d (Detailed m)); [|done]. destruct H as [<-|[]]. by exists m.
Qed.

Lemma sendBatches_NoDup d groups : NoDup groups.*1 → NoDup (sendBatches d groups).
Proof.
  induction groups as [|[g ms] groups IH]; [intros _; apply NoDup_nil_2|].
  rewrite fmap_cons. cbn [fst]. intros [Hnot Hnd]%NoDup_cons.
  change (sendBatches d ((g, ms) :: groups))
    with (match fetchChannel d g with
          | Channel => if sendOk d (Batch g ms) then [Send (Batch g ms)] else []
          | FetchThrows | NoChannel => []
          end ++ sendBatches d groups).
  destruct (fetchChannel d g); cbn [app]; try by apply IH.
  destruct (sendOk d (Batch g ms)); cbn [app]; [|by apply IH].
  apply NoDup_cons. split; [|by apply IH].
  intros (Hin & _)%sendBatches_spec. apply Hnot.
  apply list_elem_of_fmap. by exists (g, ms).
Qed.

Lemma announced_all_delivered v d buffer :
  (∀ g, fetchChannel d g = Channel) → (∀ msg, sendOk d msg = true) →
  announced (match v with
             | Batched => sendBatches d (byGuild buffer)
             | Instant => sendDetailed d (byGuild buffer)
             end) ≡ₚ buffer.*2.
Proof.
  intros Hc Hs.
  assert (E : announced (match v with
                         | Batched => sendBatches d (byGuild buffer)
                         | Instant => sendDetailed d (byGuild buffer)
                         end)
              = map snd (pairsOf (byGuild buffer))).
  { destruct v; [by apply announced_sendBatches | by apply announced_sendDetailed]. }
  rewrite E, pairsOf_byGuild, map_map. cbn [snd]. clear.
  induction buffer as [|item l IH]; [done|].
  cbn [map fmap list_fmap]. by rewrite IH.
Qed.

(** C4.  Take one or more requests that the scheduler accepts, starting
    with an empty queue, each of the later ones coming at most the
    debounce window after the one before.  Every request comes no later
    than the pending timer would run, the queue holds all the pairs in
    order, and exactly one debounce timer is pending, due one window after
    the last request: each arrival replaced the timer of the one before.
    That timer cannot run earlier; when it runs it empties the queue and
    leaves no debounce timer behind.  What goes out then is, in part_000,
    one message for each guild that has pairs in the queue, found channel
    and accepted send provided, listing exactly the members queued for
    that guild, and nothing else; in part_001, one message for each queued
    member.  When the channel is found and every send accepted, the
    members the messages are about are all the queued members, each as
    often as it was queued. *)
Theorem debounce_single_flush v d c0 rest st :
  Inv st → notifyBuffer st = [] →
  all_accepted (c0 :: rest) st = true →
  Forall (λ c, after c ≤ notifyDebounceMs) rest →
  let st' := arrivals (c0 :: rest) st in
  let pairs := queued (c0 :: rest) in
  on_time (c0 :: rest) st
  ∧ notifyBuffer st' = pairs
  ∧ (∃ h,
       pendingFlush st'
       = [{| handle := h; due := clock st' + notifyDebounceMs; callback := FlushBuffer |}]
       ∧ debounceTimer st' = Some h
       ∧ step v (TimerFires h d) st' = None
       ∧ ∃ st'' effs,
           step v (TimerFires h d) (set_clock (clock st' + notifyDebounceMs) st')
           = Some (st'', effs)
           ∧ notifyBuffer st'' = [] ∧ pendingFlush st'' = []
           ∧ match v with
             | Batched =>
                 (∀ g ms, Send (Batch g ms) ∈ effs
                          ↔ ms = membersOf g pairs ∧ ms ≠ []
                            ∧ fetchChannel d g = Channel
                            ∧ sendOk d (Batch g ms) = true)
                 ∧ (∀ e, e ∈ effs → ∃ g ms, e = Send (Batch g ms))
                 ∧ NoDup effs
             | Instant =>
                 (∀ m, Send (Detailed m) ∈ effs
                       ↔ ∃ gd, (gd, m) ∈ pairs
                               ∧ fetchChannel d (guild_id gd) = Channel
                               ∧ sendOk d (Detailed m) = true)
                 ∧ (∀ e, e ∈ effs → ∃ m, e = Send (Detailed m))
             end
           ∧ ((∀ g, fetchChannel d g = Channel) → (∀ msg, sendOk d msg = true) →
              announced effs ≡ₚ pairs.*2))
  ∧ NoDup (byGuild pairs).*1
  ∧ ∀ g ms, (g, ms) ∈ byGuild pairs ↔ ms = membersOf g pairs ∧ ms ≠ [].
Proof.
  intros HI Hb Ha Hgap st' pairs.
  assert (Hbuf : notifyBuffer st' = pairs).
  { subst st' pairs. rewrite arrivals_buffer by done. by rewrite Hb. }
  destruct (arrivals_flush c0 rest st HI Ha) as (HI' & h & Hp & Hd). fold st' in HI', Hp, Hd.
  split; [|split; [done|split; [|split]]].
  - apply on_time_calls; [done|done|]. split; [|done].
    intros t Ht. rewrite (inv_buffer _ HI Hb) in Ht. by apply elem_of_nil in Ht.
  - exists h. split; [done|]. split; [done|].
    set (t := {| handle := h; due := clock st' + notifyDebounceMs; callback := FlushBuffer |}) in *.
    assert (t ∈ timers st') as Hin.
    { apply (elem_of_filter' is_flush). fold (pendingFlush st'). rewrite Hp. by left. }
    split.
    + cbn [step]. unfold findTimer.
      pose proof (find_NoDup (timers st') t (inv_nodup _ HI') Hin) as Hfind.
      change (handle t) with h in Hfind. rewrite Hfind.
      replace (due t <=? clock st') with false; [done|].
      symmetry. apply Z.leb_gt. cbn [due t]. unfold notifyDebounceMs. lia.
    + destruct (flush_fires v d t (set_clock (clock st' + notifyDebounceMs) st'))
        as (st'' & Hstep & Hb'' & Hp''); [by apply Inv_set_clock|done| | |].
      * cbn [notifyBuffer set_clock]. rewrite Hbuf. done.
      * cbn [clock set_clock due t]. lia.
      * cbn [notifyBuffer set_clock] in Hstep. rewrite Hbuf in Hstep.
        eexists st'', _. split; [exact Hstep|]. split; [done|]. split; [done|].
        split; [|by apply announced_all_delivered].
        destruct v.
        -- split; [|split].
           ++ intros g ms. rewrite sendBatches_spec, byGuild_groups. tauto.
           ++ apply sendBatches_only.
           ++ apply sendBatches_NoDup, byGuild_NoDup.
        -- split; [|apply sendDetailed_only].
           intros m. rewrite sendDetailed_spec. split.
           ++ intros (g & ms & Hg & Hm & Hc & Hs). apply byGuild_groups in Hg as [-> _].
              apply elem_of_membersOf in Hm as (gd & Hq & <-). by exists gd.
           ++ intros (gd & Hq & Hc & Hs).
              exists (guild_id gd), (membersOf (guild_id gd) pairs).
              assert (m ∈ membersOf (guild_id gd) pairs) as Hm
                by (apply elem_of_membersOf; by exists gd).
              split; [|done]. apply byGuild_groups. split; [done|].
              intros E. rewrite E in Hm. by apply elem_of_nil in Hm.
  - apply byGuild_NoDup.
  - apply byGuild_groups.
Qed.

Lemma debounce_single_flush_witness :
  let st' := arrivals (Sample.burst_first :: Sample.burst_rest) Sample.fresh in
  let pairs := queued (Sample.burst_first :: Sample.burst_rest) in
  notifyBuffer st' = pairs
  ∧ ∃ h st'' effs,
      pendingFlush st'
      = [{| handle := h; due := clock st' + notifyDebounceMs; callback := FlushBuffer |}]
      ∧ step Batched (TimerFires h Sample.delivers)
          (set_clock (clock st' + notifyDebounceMs) st') = Some (st'', effs)
      ∧ notifyBuffer st'' = []
      ∧ Send (Batch "G" [Sample.alice; Sample.carol]) ∈ effs
      ∧ Send (Batch "H" [Sample.dave]) ∈ effs
      ∧ announced effs ≡ₚ pairs.*2.
Proof.
  intros st' pairs.
  destruct (debounce_single_flush Batched Sample.delivers
              Sample.burst_first Sample.burst_rest Sample.fresh)
    as (_ & Hbuf & (h & Hp & _ & _ & st'' & effs & Hstep & Hb & _ & (Hiff & _) & Hall) & _).
  - apply (Inv_ext (boot Sample.T0 Missing)); [reflexivity..|apply Inv_boot].
  - reflexivity.
  - vm_compute. reflexivity.
  - repeat constructor; vm_compute; discriminate.
  - split; [exact Hbuf|]. exists h, st'', effs.
    split; [exact Hp|]. split; [exact Hstep|]. split; [exact Hb|].
    split; [|split].
    + apply Hiff. split; [vm_compute; reflexivity|]. split; [discriminate|].
      split; reflexivity.
    + apply Hiff. split; [vm_compute; reflexivity|]. split; [discriminate|].
      split; reflexivity.
    + apply Hall; reflexivity.
Defined.

(** ** Loading fails soft *)

Lemma set_knownMembers_same st : set_knownMembers (knownMembers st) st = st.
Proof. by destruct st. Qed.






(** ** The live join listener *)

Lemma pendingWrite_enqueue m g st : Inv st → pendingWrite (enqueue m g st) = pendingWrite st.
Proof.
  intros HI. destruct (timers_enqueue m g st) as (Ht & _).
  unfold pendingWrite. rewrite Ht, List.filter_app.
  cbn [List.filter is_write callback]. rewrite app_nil_r.
  destruct (debounceTimer st) as [h|] eqn:Ed; [|done].
  apply filter_unaffected. intros t Ht' Hh. apply negb_false_iff, Nat.eqb_eq in Hh.
  assert (is_flush t = true) as Hfl by (apply (inv_flush _ HI); [done|by rewrite Hh]).
  unfold is_flush, is_write in *. by destruct (callback t).
Qed.

Lemma pendingWrite_scheduleNotify m g st :
  Inv st → pendingWrite (scheduleNotify m g st) = pendingWrite st.
Proof.
  intros HI. destruct (accepts m st) eqn:E.
  - rewrite scheduleNotify_accepted by done. by apply pendingWrite_enqueue.
  - by rewrite scheduleNotify_dropped.
Qed.

Lemma save_after_mark K gid st :
  let s0 := savePersistence (set_knownMembers K (ensureGuild gid st)) in
  lastNotified s0 = lastNotified st ∧ notifyBuffer s0 = notifyBuffer st
  ∧ debounceTimer s0 = debounceTimer st ∧ clock s0 = clock st
  ∧ pendingFlush s0 = pendingFlush st ∧ writes s0 = writes st
  ∧ saveScheduled s0 = true
  ∧ pendingWrite s0
    = pendingWrite st
      ++ (if saveScheduled st then []
          else [{| handle := nextHandle st; due := clock st + saveDelayMs;
                   callback := WriteDump |}]).
Proof.
  intros s0. subst s0. rewrite pendingFlush_savePersistence.
  unfold savePersistence, ensureGuild, pendingFlush, pendingWrite.
  destruct (knownMembers st !! gid); fields; destruct (saveScheduled st) eqn:Es; fields;
    rewrite ?app_nil_r, ?List.filter_app; done.
Qed.

(** C7, as stated, fails, in four ways.  A replayed join changes the
    state when its guild has no known set yet: the listener has made the
    empty set before it looks at the timestamp.  A join that is neither
    known nor replayed produces no notification in part_000 when the
    member is in its cooldown window: alice joins G and is queued, joins H
    at once and is marked for H, but the queue stays as it was and the
    flush has one message, for G.  In part_001 it produces none when the
    channel is not found.  And the replay test does not measure from the
    start of the process: erin joined two seconds after a process started
    whose client was ready ten seconds after the start, and her join is
    dropped, unmarked. *)
Lemma live_join_not_as_stated :
  (replayed Sample.bob Sample.fresh = true
   ∧ knownMembers Sample.fresh !! "G" = None
   ∧ knownMembers (guildMemberAdd Batched Sample.delivers (Some Sample.bob) Sample.fresh).1
       !! "G" = Some [])
  ∧ (let st := (guildMemberAdd Batched Sample.delivers (Some Sample.alice) Sample.fresh).1 in
     let r := guildMemberAdd Batched Sample.delivers (Some Sample.alice_in_H) st in
     isKnown st "H" "1" = false
     ∧ replayed Sample.alice_in_H st = false
     ∧ isKnown r.1 "H" "1" = true
     ∧ notifyBuffer r.1 = [(Sample.G, Sample.alice)]
     ∧ match run Batched [Elapse 5000; TimerFires 1 Sample.delivers] r.1 with
       | Some (st2, effs) =>
           effs = [Send (Batch "G" [Sample.alice])] ∧ notifyBuffer st2 = []
       | None => False
       end)
  ∧ (let r := guildMemberAdd Instant Sample.fails (Some Sample.carol) Sample.fresh in
     isKnown Sample.fresh "G" "3" = false
     ∧ replayed Sample.carol Sample.fresh = false
     ∧ isKnown r.1 "G" "3" = true
     ∧ r.2 = [])
  ∧ match run Batched [Elapse 60000; MemberAdd (Some More.erin) Sample.delivers]
              More.slow_login with
    | Some (st, effs) =>
        joinedTimestamp More.erin = Some (Sample.T0 + 2000)
        ∧ (clock (boot Sample.T0 Missing) - 2000 ≤ Sample.T0 + 2000)
        ∧ isKnown More.slow_login "G" "5" = false
        ∧ isKnown st "G" "5" = false
        ∧ effs = []
    | None => False
    end.
Proof.
  split; [by vm_compute|]. split; [by vm_compute|]. split; [by vm_compute|].
  vm_compute. split; [done|]. split; [discriminate|]. done.
Qed.

(** C7, amended.  For a join event of [member] in guild [g]: when the
    member is already known the listener ignores the event, no state
    change and no notification.  When the member has a join timestamp
    ([0] counts as none, as in the script's test) that lies more than
    2000 ms before the time the client became ready, nobody is marked,
    nothing is saved, handed on or sent; every known set holds what it held, and the only change there
    can be is the empty set made for a guild that had none.  Otherwise the
    member is added to the guild's known set, the other sets staying as
    they were, and a save is scheduled: one save timer or write is
    outstanding, a new timer due after the save delay when none was.  Then
    part_000 hands the member to the scheduler: past its cooldown the
    pair is queued, the notification recorded and the debounce timer set;
    within its cooldown nothing is queued and the scheduler's state stays
    as it was.  part_001 leaves the scheduler alone and sends one message
    when the channel is found and the send succeeds, none otherwise. *)
Theorem live_join_guard v d member g st :
  guild member = Some g →
  let gid := guild_id g in
  let M := member_id member in
  let r := guildMemberAdd v d (Some member) st in
  (isKnown st gid M = true → r = (st, []))
  ∧ (isKnown st gid M = false → replayed member st = true →
       r.2 = []
       ∧ r.1 = set_knownMembers (knownMembers r.1) st
       ∧ (∀ G, known r.1 G = known st G)
       ∧ (is_Some (knownMembers st !! gid) → r.1 = st)
       ∧ (knownMembers st !! gid = None →
          knownMembers r.1 = <[gid := []]> (knownMembers st)))
  ∧ (isKnown st gid M = false → replayed member st = false →
       known r.1 gid = known st gid ++ [JS.Str M]
       ∧ (∀ G, G ≠ gid → known r.1 G = known st G)
       ∧ saveScheduled r.1 = true
       ∧ writes r.1 = writes st
       ∧ (Inv st →
            (length (pendingWrite r.1) + length (writes r.1) = 1)%nat
            ∧ pendingWrite r.1
              = pendingWrite st
                ++ (if saveScheduled st then []
                    else [{| handle := nextHandle st; due := clock st + saveDelayMs;
                             callback := WriteDump |}]))
       ∧ match v with
         | Batched =>
             r.2 = [Forward member g]
             ∧ (accepts member st = true →
                  notifyBuffer r.1 = notifyBuffer st ++ [(g, member)]
                  ∧ lastNotified r.1 = <[M := clock st]> (lastNotified st)
                  ∧ ∃ t, t ∈ pendingFlush r.1
                         ∧ due t = clock st + notifyDebounceMs
                         ∧ debounceTimer r.1 = Some (handle t))
             ∧ (accepts member st = false →
                  notifyBuffer r.1 = notifyBuffer st
                  ∧ lastNotified r.1 = lastNotified st
                  ∧ debounceTimer r.1 = debounceTimer st
                  ∧ pendingFlush r.1 = pendingFlush st)
         | Instant =>
             notifyBuffer r.1 = notifyBuffer st
             ∧ lastNotified r.1 = lastNotified st
             ∧ debounceTimer r.1 = debounceTimer st
             ∧ pendingFlush r.1 = pendingFlush st
             ∧ (fetchChannel d gid = Channel → sendOk d (Detailed member) = true →
                r.2 = [Send (Detailed member)])
             ∧ (fetchChannel d gid ≠ Channel ∨ sendOk d (Detailed member) = false →
                r.2 = [])
         end)
  ∧ (replayed member st = true
     ↔ ∃ t r0, joinedTimestamp member = Some t ∧ t ≠ 0
               ∧ readyAt st = Some r0 ∧ t < r0 - 2000).
Proof.
  intros Hg gid M r.
  split; [|split; [|split; [|apply replayed_spec]]].
  - intros Hk. unfold r, guildMemberAdd. rewrite Hg. fold gid.
    rewrite known_ensureGuild. fold (isKnown st gid (member_id member)). fold M.
    rewrite Hk. by rewrite (ensureGuild_tracked _ _ (isKnown_tracked _ _ _ Hk)).
  - intros Hk Hr.
    assert (r = (ensureGuild gid st, [])) as ->.
    { unfold r, guildMemberAdd. rewrite Hg. fold gid.
      rewrite known_ensureGuild, replayed_ensureGuild.
      fold (isKnown st gid (member_id member)). fold M. by rewrite Hk, Hr. }
    cbn [fst snd]. split; [done|]. split.
    { unfold ensureGuild. destruct (knownMembers st !! gid); [|done].
      by rewrite set_knownMembers_same. }
    split; [intros G; apply known_ensureGuild|].
    split; [apply ensureGuild_tracked|].
    intros Hn. unfold ensureGuild. by rewrite Hn.
  - intros Hk Hr. unfold r. rewrite (guildMemberAdd_fresh v d member g st Hg Hk Hr).
    fold gid. fold M.
    set (K := <[gid := JS.add (JS.Str M) (known st gid)]> (knownMembers st)).
    assert (Hadd : JS.add (JS.Str M) (known st gid) = known st gid ++ [JS.Str M]).
    { unfold JS.add. unfold isKnown in Hk. by rewrite Hk. }
    assert (Hs0 : savePersistence (set_knownMembers K st)
                  = savePersistence
                      (set_knownMembers
                         (<[gid := JS.add (JS.Str M) (known (ensureGuild gid st) gid)]>
                            (knownMembers (ensureGuild gid st))) (ensureGuild gid st))).
    { by rewrite insert_ensureGuild, known_ensureGuild. }
    destruct (save_after_mark
                (<[gid := JS.add (JS.Str M) (known (ensureGuild gid st) gid)]>
                   (knownMembers (ensureGuild gid st))) gid st)
      as (F1 & F2 & F3 & F4 & F5 & F6 & F7 & F8).
    rewrite <- Hs0 in F1, F2, F3, F4, F5, F6, F7, F8. clear Hs0.
    set (s0 := savePersistence (set_knownMembers K st)) in *.
    assert (Hks0 : knownMembers s0 = K) by apply knownMembers_savePersistence.
    assert (Hacc : accepts member s0 = accepts member st) by (by apply accepts_ext).
    assert (HK : ∀ s, knownMembers s = K →
              known s gid = known st gid ++ [JS.Str M]
              ∧ ∀ G, G ≠ gid → known s G = known st G).
    { intros s Hs. unfold known at 1 3. rewrite Hs. unfold K. split.
      - by rewrite lookup_insert_eq.
      - intros G HG. by rewrite lookup_insert_ne. }
    destruct v; cbn [fst snd].
    + assert (knownMembers (scheduleNotify member g s0) = K) as Hk1
        by (by rewrite knownMembers_scheduleNotify).
      destruct (HK _ Hk1) as [HK1 HK2].
      split; [done|]. split; [done|].
      split.
      { destruct (accepts member s0) eqn:E.
        - rewrite scheduleNotify_accepted by done.
          destruct (timers_enqueue member g s0) as (_ & _ & _ & -> & _). done.
        - by rewrite scheduleNotify_dropped. }
      split; [by rewrite writes_scheduleNotify|].
      split.
      { intros HI.
        assert (Inv s0) as HI0 by (by apply Inv_savePersistence, Inv_set_knownMembers).
        split.
        - pose proof (inv_save _ (Inv_scheduleNotify member g s0 HI0)) as H5.
          destruct (accepts member s0) eqn:E.
          + rewrite scheduleNotify_accepted in * by done.
            destruct (timers_enqueue member g s0) as (_ & _ & _ & Hss & _).
            by rewrite Hss, F7 in H5.
          + rewrite scheduleNotify_dropped in * by done. by rewrite F7 in H5.
        - by rewrite pendingWrite_scheduleNotify. }
      split; [done|]. split.
      * intros Ha. rewrite <- Hacc in Ha. rewrite scheduleNotify_accepted by done.
        rewrite enqueue_notifyBuffer, enqueue_lastNotified, F1, F2, F4.
        split; [done|]. split; [done|].
        destruct (timers_enqueue member g s0) as (Ht & _ & Hd & _).
        exists {| handle := nextHandle s0; due := clock s0 + notifyDebounceMs;
                  callback := FlushBuffer |}.
        split; [|split; [by rewrite <- F4|done]].
        apply elem_of_filter'. split; [|done]. rewrite Ht. apply elem_of_app. right. by left.
      * intros Ha. rewrite <- Hacc in Ha. rewrite scheduleNotify_dropped by done. done.
    + destruct (HK _ Hks0) as [HK1 HK2].
      split; [done|]. split; [done|]. split; [done|]. split; [done|].
      split.
      { intros HI.
        assert (Inv s0) as HI0 by (by apply Inv_savePersistence, Inv_set_knownMembers).
        split; [|done]. pose proof (inv_save _ HI0) as H5. by rewrite F7 in H5. }
      split; [done|]. split; [done|]. split; [done|]. split; [done|].
      unfold sendInstant. split.
      * intros -> ->. done.
      * intros [Hc|Hs].
        -- by destruct (fetchChannel d gid).
        -- rewrite Hs. by destruct (fetchChannel d gid).
Qed.

Lemma live_join_guard_witness :
  let r := guildMemberAdd Batched Sample.delivers (Some Sample.carol) Sample.ticked in
  known r.1 "G" = known Sample.ticked "G" ++ [JS.Str "3"]
  ∧ saveScheduled r.1 = true
  ∧ r.2 = [Forward Sample.carol Sample.G]
  ∧ notifyBuffer r.1 = notifyBuffer Sample.ticked ++ [(Sample.G, Sample.carol)]
  ∧ lastNotified r.1 = <["3" := clock Sample.ticked]> (lastNotified Sample.ticked).
Proof.
  intros r.
  destruct (live_join_guard Batched Sample.delivers Sample.carol Sample.G Sample.ticked
              eq_refl) as (_ & _ & Hnew & _).
  destruct Hnew as (Hk & _ & Hs & _ & _ & Hf & Hq & _).
  - vm_compute. reflexivity.
  - vm_compute. reflexivity.
  - destruct Hq as (Hb & Hl & _); [vm_compute; reflexivity|].
    split; [exact Hk|]. split; [exact Hs|]. split; [exact Hf|].
    split; [exact Hb|exact Hl].
Defined.

(** ** The cooldown and what is dispatched *)

Lemma mentions_app key l1 l2 : mentions key (l1 ++ l2) = (mentions key l1 + mentions key l2)%nat.
Proof. unfold mentions. by rewrite List.filter_app, length_app. Qed.

Lemma mentions_perm key l1 l2 : l1 ≡ₚ l2 → mentions key l1 = mentions key l2.
Proof.
  unfold mentions. induction 1 as [|x l1 l2 _ IH|x y l|l1 l2 l3 _ IH1 _ IH2];
    cbn [List.filter].
  - done.
  - destruct (String.eqb (member_id x) key); cbn [length]; by rewrite IH.
  - by destruct (String.eqb (member_id x) key), (String.eqb (member_id y) key).
  - by rewrite IH1.
Qed.

Lemma mentions_nil key : mentions key [] = 0%nat.
Proof. done. Qed.

Lemma mentions_single m : mentions (member_id m) [m] = 1%nat.
Proof. unfold mentions. cbn [List.filter]. by rewrite String.eqb_refl. Qed.

Lemma mentions_none key l :
  (∀ m, m ∈ l → member_id m ≠ key) → mentions key l = 0%nat.
Proof.
  intros H. unfold mentions. rewrite filter_none; [done|].
  intros m Hm. apply String.eqb_neq. by apply H.
Qed.

Lemma announced_app e1 e2 : announced (e1 ++ e2) = announced e1 ++ announced e2.
Proof. unfold announced. apply flat_map_app. Qed.

Lemma announced_forwards g members : announced (map (λ m, Forward m g) members) = [].
Proof. induction members as [|m members IH]; [done|]. exact IH. Qed.

Lemma mentions_sendBatches key d groups :
  (mentions key (announced (sendBatches d groups)) ≤ mentions key (map snd (pairsOf groups)))%nat.
Proof.
  induction groups as [|[g ms] groups IH]; [done|].
  change (sendBatches d ((g, ms) :: groups))
    with (match fetchChannel d g with
          | Channel => if sendOk d (Batch g ms) then [Send (Batch g ms)] else []
          | FetchThrows | NoChannel => []
          end ++ sendBatches d groups).
  change (pairsOf ((g, ms) :: groups)) with (map (pair g) ms ++ pairsOf groups).
  rewrite announced_app, map_app, !mentions_app, map_map. cbn [snd]. rewrite map_id.
  assert (mentions key (announced (match fetchChannel d g with
                                   | Channel => if sendOk d (Batch g ms)
                                                then [Send (Batch g ms)] else []
                                   | FetchThrows | NoChannel => []
                                   end)) ≤ mentions key ms)%nat; [|lia].
  destruct (fetchChannel d g); try (cbn; lia).
  destruct (sendOk d (Batch g ms)); [|cbn; lia].
  change (announced [Send (Batch g ms)]) with (ms ++ []). by rewrite app_nil_r.
Qed.

Lemma mentions_flush key d buffer :
  (mentions key (announced (sendBatches d (byGuild buffer))) ≤ mentions key buffer.*2)%nat.
Proof.
  etrans; [apply mentions_sendBatches|].
  rewrite (mentions_perm key _ buffer.*2); [done|].
  rewrite pairsOf_byGuild, map_map. cbn [snd]. clear.
  induction buffer as [|item l IH]; [done|].
  cbn [map fmap list_fmap]. by rewrite IH.
Qed.

Lemma refused_in_window key t0 m st :
  notifiedSince key t0 st → clock st - t0 < notifyCooldownMs → member_id m = key →
  accepts m st = false.
Proof.
  intros (t & Hl & Ht) Hw Hid. destruct (accepts m st) eqn:E; [|done].
  apply accepts_spec in E. rewrite Hid, Hl in E. cbn [default from_option] in E.
  unfold id in E. lia.
Qed.

Lemma mentions_accepted key t0 st (added : list (Guild * Member)) :
  notifiedSince key t0 st → clock st - t0 < notifyCooldownMs →
  (∀ x, x ∈ added → accepts x.2 st = true) → mentions key added.*2 = 0%nat.
Proof.
  intros Hn Hw Hacc. apply mentions_none.
  intros m ([g' m'] & -> & Hx)%list_elem_of_fmap Hid. cbn [snd] in *.
  specialize (Hacc _ Hx). cbn [snd] in Hacc.
  by rewrite (refused_in_window key t0 m' st Hn Hw Hid) in Hacc.
Qed.

Lemma clock_ensureGuild g st : clock (ensureGuild g st) = clock st.
Proof. unfold ensureGuild. by destruct (knownMembers st !! g). Qed.

Lemma clock_savePersistence st : clock (savePersistence st) = clock st.
Proof. unfold savePersistence. by destruct (saveScheduled st). Qed.

Lemma notifyBuffer_ensureGuild g st : notifyBuffer (ensureGuild g st) = notifyBuffer st.
Proof. unfold ensureGuild. by destruct (knownMembers st !! g). Qed.

Lemma notifyBuffer_savePersistence st : notifyBuffer (savePersistence st) = notifyBuffer st.
Proof. unfold savePersistence. by destruct (saveScheduled st). Qed.

Lemma lastNotified_savePersistence st : lastNotified (savePersistence st) = lastNotified st.
Proof. unfold savePersistence. by destruct (saveScheduled st). Qed.

Lemma clock_pollAfterFetch g roster st : clock (pollAfterFetch g roster st).1 = clock st.
Proof.
  unfold pollAfterFetch. destruct (diffNewMembers (guild_id g) roster st); [done|].
  destruct (knownMembers st !! guild_id g); [|done]. cbn [fst].
  by rewrite clock_scheduleAll, clock_savePersistence.
Qed.

Lemma clock_guildMemberAdd v d member st : clock (guildMemberAdd v d member st).1 = clock st.
Proof.
  unfold guildMemberAdd. destruct member as [member|]; [|done].
  destruct (guild member) as [g|]; [|done].
  destruct (JS.has _ _); [apply clock_ensureGuild|].
  destruct (replayed _ _); [apply clock_ensureGuild|].
  destruct v; cbn [fst]; rewrite ?clock_scheduleNotify, clock_savePersistence;
    cbn [clock set_knownMembers]; apply clock_ensureGuild.
Qed.

Lemma clock_step_mono v ev st st' effs :
  step v ev st = Some (st', effs) → clock st ≤ clock st'.
Proof.
  intros Hstep. destruct ev; cbn [step] in Hstep.
  - destruct (0 <=? dt) eqn:E; [|done]. apply Z.leb_le in E.
    inversion Hstep; subst. cbn [clock set_clock]. lia.
  - inversion Hstep as [Heq]. pose proof (clock_guildMemberAdd v d member st) as H.
    rewrite Heq in H. cbn [fst] in H. lia.
  - unfold pollBeforeFetch in Hstep. inversion Hstep; subst. by rewrite clock_ensureGuild.
  - inversion Hstep as [Heq]. pose proof (clock_pollAfterFetch g roster st) as H.
    rewrite Heq in H. cbn [fst] in H. lia.
  - inversion Hstep; subst. by rewrite clock_savePersistence.
  - destruct (findTimer h st) as [t|]; [|done]. destruct (due t <=? clock st); [|done].
    inversion Hstep as [Heq]. unfold runTimer in Heq. destruct (callback t).
    + inversion Heq; subst. done.
    + pose proof (flush_state v d (clearTimeout (handle t) st)) as Hf.
      rewrite Heq in Hf. cbn [fst] in Hf. by rewrite Hf.
  - unfold finishWrite in Hstep. destruct (writes st); [done|].
    inversion Hstep; subst. by destruct ok.
Qed.

Lemma clock_run_mono v evs st st' effs :
  run v evs st = Some (st', effs) → clock st ≤ clock st'.
Proof.
  revert st effs. induction evs as [|ev evs IH]; intros st effs Hrun; cbn [run] in Hrun.
  - by inversion Hrun; subst.
  - destruct (step v ev st) as [[st1 e1]|] eqn:Es; [|done].
    destruct (run v evs st1) as [[st2 e2]|] eqn:Er; [|done].
    inversion Hrun; subst. pose proof (clock_step_mono _ _ _ _ _ Es).
    pose proof (IH _ _ Er). lia.
Qed.

Ltac nothing_added :=
  exists []; rewrite app_nil_r; split; [done|]; split; [by intros ? ?%elem_of_nil | done].

Lemma pollAfterFetch_queue g roster st :
  ∃ added : list (Guild * Member),
    notifyBuffer (pollAfterFetch g roster st).1 = notifyBuffer st ++ added
    ∧ (∀ x, x ∈ added → accepts x.2 st = true)
    ∧ announced (pollAfterFetch g roster st).2 = [].
Proof.
  unfold pollAfterFetch. destruct (diffNewMembers (guild_id g) roster st) as [|n0 ns].
  { nothing_added. }
  destruct (knownMembers st !! guild_id g) as [seen|].
  2:{ nothing_added. }
  cbn [fst snd]. rewrite announced_forwards.
  set (s0 := savePersistence _).
  destruct (scheduleAll_added g (List.filter (realNew (startupTs st)) (n0 :: ns)) s0)
    as (added & Hb & Hacc).
  exists (map (pair g) added). rewrite Hb. unfold s0 at 1.
  rewrite notifyBuffer_savePersistence. split; [done|]. split; [|done].
  intros x (m & <- & Hm%list_elem_of_In)%list_elem_of_In%in_map_iff. cbn [snd].
  destruct (Hacc m Hm) as [_ Ha]. rewrite <- Ha. symmetry. apply accepts_ext.
  - unfold s0. by rewrite lastNotified_savePersistence.
  - unfold s0. by rewrite clock_savePersistence.
Qed.

Lemma guildMemberAdd_queue d member st :
  ∃ added : list (Guild * Member),
    notifyBuffer (guildMemberAdd Batched d member st).1 = notifyBuffer st ++ added
    ∧ (∀ x, x ∈ added → accepts x.2 st = true)
    ∧ announced (guildMemberAdd Batched d member st).2 = [].
Proof.
  unfold guildMemberAdd. destruct member as [member|].
  2:{ nothing_added. }
  destruct (guild member) as [g|].
  2:{ nothing_added. }
  destruct (JS.has _ _).
  { cbn [fst snd]. rewrite notifyBuffer_ensureGuild. nothing_added. }
  destruct (replayed _ _).
  { cbn [fst snd]. rewrite notifyBuffer_ensureGuild. nothing_added. }
  cbn [fst snd]. set (s0 := savePersistence _).
  assert (notifyBuffer s0 = notifyBuffer st ∧ accepts member s0 = accepts member st)
    as [Hb Ha].
  { unfold s0. rewrite notifyBuffer_savePersistence. cbn [notifyBuffer set_knownMembers].
    split; [apply notifyBuffer_ensureGuild|]. apply accepts_ext.
    - rewrite lastNotified_savePersistence. cbn [lastNotified set_knownMembers].
      unfold ensureGuild. by destruct (knownMembers st !! _).
    - rewrite clock_savePersistence. cbn [clock set_knownMembers]. apply clock_ensureGuild. }
  rewrite notifyBuffer_scheduleNotify, Hb, Ha.
  destruct (accepts member st) eqn:E.
  - exists [(g, member)]. split; [done|]. split; [|done].
    by intros x ->%list_elem_of_singleton.
  - exists []. split; [done|]. split; [|done]. by intros ? ?%elem_of_nil.
Qed.

Lemma step_quota ev st st' effs key t0 :
  step Batched ev st = Some (st', effs) →
  notifiedSince key t0 st → clock st - t0 < notifyCooldownMs →
  (mentions key (announced effs) + mentions key (notifyBuffer st').*2
   ≤ mentions key (notifyBuffer st).*2)%nat.
Proof.
  intros Hstep Hn Hw. destruct ev; cbn [step] in Hstep.
  - destruct (0 <=? dt); [|done]. inversion Hstep; subst.
    cbn [notifyBuffer set_clock]. change (announced []) with (@nil Member).
    rewrite mentions_nil. lia.
  - inversion Hstep as [Heq].
    destruct (guildMemberAdd_queue d member st) as (added & Hb & Hacc & He).
    rewrite Heq in Hb, He. cbn [fst snd] in Hb, He.
    rewrite He, Hb, fmap_app, mentions_app, (mentions_accepted key t0 st added) by done.
    rewrite mentions_nil. lia.
  - unfold pollBeforeFetch in Hstep. inversion Hstep; subst.
    rewrite notifyBuffer_ensureGuild.
    assert (announced (if negb (default 0 (memberCount g)
                                <=? Z.of_nat (length (known (ensureGuild (guild_id g) st)
                                                        (guild_id g))))
                       then [RosterFetch g] else []) = []) as ->
      by (by destruct (negb _)).
    rewrite mentions_nil. lia.
  - inversion Hstep as [Heq].
    destruct (pollAfterFetch_queue g roster st) as (added & Hb & Hacc & He).
    rewrite Heq in Hb, He. cbn [fst snd] in Hb, He.
    rewrite He, Hb, fmap_app, mentions_app, (mentions_accepted key t0 st added) by done.
    rewrite mentions_nil. lia.
  - inversion Hstep; subst. rewrite notifyBuffer_savePersistence.
    change (announced []) with (@nil Member). rewrite mentions_nil. lia.
  - destruct (findTimer h st) as [t|]; [|done]. destruct (due t <=? clock st); [|done].
    inversion Hstep as [Heq]. unfold runTimer in Heq. destruct (callback t).
    + inversion Heq; subst. cbn [notifyBuffer startWrite set_writes clearTimeout set_timers].
      change (announced []) with (@nil Member). rewrite mentions_nil. lia.
    + pose proof (flush_state Batched d (clearTimeout (handle t) st)) as Hf.
      pose proof (flush_effects Batched d (clearTimeout (handle t) st)) as He.
      rewrite Heq in Hf, He. cbn [fst snd] in Hf, He. rewrite Hf, He.
      cbn [notifyBuffer set_notifyBuffer clearTimeout set_timers fmap list_fmap].
      pose proof (mentions_flush key d (notifyBuffer st)). rewrite mentions_nil. lia.
  - unfold finishWrite in Hstep. destruct (writes st); [done|].
    inversion Hstep; subst. change (announced []) with (@nil Member). rewrite mentions_nil.
    destruct ok; cbn [notifyBuffer set_saveScheduled set_disk set_writes]; lia.
Qed.

Lemma run_quota evs st st' effs key t0 :
  run Batched evs st = Some (st', effs) →
  notifiedSince key t0 st → clock st' - t0 < notifyCooldownMs →
  (mentions key (announced effs) + mentions key (notifyBuffer st').*2
   ≤ mentions key (notifyBuffer st).*2)%nat.
Proof.
  revert st effs. induction evs as [|ev evs IH]; intros st effs Hrun Hn Hw; cbn [run] in Hrun.
  - inversion Hrun; subst. change (announced []) with (@nil Member).
    rewrite mentions_nil. lia.
  - destruct (step Batched ev st) as [[st1 e1]|] eqn:Es; [|done].
    destruct (run Batched evs st1) as [[st2 e2]|] eqn:Er; [|done].
    inversion Hrun; subst.
    pose proof (clock_step_mono _ _ _ _ _ Es). pose proof (clock_run_mono _ _ _ _ _ Er).
    pose proof (step_quota _ _ _ _ key t0 Es Hn ltac:(lia)).
    pose proof (IH _ _ Er (notifiedSince_step _ _ _ _ _ _ _ Es Hn) Hw).
    rewrite announced_app, mentions_app. lia.
Qed.

(** C10, as stated, fails on what is dispatched, in two ways.  In
    part_001 the listener sends without asking the scheduler: alice is
    queued for G, joins H, and within five seconds two messages about her
    have gone out.  In part_000 a notification can wait in the queue for
    as long as joins keep coming less than the debounce window apart:
    alice is queued for G, 151 others follow four seconds apart, then she
    is accepted for H, her cooldown being over; no flush has run
    meanwhile, and the one that runs five seconds later has her in two
    messages, both inside the window that her second record opened. *)
Lemma cooldown_not_per_dispatch :
  match run Instant [MemberAdd (Some Sample.alice_in_H) Sample.delivers; Elapse 5000;
                     TimerFires 0 Sample.delivers]
            (scheduleNotify Sample.alice Sample.G Sample.fresh) with
  | Some (st2, effs) =>
      mentions "1" (announced effs) = 2%nat
      ∧ clock st2 - clock Sample.fresh < notifyCooldownMs
  | None => False
  end
  ∧ let st1 := arrivals More.long_burst Sample.fresh in
    all_accepted More.long_burst Sample.fresh = true
    ∧ Forall (λ c, after c ≤ notifyDebounceMs) More.long_burst
    ∧ lastNotified st1 !! "1" = Some (clock st1)
    ∧ match debounceTimer st1 with
      | Some h =>
          match run Batched [Elapse 5000; TimerFires h Sample.delivers] st1 with
          | Some (st2, effs) =>
              mentions "1" (announced effs) = 2%nat
              ∧ clock st2 - clock st1 < notifyCooldownMs
          | None => False
          end
      | None => False
      end.
Proof.
  split; [by vm_compute|].
  split; [by vm_compute|]. split.
  { apply Forall_forall. intros c Hc. apply (bool_decide_unpack _).
    revert c Hc. apply Forall_forall. apply (bool_decide_unpack _). by vm_compute. }
  by vm_compute.
Qed.

(** C10, amended.  The cooldown table is keyed by the member identifier
    and the check never looks at the guild.  Once a request for [m] was
    queued for guild [A], the notification is on record under the
    identifier alone; a request for the same identifier in any guild [B]
    that comes within the window, whatever happened in between, is
    refused and leaves the state as it was; and of a whole series of such
    requests within the window none is queued, so the queue holds the one
    pair for [m].  For what is dispatched this gives, in part_000 and
    when no notification for the identifier was waiting in the queue at
    the time of the record: until the window ends, the messages sent and
    the queue together are about that identifier at most once, whatever
    the guilds. *)
Theorem cooldown_ignores_guild v m m' A B evs calls st st2 effs :
  accepts m st = true →
  member_id m' = member_id m →
  run v evs (scheduleNotify m A st) = Some (st2, effs) →
  clock st2 - clock st < notifyCooldownMs →
  Forall (λ c, member_id (who c) = member_id m ∧ 0 ≤ after c) calls →
  total_wait calls < notifyCooldownMs →
  let st1 := scheduleNotify m A st in
  lastNotified st1 !! member_id m = Some (clock st)
  ∧ scheduleNotify m' B st2 = st2
  ∧ accepts m' st2 = false
  ∧ arrivals calls st1 = set_clock (clock st + total_wait calls) st1
  ∧ notifyBuffer (arrivals calls st1) = notifyBuffer st ++ [(A, m)]
  ∧ (v = Batched → mentions (member_id m) (notifyBuffer st).*2 = 0%nat →
     (mentions (member_id m) (announced effs)
      + mentions (member_id m) (notifyBuffer st2).*2 ≤ 1)%nat).
Proof.
  intros Ha Hid Hrun Hwin2 Hcalls Hwin st1.
  assert (Hsince1 : notifiedSince (member_id m) (clock st) st1)
    by (by apply notifiedSince_accepted).
  assert (Hsince : notifiedSince (member_id m) (clock st) st2).
  { eapply notifiedSince_run; [done|]. done. }
  assert (Hquota : v = Batched → mentions (member_id m) (notifyBuffer st).*2 = 0%nat →
            (mentions (member_id m) (announced effs)
             + mentions (member_id m) (notifyBuffer st2).*2 ≤ 1)%nat).
  { intros -> Hnone.
    pose proof (run_quota _ _ _ _ (member_id m) (clock st) Hrun Hsince1 Hwin2) as Hq.
    unfold st1 in Hq. rewrite notifyBuffer_scheduleNotify, Ha, fmap_app, mentions_app, Hnone in Hq.
    change (snd <$> [(A, m)]) with [m] in Hq. rewrite mentions_single in Hq. lia. }
  subst st1. rewrite scheduleNotify_accepted in * by done.
  assert (Hl : lastNotified (enqueue m A st) !! member_id m = Some (clock st)).
  { by rewrite enqueue_lastNotified, lookup_insert_eq. }
  assert (Hr : arrivals calls (enqueue m A st)
               = set_clock (clock st + total_wait calls) (enqueue m A st)).
  { rewrite (arrivals_all_dropped (member_id m) (clock st)); rewrite ?enqueue_clock;
      [done|done|done|lia]. }
  split; [done|]. split; [by apply (dropped_in_window (member_id m) (clock st))|].
  split; [by apply (refused_in_window (member_id m) (clock st))|].
  split; [done|]. split; [|done].
  rewrite Hr. cbn [notifyBuffer set_clock]. apply enqueue_notifyBuffer.
Qed.

Lemma cooldown_ignores_guild_witness :
  match run Batched Sample.within_window
            (scheduleNotify Sample.alice Sample.G Sample.fresh) with
  | Some (st2, effs) =>
      scheduleNotify Sample.alice_in_H Sample.H st2 = st2
      ∧ notifyBuffer (arrivals Sample.repeats
                        (scheduleNotify Sample.alice Sample.G Sample.fresh))
        = notifyBuffer Sample.fresh ++ [(Sample.G, Sample.alice)]
      ∧ (mentions "1" (announced effs) + mentions "1" (notifyBuffer st2).*2 ≤ 1)%nat
  | None => False
  end.
Proof.
  destruct (run Batched Sample.within_window
              (scheduleNotify Sample.alice Sample.G Sample.fresh))
    as [[st2 effs]|] eqn:E.
  - destruct (cooldown_ignores_guild Batched Sample.alice Sample.alice_in_H
                Sample.G Sample.H Sample.within_window Sample.repeats
                Sample.fresh st2 effs) as (_ & Hdrop & _ & _ & Hbuf & Hq).
    + reflexivity.
    + reflexivity.
    + exact E.
    + assert (clock st2 = Sample.T0 + 65000) as ->.
      { vm_compute in E. by inversion E. }
      vm_compute. reflexivity.
    + repeat constructor; vm_compute; discriminate.
    + vm_compute. reflexivity.
    + split; [exact Hdrop|]. split; [exact Hbuf|]. apply Hq; reflexivity.
  - vm_compute in E. discriminate E.
Defined.
